(** * Morshed back end: the SQL repository helper

    A shallow embedding of [data/engine/sql/repository.go] (package [sql]):
    the query builders [ParseOrder] and [ListOptions.BuildQuery], and the
    [Repository] methods [Count], [GetByID], [GetByAttrs], [GetAll],
    [DeleteByID], [List] and [PartialUpdate], which assemble a statement and
    hand it to a database handle.

    Layout:
    - Go strings as byte sequences, and the parts of Go's [unicode/utf8],
      [unicode], [strings] and [fmt] packages that the file calls;
    - [ParseOrder];
    - Go values: [interface{}] values, [reflect.Kind], errors, [sql.Result];
    - the collaborators declared elsewhere in the package ([Record],
      [Sorted], [Database]) as interfaces, and the world in which the
      methods run: the handle's state and the log of the calls it received;
    - [ListOptions] and the methods of [Repository], in the order of the
      file; a [range] over a map takes the order of the visit as an
      argument;
    - [ParseListOptions] with the parts of [strconv] and [net/url] it
      calls;
    - sample collaborators and the vocabulary of the specification, with
      white space and letters as Unicode defines them;
    - the properties, and examples. *)

From Stdlib Require Import ZArith NArith Ascii String List Lia DecimalString DecimalN.
From stdpp Require Import gmap strings list fin_maps.

Open Scope Z_scope.

(* ================================================================= *)
(** ** Go strings as byte sequences *)

(** A Go [string] is an immutable sequence of bytes; [len(s)] counts bytes.
    Rocq's [string] is a sequence of 8-bit [ascii] characters, so it
    represents a Go string byte for byte.  The library functions below work
    on the byte values, as the Go code does. *)

Definition byte_of_ascii (c : ascii) : Z := Z.of_N (N_of_ascii c).
Definition ascii_of_byte (b : Z) : ascii := ascii_of_N (Z.to_N (b mod 256)).

Definition bytes (s : string) : list Z := byte_of_ascii <$> list_ascii_of_string s.
Definition of_bytes (l : list Z) : string := string_of_list_ascii (ascii_of_byte <$> l).

(** [len(s)] *)
Definition len (s : string) : Z := Z.of_nat (String.length s).

(** [s[i:]], [s[:j]] and [s[i:j]] on byte lists, for in-range indices. *)
Definition slice_from (i : Z) (l : list Z) : list Z := drop (Z.to_nat i) l.
Definition slice_to (j : Z) (l : list Z) : list Z := take (Z.to_nat j) l.
Definition slice (i j : Z) (l : list Z) : list Z :=
  take (Z.to_nat (j - i)) (drop (Z.to_nat i) l).

(** [s[i]] for an index in range (Go panics out of range; every use below
    is guarded by a length test, as in the Go sources). *)
Definition at_ (l : list Z) (i : Z) : Z := nth (Z.to_nat i) l 0.

(* ================================================================= *)
(** ** Package [unicode/utf8] *)

Module utf8.

Definition RuneError : Z := 0xFFFD.
Definition RuneSelf : Z := 0x80.
Definition MaxRune : Z := 0x10FFFF.
Definition UTFMax : Z := 4.

Definition surrogateMin : Z := 0xD800.
Definition surrogateMax : Z := 0xDFFF.

Definition t2 : Z := 0xC0.
Definition t3 : Z := 0xE0.
Definition t4 : Z := 0xF0.
Definition tx : Z := 0x80.
Definition maskx : Z := 0x3F.
Definition mask2 : Z := 0x1F.
Definition mask3 : Z := 0x0F.
Definition mask4 : Z := 0x07.
Definition rune1Max : Z := 0x7F.
Definition rune2Max : Z := 0x7FF.
Definition rune3Max : Z := 0xFFFF.
Definition locb : Z := 0x80.
Definition hicb : Z := 0xBF.

(** Entries of the [first] table: information about the first byte of an
    encoding. *)
Definition xx : Z := 0xF1. (* invalid: size 1 *)
Definition as_ : Z := 0xF0. (* ASCII: size 1 *)
Definition s1 : Z := 0x02. (* accept 0, size 2 *)
Definition s2 : Z := 0x13. (* accept 1, size 3 *)
Definition s3 : Z := 0x03. (* accept 0, size 3 *)
Definition s4 : Z := 0x23. (* accept 2, size 3 *)
Definition s5 : Z := 0x34. (* accept 3, size 4 *)
Definition s6 : Z := 0x04. (* accept 0, size 4 *)
Definition s7 : Z := 0x44. (* accept 4, size 4 *)

(** The 256-entry table [first], row by row. *)
Definition first (b : Z) : Z :=
  if b <? 0x80 then as_        (* 0x00-0x7F *)
  else if b <? 0xC2 then xx    (* 0x80-0xC1 *)
  else if b <? 0xE0 then s1    (* 0xC2-0xDF *)
  else if b =? 0xE0 then s2
  else if b <? 0xED then s3    (* 0xE1-0xEC *)
  else if b =? 0xED then s4
  else if b <? 0xF0 then s3    (* 0xEE-0xEF *)
  else if b =? 0xF0 then s5
  else if b <? 0xF4 then s6    (* 0xF1-0xF3 *)
  else if b =? 0xF4 then s7
  else xx.                     (* 0xF5-0xFF *)

(** [acceptRanges]: the range of valid values for the second byte. *)
Definition acceptRanges (i : Z) : Z * Z :=
  match i with
  | 0 => (locb, hicb)
  | 1 => (0xA0, hicb)
  | 2 => (locb, 0x9F)
  | 3 => (0x90, hicb)
  | 4 => (locb, 0x8F)
  | _ => (0, 0)
  end.

(** [RuneStart(b)]: [b] is not a continuation byte. *)
Definition RuneStart (b : Z) : bool := negb (Z.land b 0xC0 =? 0x80).

(** [DecodeRuneInString(s)]: the first rune of [s] and its width in bytes;
    [(RuneError, 0)] on the empty string, [(RuneError, 1)] on an invalid
    encoding. *)
Definition DecodeRuneInString (s : list Z) : Z * Z :=
  let n := Z.of_nat (length s) in
  if n <? 1 then (RuneError, 0) else
  let s0 := at_ s 0 in
  let x := first s0 in
  if as_ <=? x then
    ((if x =? xx then RuneError else s0), 1)
  else
    let sz := Z.land x 7 in
    let accept := acceptRanges (Z.shiftr x 4) in
    if n <? sz then (RuneError, 1) else
    let b1 := at_ s 1 in
    if (b1 <? accept.1) || (accept.2 <? b1) then (RuneError, 1) else
    if sz <=? 2 then
      (Z.lor (Z.shiftl (Z.land s0 mask2) 6) (Z.land b1 maskx), 2)
    else
    let b2 := at_ s 2 in
    if (b2 <? locb) || (hicb <? b2) then (RuneError, 1) else
    if sz <=? 3 then
      (Z.lor (Z.lor (Z.shiftl (Z.land s0 mask3) 12)
                    (Z.shiftl (Z.land b1 maskx) 6))
             (Z.land b2 maskx), 3)
    else
    let b3 := at_ s 3 in
    if (b3 <? locb) || (hicb <? b3) then (RuneError, 1) else
    (Z.lor (Z.lor (Z.lor (Z.shiftl (Z.land s0 mask4) 18)
                         (Z.shiftl (Z.land b1 maskx) 12))
                  (Z.shiftl (Z.land b2 maskx) 6))
           (Z.land b3 maskx), 4).

(** The backwards scan of [DecodeLastRuneInString]:
    [for start--; start >= lim; start-- { if RuneStart(s[start]) { break } }],
    entered at the decremented [start]; [fuel] bounds the number of
    iterations, which is at most [UTFMax]. *)
Fixpoint scan_start (fuel : nat) (s : list Z) (lim start : Z) : Z :=
  match fuel with
  | O => start
  | S fuel' =>
      if start <? lim then start
      else if RuneStart (at_ s start) then start
      else scan_start fuel' s lim (start - 1)
  end.

(** [DecodeLastRuneInString(s)]: the last rune of [s] and its width. *)
Definition DecodeLastRuneInString (s : list Z) : Z * Z :=
  let end_ := Z.of_nat (length s) in
  if end_ =? 0 then (RuneError, 0) else
  let start := end_ - 1 in
  let r := at_ s start in
  if r <? RuneSelf then (r, 1) else
  let lim := end_ - UTFMax in
  let lim := if lim <? 0 then 0 else lim in
  let start := scan_start (Z.to_nat UTFMax) s lim (start - 1) in
  let start := if start <? 0 then 0 else start in
  let '(r, size) := DecodeRuneInString (slice start end_ s) in
  if negb (start + size =? end_) then (RuneError, 1) else (r, size).

(** [AppendRune(nil, r)]: the UTF-8 encoding of [r]; runes out of range and
    surrogates are encoded as [RuneError].  [uint32(r)] is [r mod 2^32]. *)
Definition EncodeRune (r : Z) : list Z :=
  let byte x := x mod 256 in
  let i := r mod 2 ^ 32 in
  if i <=? rune1Max then [byte r]
  else if i <=? rune2Max then
    [Z.lor t2 (byte (Z.shiftr r 6)); Z.lor tx (Z.land (byte r) maskx)]
  else
    let three r :=
      [Z.lor t3 (byte (Z.shiftr r 12));
       Z.lor tx (Z.land (byte (Z.shiftr r 6)) maskx);
       Z.lor tx (Z.land (byte r) maskx)] in
    if (MaxRune <? i) || ((surrogateMin <=? i) && (i <=? surrogateMax))
    then three RuneError
    else if i <=? rune3Max then three r
    else
      [Z.lor t4 (byte (Z.shiftr r 18));
       Z.lor tx (Z.land (byte (Z.shiftr r 12)) maskx);
       Z.lor tx (Z.land (byte (Z.shiftr r 6)) maskx);
       Z.lor tx (Z.land (byte r) maskx)].

(** [for _, c := range s]: the runes of [s] in order, an invalid byte read
    as [RuneError] of width 1.  Every step consumes at least one byte, so
    [length s] steps of fuel are enough. *)
Fixpoint range_fuel (fuel : nat) (s : list Z) : list Z :=
  match fuel with
  | O => []
  | S fuel' =>
      match s with
      | [] => []
      | _ :: _ =>
          let '(c, width) := DecodeRuneInString s in
          c :: range_fuel fuel' (slice_from width s)
      end
  end.

Definition range (s : list Z) : list Z := range_fuel (length s) s.

End utf8.

(* ================================================================= *)
(** ** Package [unicode] *)

(** The case tables of Go's [unicode] package ([CaseRanges] in
    [unicode/tables.go]) are not reproduced: [To_UpperCase r] stands for
    [unicode.To(unicode.UpperCase, r)], which [unicode.ToUpper] consults for
    the runes above [MaxASCII] only.  Every definition and theorem below
    holds for whatever table is supplied. *)
Class CaseTables := { To_UpperCase : Z -> Z }.

Module unicode.

Definition MaxASCII : Z := 0x7F.
Definition MaxLatin1 : Z := 0xFF.

(** The code points of the [White_Space] range table above Latin-1. *)
Definition White_Space_excluding_Latin (r : Z) : bool :=
  (r =? 0x1680) || ((0x2000 <=? r) && (r <=? 0x200A)) ||
  (r =? 0x2028) || (r =? 0x2029) || (r =? 0x202F) || (r =? 0x205F) ||
  (r =? 0x3000).

(** [IsSpace(r)]: in Latin-1 the space characters are
    ['\t', '\n', '\v', '\f', '\r', ' ', U+0085 (NEL), U+00A0 (NBSP)];
    other runes are looked up in [White_Space]. *)
Definition IsSpace (r : Z) : bool :=
  if r mod 2 ^ 32 <=? MaxLatin1 then
    (r =? 9) || (r =? 10) || (r =? 11) || (r =? 12) || (r =? 13) ||
    (r =? 32) || (r =? 0x85) || (r =? 0xA0)
  else White_Space_excluding_Latin r.

(** [ToUpper(r)] *)
Definition ToUpper `{CaseTables} (r : Z) : Z :=
  if r <=? MaxASCII then
    if (97 <=? r) && (r <=? 122) then r - (97 - 65) else r
  else To_UpperCase r.

End unicode.

(* ================================================================= *)
(** ** Package [strings] *)

Module gostrings.

(** [asciiSpace]: ['\t', '\n', '\v', '\f', '\r', ' ']. *)
Definition asciiSpace (c : Z) : bool :=
  (c =? 9) || (c =? 10) || (c =? 11) || (c =? 12) || (c =? 13) || (c =? 32).

(** [indexFunc(s, f, false)] as the number of bytes to skip: the offset of
    the first rune that does not satisfy [f], or [None] for Go's [-1]. *)
Fixpoint indexFunc_false (fuel : nat) (f : Z -> bool) (s : list Z) (i : Z)
  : option Z :=
  match fuel with
  | O => None
  | S fuel' =>
      match s with
      | [] => None
      | _ :: _ =>
          let '(r, width) := utf8.DecodeRuneInString s in
          if negb (f r) then Some i
          else indexFunc_false fuel' f (slice_from width s) (i + width)
      end
  end.

(** [lastIndexFunc(s, f, false)]: the offset of the last rune that does not
    satisfy [f], scanning from the end; [-1] when there is none. *)
Fixpoint lastIndexFunc_false (fuel : nat) (f : Z -> bool) (s : list Z) (i : Z)
  : Z :=
  match fuel with
  | O => -1
  | S fuel' =>
      if 0 <? i then
        let '(r, size) := utf8.DecodeLastRuneInString (slice_to i s) in
        let i := i - size in
        if negb (f r) then i else lastIndexFunc_false fuel' f s i
      else -1
  end.

Definition TrimLeftFunc (f : Z -> bool) (s : list Z) : list Z :=
  match indexFunc_false (length s) f s 0 with
  | None => []
  | Some i => slice_from i s
  end.

Definition TrimRightFunc (f : Z -> bool) (s : list Z) : list Z :=
  let i := lastIndexFunc_false (length s) f s (Z.of_nat (length s)) in
  let i :=
    if (0 <=? i) && (utf8.RuneSelf <=? at_ s i) then
      let '(_, wid) := utf8.DecodeRuneInString (slice_from i s) in i + wid
    else i + 1 in
  slice_to i s.

Definition TrimFunc (f : Z -> bool) (s : list Z) : list Z :=
  TrimRightFunc f (TrimLeftFunc f s).

(** The second loop of [TrimSpace], on the bytes of [s[start:]] in reverse:
    trailing ASCII spaces are dropped; a byte [>= RuneSelf] hands what is
    left to [TrimRightFunc]. *)
Fixpoint TrimSpace_stop (rs : list Z) : list Z :=
  match rs with
  | [] => []
  | c :: rs' =>
      if utf8.RuneSelf <=? c then TrimRightFunc unicode.IsSpace (rev rs)
      else if asciiSpace c then TrimSpace_stop rs'
      else rev rs
  end.

(** The first loop of [TrimSpace]: leading ASCII spaces are dropped; a byte
    [>= RuneSelf] hands the rest to [TrimFunc]. *)
Fixpoint TrimSpace_start (s : list Z) : list Z :=
  match s with
  | [] => TrimSpace_stop []
  | c :: s' =>
      if utf8.RuneSelf <=? c then TrimFunc unicode.IsSpace s
      else if asciiSpace c then TrimSpace_start s'
      else TrimSpace_stop (rev s)
  end.

(** [TrimSpace(s)]: [s] without leading and trailing white space, as
    defined by Unicode. *)
Definition TrimSpace (s : string) : string := of_bytes (TrimSpace_start (bytes s)).

(** [Map(mapping, s)]: every rune of [s] replaced by its image, a negative
    image dropped. *)
Definition Map (mapping : Z -> Z) (s : list Z) : list Z :=
  mjoin ((fun c => let r := mapping c in
                   if 0 <=? r then utf8.EncodeRune r else [])
         <$> utf8.range s).

Definition upper_byte (c : Z) : Z :=
  if (97 <=? c) && (c <=? 122) then c - (97 - 65) else c.

(** [ToUpper(s)]: the ASCII-only string is mapped byte by byte, any other
    through [Map(unicode.ToUpper, s)]. *)
Definition ToUpper `{CaseTables} (s : string) : string :=
  let b := bytes s in
  let isASCII := forallb (fun c => c <? utf8.RuneSelf) b in
  let hasLower := existsb (fun c => (97 <=? c) && (c <=? 122)) b in
  if isASCII then
    if negb hasLower then s else of_bytes (upper_byte <$> b)
  else of_bytes (Map unicode.ToUpper b).

(** [HasPrefix(s, prefix)] *)
Definition HasPrefix (s prefix : string) : bool := String.prefix prefix s.

(** [Join(elems, sep)] *)
Fixpoint Join (elems : list string) (sep : string) : string :=
  match elems with
  | [] => ""
  | [e] => e
  | e :: rest => e +:+ sep +:+ Join rest sep
  end.

End gostrings.

(** [fmt.Sprintf("%d", n)] for an unsigned integer. *)
Definition fmt_d (n : N) : string := NilZero.string_of_uint (N.to_uint n).

(* ================================================================= *)
(** ** [ParseOrder] *)

Definition ascending : string := "ASC".
Definition descending : string := "DESC".

(** [ParseOrder] accepts an order string and returns a valid mysql ORDER
    clause.  Defaults to "ASC".  Two possible outputs: "ASC" and "DESC". *)
Definition ParseOrder `{CaseTables} (order : string) : string :=
  let order := gostrings.TrimSpace order in
  if (4 <=? len order) &&
     gostrings.HasPrefix (gostrings.ToUpper order) descending
  then descending
  else ascending.

(* ================================================================= *)
(** ** Go values: [interface{}], [reflect.Kind], [error], [sql.Result] *)

Module reflect.

(** [reflect.Kind] *)
Inductive Kind : Set :=
| Invalid | Bool | Int | Int8 | Int16 | Int32 | Int64
| Uint | Uint8 | Uint16 | Uint32 | Uint64 | Uintptr
| Float32 | Float64 | Complex64 | Complex128
| Array | Chan | Func | Interface | Map | Pointer | Slice
| String | Struct | UnsafePointer.

Definition Kind_eqb (a b : Kind) : bool :=
  match a, b with
  | Invalid, Invalid | Bool, Bool | Int, Int | Int8, Int8 | Int16, Int16
  | Int32, Int32 | Int64, Int64 | Uint, Uint | Uint8, Uint8
  | Uint16, Uint16 | Uint32, Uint32 | Uint64, Uint64 | Uintptr, Uintptr
  | Float32, Float32 | Float64, Float64 | Complex64, Complex64
  | Complex128, Complex128 | Array, Array | Chan, Chan | Func, Func
  | Interface, Interface | Map, Map | Pointer, Pointer | Slice, Slice
  | String, String | Struct, Struct | UnsafePointer, UnsafePointer => true
  | _, _ => false
  end.

Global Instance Kind_eq_dec : EqDecision Kind.
Proof. solve_decision. Defined.

End reflect.

(** A value of type [interface{}], by its dynamic type.  The type switch of
    [PartialUpdate] tells the types [string], [int] and [bool] apart; the
    methods themselves pass an [int64] id.  A value of any other dynamic
    type ([float64], [[]byte], [time.Time], a defined type such as
    [json.Number] or [type ID int], ...) is kept opaque but for the kind of
    its type: no case of the type switch matches it. *)
Inductive any : Type :=
| VNil                  (* the nil interface value *)
| VString (s : string)
| VInt (n : Z)
| VInt64 (n : Z)
| VBool (b : bool)
| VOther (kind : reflect.Kind) (tag : nat).

Global Instance any_eq_dec : EqDecision any.
Proof. solve_decision. Defined.


(** Go's [error] values that the file tells apart, and every other one. *)
Inductive error : Type :=
| ErrNoRows                 (* [sql.ErrNoRows] *)
| ErrUnprocessable          (* [errors.New("invalid entity")] *)
| ErrOther (msg : string).

Global Instance error_eq_dec : EqDecision error.
Proof. solve_decision. Defined.

(** [sql.Result]; a nil result is [None] at its uses. *)
Record Result : Type := {
  LastInsertId : Z * option error;
  RowsAffected : Z * option error
}.

(** Go's [int] on the 64-bit targets; [int(n)] of an [int64] keeps the low
    [intSize] bits, read as a signed number. *)
Definition intSize : Z := 64.
Definition to_int (n : Z) : Z :=
  (n + 2 ^ (intSize - 1)) mod 2 ^ intSize - 2 ^ (intSize - 1).

Definition is_int64 (n : Z) : Prop := - 2 ^ 63 <= n < 2 ^ 63.

(* ================================================================= *)
(** ** The collaborators: record descriptor and database handle *)

(** The [Record] interface ([TableName], [PrimaryKey]) together with the
    optional [Sorted] interface: [SortBy] is [Some c] when the record
    implements [Sorted] and its [SortBy()] returns [c]. *)
Record RecordInfo : Type := {
  TableName : string;
  PrimaryKey : string;
  SortBy : option string
}.

(** The destinations handed to the handle: [Count] passes a pointer to its
    [int64] result, every other method the caller's destination, whose
    contents have type [D]. *)
Inductive dest_type : Set := PtrInt64 | PtrCaller.

Definition pointee (D : Type) (t : dest_type) : Type :=
  match t with PtrInt64 => Z | PtrCaller => D end.

(** The [Database] interface.  A handle has a state of type [S] (the
    connection, the stored rows); a call takes the contents of the
    destination, the statement and its positional arguments, and returns
    the new contents of the destination and the error (or, for [Exec], the
    result and the error).  The [context.Context] argument only carries
    cancellation to the handle and is left out. *)
Record Database (S D : Type) : Type := {
  Select : forall t : dest_type,
      pointee D t -> string -> list any -> S -> pointee D t * option error * S;
  Get : forall t : dest_type,
      pointee D t -> string -> list any -> S -> pointee D t * option error * S;
  Exec : string -> list any -> S -> option Result * option error * S
}.
Arguments Select {S D} _ _ _ _ _ _.
Arguments Get {S D} _ _ _ _ _ _.
Arguments Exec {S D} _ _ _ _.

(** A call received by the handle. *)
Inductive call : Type :=
| CallSelect (q : string) (args : list any)
| CallGet (q : string) (args : list any)
| CallExec (q : string) (args : list any).

(** The world a method runs in: the state of the handle and the calls the
    handle has received so far, oldest first. *)
Record world (S : Type) : Type := {
  handle : S;
  calls : list call
}.
Arguments handle {S} _.
Arguments calls {S} _.

(** [for k, v := range m] visits every entry of the map once, in an order
    the runtime chooses: [iter] is such an order. *)
Definition range_order {A} (m : gmap string A) (iter : list (string * A)) : Prop :=
  iter ≡ₚ map_to_list m.

(* ================================================================= *)
(** ** [ListOptions] *)

(** [ListOptions] holds the options to be passed on the [List] method. *)
Record ListOptions : Type := {
  Table : string;          (* the table name. *)
  Offset : N;              (* uint64, inclusive. *)
  Limit : N;               (* uint64 *)
  OrderByColumn : string;
  Order : string;          (* "ASC" or "DESC" *)
  WhereColumn : string;
  WhereValue : any
}.

Definition set_Table (opt : ListOptions) (v : string) : ListOptions :=
  {| Table := v; Offset := Offset opt; Limit := Limit opt;
     OrderByColumn := OrderByColumn opt; Order := Order opt;
     WhereColumn := WhereColumn opt; WhereValue := WhereValue opt |}.

Definition set_OrderByColumn (opt : ListOptions) (v : string) : ListOptions :=
  {| Table := Table opt; Offset := Offset opt; Limit := Limit opt;
     OrderByColumn := v; Order := Order opt;
     WhereColumn := WhereColumn opt; WhereValue := WhereValue opt |}.

(** [Where] accepts a column name and column value to set on the WHERE
    clause of the result query.  It returns a new [ListOptions] value. *)
Definition Where (opt : ListOptions) (colName : string) (colValue : any)
  : ListOptions :=
  {| Table := Table opt; Offset := Offset opt; Limit := Limit opt;
     OrderByColumn := OrderByColumn opt; Order := Order opt;
     WhereColumn := colName; WhereValue := colValue |}.

(** [s != ""] *)
Definition nonempty (s : string) : bool := negb (String.eqb s "").

(** [v != nil] *)
Definition not_nil (v : any) : bool :=
  match v with VNil => false | _ => true end.

(** [BuildQuery] returns the query and the arguments that should form a
    SELECT command. *)
Definition BuildQuery `{CaseTables} (opt : ListOptions) : string * list any :=
  let q := "SELECT * FROM " +:+ Table opt in
  let args : list any := [] in
  let '(q, args) :=
    if nonempty (WhereColumn opt) && not_nil (WhereValue opt) then
      (q +:+ (" WHERE " +:+ WhereColumn opt +:+ " = ?"),
       args ++ [WhereValue opt])
    else (q, args) in
  let q :=
    if nonempty (OrderByColumn opt) then
      q +:+ (" ORDER BY " +:+ OrderByColumn opt +:+ " " +:+ ParseOrder (Order opt))
    else q in
  let q :=
    if (0 <? Limit opt)%N then q +:+ (" LIMIT " +:+ fmt_d (Limit opt)) else q in
  let q :=
    if (0 <? Offset opt)%N then q +:+ (" OFFSET " +:+ fmt_d (Offset opt)) else q in
  (q, args).

(** [GetAffectedRows] returns the number of affected rows after a DELETE or
    UPDATE operation. *)
Definition GetAffectedRows (result : option Result) : Z :=
  match result with
  | None => 0
  | Some res => let '(n, _) := RowsAffected res in to_int n
  end.

(* ================================================================= *)
(** ** Packages [strconv] and [net/url] *)

Module strconv.

(** The [Err] field of a [*NumError]: [ErrSyntax] or [ErrRange]. *)
Inductive NumError : Set := ErrSyntax | ErrRange.

Definition base : N := 10.
Definition maxUint64 : N := 18446744073709551615.
Definition wrap64 (n : N) : N := (n mod 18446744073709551616)%N.

(** [cutoff] is the smallest number such that [cutoff*base > maxUint64]. *)
Definition cutoff : N := (maxUint64 / 10 + 1)%N.

(** [maxVal := uint64(1)<<uint(bitSize) - 1] for [bitSize = 64]. *)
Definition maxVal : N := maxUint64.

(** [lower(c)]: [c | ('x' - 'X')]. *)
Definition lower (c : Z) : Z := Z.lor c 0x20.

(** The loop of [ParseUint(s, 10, 64)] over the bytes of [s], [n] being the
    number read so far.  The arithmetic is that of [uint64]. *)
Fixpoint ParseUint_loop (s : list Z) (n : N) : N * option NumError :=
  match s with
  | [] => (n, None)
  | c :: s' =>
      let digit : option N :=
        if (48 <=? c) && (c <=? 57) then Some (Z.to_N (c - 48))
        else if (97 <=? lower c) && (lower c <=? 122)
             then Some (Z.to_N (lower c - 97 + 10))
        else None in
      match digit with
      | None => (0%N, Some ErrSyntax)
      | Some d =>
          if (base <=? d)%N then (0%N, Some ErrSyntax)
          else if (cutoff <=? n)%N then (maxVal, Some ErrRange)
          else
            let n := wrap64 (n * base) in
            let n1 := wrap64 (n + d) in
            if (n1 <? n)%N || (maxVal <? n1)%N then (maxVal, Some ErrRange)
            else ParseUint_loop s' n1
      end
  end.

(** [ParseUint(s, 10, 64)]: base 10, so no prefix and no underscore is
    accepted. *)
Definition ParseUint (s : string) : N * option NumError :=
  if String.eqb s "" then (0%N, Some ErrSyntax)
  else ParseUint_loop (bytes s) 0.

End strconv.

Module url.

(** [Values.Get(key)]: the first value associated with the key, or the
    empty string when there is none. *)
Definition Get (v : gmap string (list string)) (key : string) : string :=
  match v !! key with
  | Some (x :: _) => x
  | _ => ""
  end.

End url.

(** [ParseListOptions] returns a [ListOptions] from a
    [map[string][]string]. *)
Definition ParseListOptions (q : gmap string (list string)) : ListOptions :=
  let offset := (strconv.ParseUint (url.Get q "offset")).1 in
  let limit := (strconv.ParseUint (url.Get q "limit")).1 in
  let order := url.Get q "order" in
  let orderBy := url.Get q "by" in
  {| Table := ""; Offset := offset; Limit := limit; OrderByColumn := orderBy;
     Order := order; WhereColumn := ""; WhereValue := VNil |}.

(* ================================================================= *)
(** ** [Repository] *)

Section Repository.

Context {S D : Type} `{CaseTables}.

(** [Repository]: holder for common queries. *)
Record Repository : Type := {
  db : Database S D;
  rec : RecordInfo
}.

(** The three calls on the handle: the handle answers from its state, and
    the call is appended to the log. *)
Definition db_Select (r : Repository) (t : dest_type) (dest : pointee D t)
    (q : string) (args : list any) (w : world S)
  : pointee D t * option error * world S :=
  let '(dest, err, h) := Select (db r) t dest q args (handle w) in
  (dest, err, {| handle := h; calls := calls w ++ [CallSelect q args] |}).

Definition db_Get (r : Repository) (t : dest_type) (dest : pointee D t)
    (q : string) (args : list any) (w : world S)
  : pointee D t * option error * world S :=
  let '(dest, err, h) := Get (db r) t dest q args (handle w) in
  (dest, err, {| handle := h; calls := calls w ++ [CallGet q args] |}).

Definition db_Exec (r : Repository) (q : string) (args : list any) (w : world S)
  : option Result * option error * world S :=
  let '(res, err, h) := Exec (db r) q args (handle w) in
  (res, err, {| handle := h; calls := calls w ++ [CallExec q args] |}).

(** [Count] returns the total records count in the table. *)
Definition Count (r : Repository) (w : world S) : Z * option error * world S :=
  let total : Z := 0 in
  let q := "SELECT COUNT(DISTINCT " +:+ PrimaryKey (rec r) +:+ ") FROM "
           +:+ TableName (rec r) in
  let '(total, err, w) := db_Select r PtrInt64 total q [] w in
  let err := if decide (err = Some ErrNoRows) then None else err in
  (total, err, w).

(** [GetByID] binds a single record from the databases to the [dest]. *)
Definition GetByID (r : Repository) (dest : D) (id : Z) (w : world S)
  : D * option error * world S :=
  let q := "SELECT * FROM " +:+ TableName (rec r) +:+ " WHERE "
           +:+ PrimaryKey (rec r) +:+ " = ? LIMIT 1" in
  db_Get r PtrCaller dest q [VInt64 id] w.

(** The loop of [GetByAttrs] over the entries in iteration order. *)
Fixpoint GetByAttrs_loop (iter : list (string * any))
    (keyLines : list string) (values : list any) : list string * list any :=
  match iter with
  | [] => (keyLines, values)
  | (k, v) :: iter' =>
      GetByAttrs_loop iter' (keyLines ++ [k +:+ " = ?"]) (values ++ [v])
  end.

Definition GetByAttrs (r : Repository) (dest : D) (attrs : gmap string any)
    (iter : list (string * any)) (w : world S) : D * option error * world S :=
  if Nat.eqb (size attrs) 0 then (dest, None, w) else
  let '(keyLines, values) := GetByAttrs_loop iter [] [] in
  if Nat.eqb (length values) 0 then (dest, None, w) else
  let q := "SELECT * FROM " +:+ TableName (rec r) +:+ " WHERE "
           +:+ gostrings.Join keyLines ", " +:+ ";" in
  let '(dest, err, w) := db_Get r PtrCaller dest q values w in
  match err with
  | Some e => (dest, Some e, w)
  | None => (dest, None, w)
  end.

Definition GetAll (r : Repository) (dest : D) (w : world S)
  : D * option error * world S :=
  let q := "SELECT * FROM " +:+ TableName (rec r) in
  db_Get r PtrCaller dest q [] w.

(** [DeleteByID] removes a single record of [dest] from the database. *)
Definition DeleteByID (r : Repository) (id : Z) (w : world S)
  : Z * option error * world S :=
  let q := "DELETE FROM " +:+ TableName (rec r) +:+ " WHERE "
           +:+ PrimaryKey (rec r) +:+ " = ? LIMIT 1" in
  let '(res, err, w) := db_Exec r q [VInt64 id] w in
  match err with
  | Some e => (0, Some e, w)
  | None => (GetAffectedRows res, None, w)
  end.

(** [List] binds one or more records from the database to the [dest]. *)
Definition List (r : Repository) (dest : D) (opts : ListOptions) (w : world S)
  : D * option error * world S :=
  let opts :=
    if String.eqb (Table opts) "" then set_Table opts (TableName (rec r))
    else opts in
  let opts :=
    if String.eqb (OrderByColumn opts) "" then
      match SortBy (rec r) with
      | Some b => set_OrderByColumn opts b
      | None => opts
      end
    else opts in
  let '(q, args) := BuildQuery opts in
  db_Select r PtrCaller dest q args w.

(** The loop of [PartialUpdate] over the schema in iteration order: [inl]
    is the early return, [inr] the lines and values collected. *)
Fixpoint PartialUpdate_loop (iter : list (string * reflect.Kind))
    (attrs : gmap string any) (keyLines : list string) (values : list any)
  : (Z * option error) + (list string * list any) :=
  match iter with
  | [] => inr (keyLines, values)
  | (key, kind) :: iter' =>
      match attrs !! key with
      | None => PartialUpdate_loop iter' attrs keyLines values
      | Some v =>
          let rejected :=
            match v with
            | VString _ => negb (reflect.Kind_eqb kind reflect.String)
            | VInt _ => negb (reflect.Kind_eqb kind reflect.Int)
            | VBool _ => negb (reflect.Kind_eqb kind reflect.Bool)
            | _ => false
            end in
          if rejected then inl (0, Some ErrUnprocessable)
          else PartialUpdate_loop iter' attrs
                 (keyLines ++ [key +:+ " = ?"]) (values ++ [v])
      end
  end.

(** [PartialUpdate] accepts a columns schema and a key-value map to update
    the record based on the given [id].  Trivial string, int and boolean
    type validations are performed here. *)
Definition PartialUpdate (r : Repository) (id : Z)
    (schema : gmap string reflect.Kind) (iter : list (string * reflect.Kind))
    (attrs : gmap string any) (w : world S) : Z * option error * world S :=
  if Nat.eqb (size schema) 0 || Nat.eqb (size attrs) 0
  then (0, None, w) else
  match PartialUpdate_loop iter attrs [] [] with
  | inl (n, err) => (n, err, w)
  | inr (keyLines, values) =>
      if Nat.eqb (length values) 0 then (0, None, w) else
      let q := "UPDATE " +:+ TableName (rec r) +:+ " SET "
               +:+ gostrings.Join keyLines ", " +:+ " WHERE "
               +:+ PrimaryKey (rec r) +:+ " = ?;" in
      let '(res, err, w) := db_Exec r q (values ++ [VInt64 id]) w in
      match err with
      | Some e => (0, Some e, w)
      | None => let n := GetAffectedRows res in (n, None, w)
      end
  end.

End Repository.

Arguments Repository : clear implicits.

(* ================================================================= *)
(** ** Sample collaborators *)

(** A record descriptor with a default sort column, and one without. *)
Definition users : RecordInfo :=
  {| TableName := "users"; PrimaryKey := "id"; SortBy := Some "name" |}.

Definition logs : RecordInfo :=
  {| TableName := "logs"; PrimaryKey := "id"; SortBy := None |}.

Definition affected (n : Z) : Result :=
  {| LastInsertId := (0, None); RowsAffected := (n, None) |}.

(** A handle on an empty table: a query finds no rows and binds nothing, a
    statement affects no row.  Its state counts the calls it served. *)
Definition empty_table : Database nat unit :=
  {| Select := fun t dest q args h => (dest, Some ErrNoRows, Datatypes.S h);
     Get := fun t dest q args h => (dest, Some ErrNoRows, Datatypes.S h);
     Exec := fun q args h => (Some (affected 0), None, Datatypes.S h) |}.

(** A fragment of Go's upper-case table: U+00E9 (e acute) maps to U+00C9
    and U+017F (long s) to the letter S; other runes are left alone. *)
Definition latin_fragment : CaseTables :=
  {| To_UpperCase := fun r =>
       if r =? 0xE9 then 0xC9 else if r =? 0x17F then 0x53 else r |}.

(** A handle on which every statement affects one row. *)
Definition one_row : Database nat unit :=
  {| Select := fun t dest q args h => (dest, None, Datatypes.S h);
     Get := fun t dest q args h => (dest, None, Datatypes.S h);
     Exec := fun q args h => (Some (affected 1), None, Datatypes.S h) |}.

Definition fresh : world nat := {| handle := O; calls := [] |}.

(** A handle that writes 5 to an [int64] destination and then reports
    "no rows". *)
Definition writes_then_no_rows : Database nat unit :=
  {| Select := fun t =>
       match t return pointee unit t -> string -> list any -> nat ->
                      pointee unit t * option error * nat with
       | PtrInt64 => fun _ q args h => (5, Some ErrNoRows, Datatypes.S h)
       | PtrCaller => fun dest q args h => (dest, Some ErrNoRows, Datatypes.S h)
       end;
     Get := fun t dest q args h => (dest, Some ErrNoRows, Datatypes.S h);
     Exec := fun q args h => (None, Some ErrNoRows, Datatypes.S h) |}.

(** A schema that declares an integer column, and attributes that give it
    a value of a defined type whose kind is String (as [json.Number]). *)
Definition age_schema : gmap string reflect.Kind := {[ "age" := reflect.Int ]}.
Definition age_is_number : gmap string any :=
  {[ "age" := VOther reflect.String 0 ]}.

(** An attribute map with two entries. *)
Definition two_attrs : gmap string any := {[ "a" := VInt 1; "b" := VInt 2 ]}.

(** The schema and the attributes of the specification's example: a string
    column that is given an integer. *)
Definition name_schema : gmap string reflect.Kind := {[ "name" := reflect.String ]}.
Definition name_is_5 : gmap string any := {[ "name" := VInt 5 ]}.

(* ================================================================= *)
(** ** The vocabulary of the specification *)

(** The kind of a value whose dynamic type is one of the predeclared types
    [string], [int], [int64] and [bool]: the values whose type the model
    tells apart. *)
Definition kind_of (v : any) : option reflect.Kind :=
  match v with
  | VString _ => Some reflect.String
  | VInt _ => Some reflect.Int
  | VInt64 _ => Some reflect.Int64
  | VBool _ => Some reflect.Bool
  | VNil | VOther _ _ => None
  end.

(** The runtime kind of a value, [reflect.TypeOf(v).Kind()]: that of its
    dynamic type, whether predeclared or defined; the nil interface has no
    type. *)
Definition runtime_kind (v : any) : option reflect.Kind :=
  match v with
  | VOther kind _ => Some kind
  | _ => kind_of v
  end.

(** The kinds that [PartialUpdate] validates. *)
Definition validated_kind (k : reflect.Kind) : Prop :=
  k = reflect.String \/ k = reflect.Int \/ k = reflect.Bool.

(** The WHERE clause the specification describes for [GetByAttrs]: one
    equality test per entry, joined by AND. *)
Definition conjunction (iter : list (string * any)) : string :=
  gostrings.Join ((fun kv => kv.1 +:+ " = ?") <$> iter) " AND ".

(** The type switch of [PartialUpdate]: the value is a [string], an [int]
    or a [bool] and the schema declares another kind. *)
Definition type_switch_rejects (v : any) (kind : reflect.Kind) : bool :=
  match v with
  | VString _ => negb (reflect.Kind_eqb kind reflect.String)
  | VInt _ => negb (reflect.Kind_eqb kind reflect.Int)
  | VBool _ => negb (reflect.Kind_eqb kind reflect.Bool)
  | _ => false
  end.

(** The statements of the methods. *)
Definition Count_query (rec : RecordInfo) : string :=
  "SELECT COUNT(DISTINCT " +:+ PrimaryKey rec +:+ ") FROM " +:+ TableName rec.

Definition DeleteByID_query (rec : RecordInfo) : string :=
  "DELETE FROM " +:+ TableName rec +:+ " WHERE " +:+ PrimaryKey rec
  +:+ " = ? LIMIT 1".

(** The world after the handle has served one more call. *)
Definition served {S : Type} (w : world S) (h : S) (c : call) : world S :=
  {| handle := h; calls := calls w ++ [c] |}.

(** The options [List] hands to [BuildQuery], as the specification states
    them: the table and the order column resolved, the rest unchanged. *)
Definition resolved (rec : RecordInfo) (opts : ListOptions) : ListOptions :=
  {| Table := if decide (Table opts = "") then TableName rec else Table opts;
     Offset := Offset opts;
     Limit := Limit opts;
     OrderByColumn :=
       if decide (OrderByColumn opts = "") then
         match SortBy rec with Some c => c | None => OrderByColumn opts end
       else OrderByColumn opts;
     Order := Order opts;
     WhereColumn := WhereColumn opts;
     WhereValue := WhereValue opts |}.

(* ================================================================= *)
(** ** The clauses of a SELECT statement, as the specification lists them *)

(** "Case-insensitive prefix match": [s] starts with [p] once both are
    mapped to upper case. *)
Definition starts_with_ignoring_case `{CaseTables} (p s : string) : Prop :=
  exists rest, gostrings.ToUpper s = gostrings.ToUpper p +:+ rest.

(** Strings of ASCII bytes, and for them what trimming and ignoring case
    come to: the ASCII spaces dropped at both ends, and a letter compared
    with its upper-case form. *)
Definition ascii_only (s : string) : Prop :=
  Forall (fun c => c < utf8.RuneSelf) (bytes s).

Fixpoint drop_spaces (l : list Z) : list Z :=
  match l with
  | [] => []
  | c :: l' => if gostrings.asciiSpace c then drop_spaces l' else l
  end.

Definition trim_ascii (l : list Z) : list Z :=
  rev (drop_spaces (rev (drop_spaces l))).

Definition letter (upper c : Z) : Prop := c = upper \/ c = upper + 32.

(** The filter is set when there is a column and a value. *)
Definition filter_set (opt : ListOptions) : Prop :=
  WhereColumn opt <> "" /\ WhereValue opt <> VNil.

Global Instance filter_set_dec opt : Decision (filter_set opt).
Proof. unfold filter_set. apply _. Defined.

Definition table_clause (opt : ListOptions) : string :=
  "SELECT * FROM " +:+ Table opt.

Definition filter_clause (opt : ListOptions) : string :=
  if decide (filter_set opt) then " WHERE " +:+ WhereColumn opt +:+ " = ?"
  else "".

Definition filter_args (opt : ListOptions) : list any :=
  if decide (filter_set opt) then [WhereValue opt] else [].

Definition order_clause `{CaseTables} (opt : ListOptions) : string :=
  if decide (OrderByColumn opt = "") then ""
  else " ORDER BY " +:+ OrderByColumn opt +:+ " " +:+ ParseOrder (Order opt).

Definition limit_clause (opt : ListOptions) : string :=
  if decide (Limit opt = 0%N) then "" else " LIMIT " +:+ fmt_d (Limit opt).

Definition offset_clause (opt : ListOptions) : string :=
  if decide (Offset opt = 0%N) then "" else " OFFSET " +:+ fmt_d (Offset opt).

(* ================================================================= *)
(** ** Further vocabulary: digits, placeholders, shared columns *)

(** A byte that is a decimal digit, and the number a list of digits
    denotes when read after [acc]. *)
Definition is_digit (c : Z) : Prop := 48 <= c <= 57.

Definition decimal (l : list Z) (acc : N) : N :=
  fold_left (fun n c => (n * 10 + Z.to_N (c - 48))%N) l acc.

(** The number of placeholders [?] in a statement. *)
Fixpoint placeholders (s : string) : nat :=
  match s with
  | EmptyString => O
  | String c s' =>
      ((if Ascii.eqb c "?" then 1 else 0) + placeholders s')%nat
  end.

(** The entries of the attribute map whose key the schema visits, in the
    order of the visit. *)
Fixpoint shared (iter : list (string * reflect.Kind)) (attrs : gmap string any)
  : list (string * any) :=
  match iter with
  | [] => []
  | (key, _) :: iter' =>
      match attrs !! key with
      | Some v => (key, v) :: shared iter' attrs
      | None => shared iter' attrs
      end
  end.

(** The statement of [PartialUpdate] for the given columns. *)
Definition PartialUpdate_query (rec : RecordInfo) (cols : list (string * any))
  : string :=
  "UPDATE " +:+ TableName rec +:+ " SET "
  +:+ gostrings.Join ((fun kv => kv.1 +:+ " = ?") <$> cols) ", "
  +:+ " WHERE " +:+ PrimaryKey rec +:+ " = ?;".

(** The statement of [GetByAttrs] for the given columns. *)
Definition GetByAttrs_query (rec : RecordInfo) (cols : list (string * any))
  : string :=
  "SELECT * FROM " +:+ TableName rec +:+ " WHERE "
  +:+ gostrings.Join ((fun kv => kv.1 +:+ " = ?") <$> cols) ", " +:+ ";".

(** The calls a method added to the log. *)
Definition is_exec (c : call) : bool :=
  match c with CallExec _ _ => true | _ => false end.

(** The statement and the arguments of a call. *)
Definition statement (c : call) : string :=
  match c with CallSelect q _ | CallGet q _ | CallExec q _ => q end.

Definition arguments (c : call) : list any :=
  match c with CallSelect _ a | CallGet _ a | CallExec _ a => a end.

(** What [ParseUint(s, 10, 64)] reads: the leading digits of [s] are taken
    as a decimal number; a number above [maxUint64] gives [maxUint64]; an
    empty string, or a byte that is not a digit met before that, gives 0. *)
Definition is_digitb (c : Z) : bool := (48 <=? c) && (c <=? 57).

Fixpoint leading_digits (l : list Z) : list Z * list Z :=
  match l with
  | [] => ([], [])
  | c :: l' =>
      if is_digitb c then
        let '(ds, rest) := leading_digits l' in (c :: ds, rest)
      else ([], l)
  end.

Definition number_read (s : string) : N :=
  if String.eqb s "" then 0%N else
  let '(ds, rest) := leading_digits (bytes s) in
  if (strconv.maxUint64 <? decimal ds 0)%N then strconv.maxUint64
  else match rest with [] => decimal ds 0 | _ :: _ => 0%N end.

(** The value of a decimal numeral, read after [acc]. *)
Fixpoint uint_decimal (d : Decimal.uint) (acc : N) : N :=
  match d with
  | Decimal.Nil => acc
  | Decimal.D0 l => uint_decimal l (acc * 10 + 0)
  | Decimal.D1 l => uint_decimal l (acc * 10 + 1)
  | Decimal.D2 l => uint_decimal l (acc * 10 + 2)
  | Decimal.D3 l => uint_decimal l (acc * 10 + 3)
  | Decimal.D4 l => uint_decimal l (acc * 10 + 4)
  | Decimal.D5 l => uint_decimal l (acc * 10 + 5)
  | Decimal.D6 l => uint_decimal l (acc * 10 + 6)
  | Decimal.D7 l => uint_decimal l (acc * 10 + 7)
  | Decimal.D8 l => uint_decimal l (acc * 10 + 8)
  | Decimal.D9 l => uint_decimal l (acc * 10 + 9)
  end%N.

(** A call has as many placeholders as arguments. *)
Definition balanced (c : call) : Prop :=
  placeholders (statement c) = length (arguments c).

(** Query parameters that carry the given limit and offset in decimal. *)
Definition paging (limit offset : N) : gmap string (list string) :=
  {[ "limit" := [fmt_d limit]; "offset" := [fmt_d offset] ]}.

(** How a method extends the log: by at most one call, which is a query
    ([Select] or [Get]), or an [Exec] whose last argument is the id. *)
Definition queries_only {S : Type} (w w' : world S) : Prop :=
  exists l, calls w' = calls w ++ l /\ (length l <= 1)%nat /\
            Forall (fun c => is_exec c = false) l.

Definition executes_only {S : Type} (id : Z) (w w' : world S) : Prop :=
  exists l, calls w' = calls w ++ l /\ (length l <= 1)%nat /\
            Forall (fun c => is_exec c = true /\
                             last (arguments c) = Some (VInt64 id)) l.

(* ================================================================= *)
(** ** White space and letters, as the specification means them *)

(** Trimming and ignoring case are stated here without [TrimSpace],
    [ToUpper] or [Map]: on the bytes of the string, from the Unicode
    character properties alone.

    [white_space] lists the UTF-8 encodings of the code points with the
    [White_Space] property: U+0009 to U+000D, U+0020, U+0085, U+00A0,
    U+1680, U+2000 to U+200A, U+2028, U+2029, U+202F, U+205F and U+3000. *)
Definition white_space : list (list Z) :=
  [ [0x09]; [0x0A]; [0x0B]; [0x0C]; [0x0D]; [0x20];
    [0xC2; 0x85]; [0xC2; 0xA0];
    [0xE1; 0x9A; 0x80];
    [0xE2; 0x80; 0x80]; [0xE2; 0x80; 0x81]; [0xE2; 0x80; 0x82];
    [0xE2; 0x80; 0x83]; [0xE2; 0x80; 0x84]; [0xE2; 0x80; 0x85];
    [0xE2; 0x80; 0x86]; [0xE2; 0x80; 0x87]; [0xE2; 0x80; 0x88];
    [0xE2; 0x80; 0x89]; [0xE2; 0x80; 0x8A];
    [0xE2; 0x80; 0xA8]; [0xE2; 0x80; 0xA9];
    [0xE2; 0x80; 0xAF];
    [0xE2; 0x81; 0x9F];
    [0xE3; 0x80; 0x80] ].

Definition White_Space_code_points : list Z :=
  [ 0x09; 0x0A; 0x0B; 0x0C; 0x0D; 0x20; 0x85; 0xA0; 0x1680;
    0x2000; 0x2001; 0x2002; 0x2003; 0x2004; 0x2005; 0x2006; 0x2007; 0x2008;
    0x2009; 0x200A; 0x2028; 0x2029; 0x202F; 0x205F; 0x3000 ].

(** A run of spaces: encodings of the list, one after the other. *)
Inductive spaces : list Z -> Prop :=
| spaces_nil : spaces []
| spaces_cons (e l : list Z) : e ∈ white_space -> spaces l -> spaces (e ++ l).

Definition space_at_start (t : list Z) : Prop :=
  exists e rest, e ∈ white_space /\ t = e ++ rest.

Definition space_at_end (t : list Z) : Prop :=
  exists e front, e ∈ white_space /\ t = front ++ e.

(** [t] is [s] trimmed: [s] is [t] between two runs of spaces, and [t]
    neither starts nor ends with a space. *)
Definition trims (s t : list Z) : Prop :=
  exists l r, s = l ++ t ++ r /\ spaces l /\ spaces r /\
              ~ space_at_start t /\ ~ space_at_end t.

(** The rune [r] is the letter [capital] in either case: the capital
    itself, the small letter, or a rune above ASCII whose upper case in the
    Unicode tables is the capital (U+017F, the long s, for S). *)
Definition same_letter `{CaseTables} (capital r : Z) : Prop :=
  letter capital r \/ (unicode.MaxASCII < r /\ To_UpperCase r = capital).

(** [t] starts, ignoring case, with the capitals: rune after rune of its
    UTF-8 decoding is the same letter. *)
Fixpoint reads `{CaseTables} (capitals : list Z) (t : list Z) : Prop :=
  match capitals with
  | [] => True
  | capital :: capitals' =>
      t <> [] /\
      same_letter capital (utf8.DecodeRuneInString t).1 /\
      reads capitals' (slice_from (utf8.DecodeRuneInString t).2 t)
  end.

(** The upper case of a code point above ASCII is a code point.  Go's
    tables are such ([rune] is [int32], and [unicode.To] maps a code point
    to a code point); the abstract [To_UpperCase] could be anything. *)
Definition code_points `{CaseTables} : Prop :=
  forall r, unicode.MaxASCII < r <= utf8.MaxRune ->
            0 <= To_UpperCase r <= utf8.MaxRune.

(** A sample order string: a space, U+00A0, "dE", U+017F, "c", U+2003 and a
    line feed. *)
Definition padded : string :=
  of_bytes [0x20; 0xC2; 0xA0; 100; 0x45; 0xC5; 0xBF; 99; 0xE2; 0x80; 0x83; 0x0A].

(** *** [DecodeRuneInString] by cases on the first byte *)

(** The decoder's table lookups and bit masks, written out as the cases
    of the first byte: ASCII, invalid, and a lead byte of two, three or four
    bytes with the range accepted for the second byte.
    [DecodeRuneInString_cases] below proves it equal to the decoder. *)
Definition rune2 (s0 b1 : Z) : Z :=
  Z.lor (Z.shiftl (Z.land s0 utf8.mask2) 6) (Z.land b1 utf8.maskx).

Definition rune3 (s0 b1 b2 : Z) : Z :=
  Z.lor (Z.lor (Z.shiftl (Z.land s0 utf8.mask3) 12)
               (Z.shiftl (Z.land b1 utf8.maskx) 6))
        (Z.land b2 utf8.maskx).

Definition rune4 (s0 b1 b2 b3 : Z) : Z :=
  Z.lor (Z.lor (Z.lor (Z.shiftl (Z.land s0 utf8.mask4) 18)
                      (Z.shiftl (Z.land b1 utf8.maskx) 12))
               (Z.shiftl (Z.land b2 utf8.maskx) 6))
        (Z.land b3 utf8.maskx).

Definition accept_lo (s0 : Z) : Z :=
  if s0 =? 0xE0 then 0xA0 else if s0 =? 0xF0 then 0x90 else 0x80.

Definition accept_hi (s0 : Z) : Z :=
  if s0 =? 0xED then 0x9F else if s0 =? 0xF4 then 0x8F else 0xBF.

Definition accepted (s0 b1 : Z) : bool :=
  (accept_lo s0 <=? b1) && (b1 <=? accept_hi s0).

Definition continuation (b : Z) : bool := (0x80 <=? b) && (b <=? 0xBF).

Definition decode_by_cases (s : list Z) : Z * Z :=
  match s with
  | [] => (utf8.RuneError, 0)
  | s0 :: tl =>
      if s0 <? 0x80 then (s0, 1)
      else if (s0 <? 0xC2) || (0xF4 <? s0) then (utf8.RuneError, 1)
      else
        match tl with
        | [] => (utf8.RuneError, 1)
        | b1 :: tl1 =>
            if s0 <? 0xE0 then
              if accepted s0 b1 then (rune2 s0 b1, 2)
              else (utf8.RuneError, 1)
            else
              match tl1 with
              | [] => (utf8.RuneError, 1)
              | b2 :: tl2 =>
                  if s0 <? 0xF0 then
                    if accepted s0 b1 && continuation b2
                    then (rune3 s0 b1 b2, 3) else (utf8.RuneError, 1)
                  else
                    match tl2 with
                    | [] => (utf8.RuneError, 1)
                    | b3 :: _ =>
                        if accepted s0 b1 && continuation b2 && continuation b3
                        then (rune4 s0 b1 b2 b3, 4) else (utf8.RuneError, 1)
                    end
              end
        end
  end.

(** What the decoder may return for the bytes [e]: a code point, and a
    space only when [e] is in the list. *)
Definition decodes (r : Z) (e : list Z) : bool :=
  (0 <=? r) && (r <=? utf8.MaxRune) &&
  (if unicode.IsSpace r then bool_decide (e ∈ white_space) else true).

(** The last step of [TrimRightFunc]: from the start of the last rune kept
    to its end. *)
Definition TrimRightFunc_step (s : list Z) (i : Z) : Z :=
  if (0 <=? i) && (utf8.RuneSelf <=? at_ s i)
  then let '(_, wid) := utf8.DecodeRuneInString (slice_from i s) in i + wid
  else i + 1.

(* ================================================================= *)
(** ** Strings *)

Lemma append_cons (x : ascii) (a b : string) :
  String x a +:+ b = String x (a +:+ b).
Proof. reflexivity. Qed.

Lemma append_assoc (a b c : string) : (a +:+ b) +:+ c = a +:+ (b +:+ c).
Proof.
  induction a as [|x a IH]; [reflexivity|].
  now rewrite !append_cons, IH.
Qed.

Lemma append_empty_r (a : string) : a +:+ "" = a.
Proof.
  induction a as [|x a IH]; [reflexivity|].
  now rewrite append_cons, IH.
Qed.

Lemma prefix_append (p s : string) :
  String.prefix p s = true <-> exists rest, s = p +:+ rest.
Proof.
  revert s; induction p as [|x p IH]; intros s.
  - split; [intros _; exists s; reflexivity | intros _; now destruct s].
  - destruct s as [|y s]; simpl; rewrite ?append_cons.
    + split; [discriminate | intros [rest Hr]; discriminate].
    + setoid_rewrite append_cons. destruct (ascii_dec x y) as [->|Hne].
      * rewrite IH. split; intros [rest Hr]; exists rest; congruence.
      * split; [discriminate | intros [rest Hr]; congruence].
Qed.

Lemma nonempty_true (s : string) : nonempty s = true <-> s <> "".
Proof.
  unfold nonempty. destruct (String.eqb_spec s ""); simpl; split; congruence.
Qed.

Lemma not_nil_true (v : any) : not_nil v = true <-> v <> VNil.
Proof. destruct v; simpl; split; congruence. Qed.

(* ================================================================= *)
(** ** The rune loops have fuel enough *)

(** A decoding step consumes at least one byte, so the loops over the
    runes of a string end within [length s] steps: any larger fuel gives
    the same result. *)

Lemma DecodeRune_width (s : list Z) :
  s <> [] -> 1 <= (utf8.DecodeRuneInString s).2 <= 4.
Proof.
  intros Hs. unfold utf8.DecodeRuneInString.
  destruct s as [|c s]; [congruence|].
  assert (Hn : (Z.of_nat (length (c :: s)) <? 1) = false).
  { apply Z.ltb_ge. simpl length. lia. }
  rewrite Hn.
  repeat match goal with
         | |- context [if ?b then _ else _] => destruct b
         | |- context [let '(_, _) := ?p in _] => destruct p
         end; simpl; lia.
Qed.

Lemma indexFunc_false_enough (f : Z -> bool) (n m : nat) (s : list Z) (i : Z) :
  (length s <= n)%nat -> (length s <= m)%nat ->
  gostrings.indexFunc_false n f s i = gostrings.indexFunc_false m f s i.
Proof.
  revert m s i. induction n as [|n IH]; intros m s i Hn Hm.
  - destruct s; [|simpl in Hn; lia]. now destruct m.
  - destruct m as [|m].
    + destruct s; [reflexivity | simpl in Hm; lia].
    + destruct s as [|c s]; [reflexivity|].
      cbn [gostrings.indexFunc_false].
      pose proof (DecodeRune_width (c :: s) ltac:(congruence)) as Hw.
      destruct (utf8.DecodeRuneInString (c :: s)) as [r width].
      simpl in Hw. destruct (negb (f r)); [reflexivity|].
      apply IH; unfold slice_from; rewrite length_drop; simpl length in *; lia.
Qed.

Lemma scan_start_le (fuel : nat) (s : list Z) (lim start : Z) :
  utf8.scan_start fuel s lim start <= start.
Proof.
  revert start. induction fuel as [|fuel IH]; intros start; simpl; [lia|].
  destruct (start <? lim); [lia|].
  destruct (utf8.RuneStart (at_ s start)); [lia|].
  specialize (IH (start - 1)). lia.
Qed.

Lemma DecodeLastRune_size (s : list Z) :
  s <> [] -> 1 <= (utf8.DecodeLastRuneInString s).2.
Proof.
  intros Hs. unfold utf8.DecodeLastRuneInString.
  assert (Hlen : 1 <= Z.of_nat (length s)).
  { destruct s; [congruence|]. simpl length. lia. }
  destruct (Z.eqb_spec (Z.of_nat (length s)) 0) as [E|E]; [lia|].
  destruct (at_ s (Z.of_nat (length s) - 1) <? utf8.RuneSelf); [simpl; lia|].
  match goal with
  | |- context [utf8.scan_start ?a ?b ?c ?d] =>
      pose proof (scan_start_le a b c d) as Hscan;
      set (st := utf8.scan_start a b c d) in *
  end.
  set (start := if st <? 0 then 0 else st).
  assert (Hstart : 0 <= start <= Z.of_nat (length s) - 1).
  { subst start. destruct (Z.ltb_spec st 0); lia. }
  assert (Hne : slice start (Z.of_nat (length s)) s <> []).
  { intros Hnil. apply (f_equal length) in Hnil.
    unfold slice in Hnil. rewrite length_take, length_drop in Hnil.
    simpl in Hnil. lia. }
  pose proof (DecodeRune_width _ Hne) as Hw.
  destruct (utf8.DecodeRuneInString _) as [r size]. simpl in Hw.
  destruct (negb (start + size =? Z.of_nat (length s))); simpl; lia.
Qed.

Lemma lastIndexFunc_false_enough (f : Z -> bool) (n m : nat) (s : list Z) (i : Z) :
  i <= Z.of_nat (length s) -> i <= Z.of_nat n -> i <= Z.of_nat m ->
  gostrings.lastIndexFunc_false n f s i = gostrings.lastIndexFunc_false m f s i.
Proof.
  revert m i. induction n as [|n IH]; intros m i Hi Hn Hm.
  - destruct m as [|m]; [reflexivity|]. simpl.
    destruct (Z.ltb_spec 0 i); [lia | reflexivity].
  - destruct m as [|m]; simpl.
    + destruct (Z.ltb_spec 0 i); [lia | reflexivity].
    + destruct (Z.ltb_spec 0 i) as [Hpos|]; [|reflexivity].
      assert (Hne : slice_to i s <> []).
      { intros Hnil. apply (f_equal length) in Hnil.
        unfold slice_to in Hnil. rewrite length_take in Hnil.
        simpl in Hnil. lia. }
      pose proof (DecodeLastRune_size _ Hne) as Hsz.
      destruct (utf8.DecodeLastRuneInString (slice_to i s)) as [r size].
      simpl in Hsz. destruct (negb (f r)); [reflexivity|].
      apply IH; lia.
Qed.

Lemma range_fuel_enough (n m : nat) (s : list Z) :
  (length s <= n)%nat -> (length s <= m)%nat ->
  utf8.range_fuel n s = utf8.range_fuel m s.
Proof.
  revert m s. induction n as [|n IH]; intros m s Hn Hm.
  - destruct s; [|simpl in Hn; lia]. now destruct m.
  - destruct m as [|m].
    + destruct s; [reflexivity | simpl in Hm; lia].
    + destruct s as [|c s]; [reflexivity|].
      cbn [utf8.range_fuel].
      pose proof (DecodeRune_width (c :: s) ltac:(congruence)) as Hw.
      destruct (utf8.DecodeRuneInString (c :: s)) as [r width].
      simpl in Hw. f_equal.
      apply IH; unfold slice_from; rewrite length_drop; simpl length in *; lia.
Qed.

(* ================================================================= *)
(** ** [ParseOrder] *)

Section ParseOrder_properties.

Context `{CaseTables}.

Lemma ParseOrder_cases (order : string) :
  ParseOrder order = "DESC" /\
    (4 <= len (gostrings.TrimSpace order) /\
     starts_with_ignoring_case "DESC" (gostrings.TrimSpace order))
  \/
  ParseOrder order = "ASC" /\
    ~ (4 <= len (gostrings.TrimSpace order) /\
       starts_with_ignoring_case "DESC" (gostrings.TrimSpace order)).
Proof.
  unfold ParseOrder, starts_with_ignoring_case, gostrings.HasPrefix.
  change (gostrings.ToUpper "DESC") with "DESC".
  set (t := gostrings.TrimSpace order).
  destruct (Z.leb_spec 4 (len t)) as [Hlen|Hlen]; simpl.
  - destruct (String.prefix descending (gostrings.ToUpper t)) eqn:Hp.
    + left. split; [reflexivity|]. split; [assumption|].
      now apply prefix_append.
    + right. split; [reflexivity|]. intros [_ Hex].
      apply prefix_append in Hex. unfold descending in Hp. congruence.
  - right. split; [reflexivity|]. intros [Hge _]. lia.
Qed.

(** The two possible outputs. *)
Lemma ParseOrder_two_outputs (order : string) :
  ParseOrder order = ascending \/ ParseOrder order = descending.
Proof. destruct (ParseOrder_cases order) as [[-> _]|[-> _]]; auto. Qed.

End ParseOrder_properties.

(* ================================================================= *)
(** ** [ParseOrder] on ASCII strings *)

Lemma byte_of_ascii_range (c : ascii) : 0 <= byte_of_ascii c < 256.
Proof.
  unfold byte_of_ascii. pose proof (N_ascii_bounded c). lia.
Qed.

Lemma ascii_of_byte_of_ascii (c : ascii) : ascii_of_byte (byte_of_ascii c) = c.
Proof.
  unfold ascii_of_byte. pose proof (byte_of_ascii_range c).
  rewrite Z.mod_small by assumption.
  unfold byte_of_ascii. rewrite N2Z.id. apply ascii_N_embedding.
Qed.

Lemma byte_of_ascii_of_byte (b : Z) :
  0 <= b < 256 -> byte_of_ascii (ascii_of_byte b) = b.
Proof.
  intros Hb. unfold ascii_of_byte, byte_of_ascii.
  rewrite Z.mod_small by assumption.
  rewrite N_ascii_embedding by lia. lia.
Qed.

Lemma bytes_range (s : string) : Forall (fun c => 0 <= c < 256) (bytes s).
Proof.
  unfold bytes. induction (list_ascii_of_string s) as [|c l IH]; simpl.
  - constructor.
  - constructor; [apply byte_of_ascii_range | exact IH].
Qed.

Lemma of_bytes_bytes (s : string) : of_bytes (bytes s) = s.
Proof.
  unfold of_bytes, bytes.
  rewrite <- (string_of_list_ascii_of_string s) at 2. f_equal.
  induction (list_ascii_of_string s) as [|c l IH]; [reflexivity|].
  now rewrite !fmap_cons, ascii_of_byte_of_ascii, IH.
Qed.

Lemma bytes_of_bytes (l : list Z) :
  Forall (fun c => 0 <= c < 256) l -> bytes (of_bytes l) = l.
Proof.
  intros Hl. unfold of_bytes, bytes.
  rewrite list_ascii_of_string_of_list_ascii.
  induction Hl as [|c l Hc Hl IH]; [reflexivity|].
  now rewrite !fmap_cons, byte_of_ascii_of_byte, IH.
Qed.

Lemma len_of_bytes (l : list Z) : len (of_bytes l) = Z.of_nat (length l).
Proof.
  unfold len, of_bytes. f_equal.
  induction l as [|c l IH]; [reflexivity|].
  rewrite fmap_cons. simpl. now rewrite IH.
Qed.

Lemma bytes_append (a b : string) : bytes (a +:+ b) = bytes a ++ bytes b.
Proof.
  unfold bytes. induction a as [|x a IH]; [reflexivity|].
  rewrite append_cons. cbn [list_ascii_of_string].
  now rewrite !fmap_cons, IH.
Qed.

Lemma drop_spaces_Forall (P : Z -> Prop) (l : list Z) :
  Forall P l -> Forall P (drop_spaces l).
Proof.
  induction 1 as [|c l Hc Hl IH]; simpl; [constructor|].
  destruct (gostrings.asciiSpace c); [exact IH | now constructor].
Qed.

Lemma trim_ascii_Forall (P : Z -> Prop) (l : list Z) :
  Forall P l -> Forall P (trim_ascii l).
Proof.
  intros Hl. unfold trim_ascii.
  apply Forall_rev, drop_spaces_Forall, Forall_rev, drop_spaces_Forall, Hl.
Qed.

(** On ASCII bytes the second loop of [TrimSpace] never leaves for
    [TrimRightFunc]. *)
Lemma TrimSpace_stop_ascii (rs : list Z) :
  Forall (fun c => c < utf8.RuneSelf) rs ->
  gostrings.TrimSpace_stop rs = rev (drop_spaces rs).
Proof.
  induction 1 as [|c rs Hc Hrs IH]; [reflexivity|].
  cbn [gostrings.TrimSpace_stop drop_spaces].
  destruct (Z.leb_spec utf8.RuneSelf c); [lia|].
  destruct (gostrings.asciiSpace c); [exact IH | reflexivity].
Qed.

(** On ASCII bytes the first loop never leaves for [TrimFunc]. *)
Lemma TrimSpace_start_ascii (l : list Z) :
  Forall (fun c => c < utf8.RuneSelf) l ->
  gostrings.TrimSpace_start l = trim_ascii l.
Proof.
  induction 1 as [|c l Hc Hl IH]; [reflexivity|].
  unfold trim_ascii in *. cbn [gostrings.TrimSpace_start drop_spaces].
  destruct (Z.leb_spec utf8.RuneSelf c); [lia|].
  destruct (gostrings.asciiSpace c); [exact IH|].
  apply TrimSpace_stop_ascii, Forall_rev. now constructor.
Qed.

Lemma upper_byte_letter (upper c : Z) :
  65 <= upper <= 90 -> (gostrings.upper_byte c = upper <-> letter upper c).
Proof.
  intros Hu. unfold gostrings.upper_byte, letter.
  destruct (Z.leb_spec 97 c); destruct (Z.leb_spec c 122); simpl; lia.
Qed.

Section ParseOrder_on_ascii.

Context `{CaseTables}.

(** The fast path of [ToUpper]. *)
Lemma ToUpper_ascii (t : list Z) :
  Forall (fun c => 0 <= c < 256) t ->
  Forall (fun c => c < utf8.RuneSelf) t ->
  gostrings.ToUpper (of_bytes t) = of_bytes (gostrings.upper_byte <$> t).
Proof.
  intros Hrange Hascii. unfold gostrings.ToUpper.
  rewrite (bytes_of_bytes t Hrange).
  assert (Hall : forallb (fun c => c <? utf8.RuneSelf) t = true).
  { apply forallb_forall. intros c Hc. apply Z.ltb_lt.
    rewrite Forall_forall in Hascii. apply Hascii. now apply list_elem_of_In. }
  rewrite Hall.
  destruct (existsb (fun c => (97 <=? c) && (c <=? 122)) t) eqn:Hlow;
    [reflexivity|]. simpl.
  assert (Hid : gostrings.upper_byte <$> t = t); [|now rewrite Hid].
  clear Hrange Hascii Hall.
  induction t as [|c t IH]; [reflexivity|].
  simpl in Hlow. apply orb_false_iff in Hlow as [Hc Ht].
  rewrite fmap_cons, (IH Ht). unfold gostrings.upper_byte. now rewrite Hc.
Qed.

Lemma HasPrefix_DESC (l : list Z) :
  Forall (fun c => 0 <= c < 256) l ->
  (gostrings.HasPrefix (of_bytes l) descending = true <->
   exists rest, l = 68 :: 69 :: 83 :: 67 :: rest).
Proof.
  intros Hl. unfold gostrings.HasPrefix. rewrite prefix_append. split.
  - intros [rest Hrest]. exists (bytes rest).
    rewrite <- (bytes_of_bytes l Hl), Hrest, bytes_append. reflexivity.
  - intros [rest ->]. exists (of_bytes rest). reflexivity.
Qed.

(** X2: on an ASCII string [ParseOrder] answers "DESC" exactly when, the
    ASCII spaces at both ends dropped, the first four bytes are the letters
    d, e, s, c in either case; the length test adds nothing. *)
Lemma ParseOrder_ascii (order : string) :
  ascii_only order ->
  (ParseOrder order = "DESC" <->
   exists c1 c2 c3 c4 rest,
     trim_ascii (bytes order) = c1 :: c2 :: c3 :: c4 :: rest /\
     letter 68 c1 /\ letter 69 c2 /\ letter 83 c3 /\ letter 67 c4).
Proof.
  intros Hascii. unfold ascii_only in Hascii.
  unfold ParseOrder, gostrings.TrimSpace.
  rewrite (TrimSpace_start_ascii _ Hascii).
  set (t := trim_ascii (bytes order)).
  assert (Ht1 : Forall (fun c => 0 <= c < 256) t)
    by apply trim_ascii_Forall, bytes_range.
  assert (Ht2 : Forall (fun c => c < utf8.RuneSelf) t)
    by now apply trim_ascii_Forall.
  rewrite len_of_bytes, (ToUpper_ascii t Ht1 Ht2).
  assert (Hup : Forall (fun c => 0 <= c < 256) (gostrings.upper_byte <$> t)).
  { apply Forall_fmap. eapply Forall_impl; [exact Ht1|].
    intros c Hc. simpl in Hc. unfold compose, gostrings.upper_byte.
    destruct (Z.leb_spec 97 c); destruct (Z.leb_spec c 122); simpl; lia. }
  pose proof (HasPrefix_DESC _ Hup) as Hpre.
  destruct (gostrings.HasPrefix (of_bytes (gostrings.upper_byte <$> t)) descending).
  - destruct (proj1 Hpre eq_refl) as [rest Hrest].
    destruct t as [|c1 [|c2 [|c3 [|c4 t']]]]; try discriminate.
    injection Hrest as H1 H2 H3 H4 _.
    apply upper_byte_letter in H1, H2, H3, H4; try lia.
    replace (4 <=? Z.of_nat (length (c1 :: c2 :: c3 :: c4 :: t'))) with true
      by (symmetry; apply Z.leb_le; simpl length; lia).
    simpl. split; [intros _|reflexivity].
    exists c1, c2, c3, c4, t'. auto.
  - rewrite andb_false_r. split; [discriminate|].
    intros (c1 & c2 & c3 & c4 & rest & Ht & H1 & H2 & H3 & H4).
    assert (Hex : exists rest', gostrings.upper_byte <$> t = 68 :: 69 :: 83 :: 67 :: rest').
    { rewrite Ht. exists (gostrings.upper_byte <$> rest). simpl.
      apply upper_byte_letter in H1, H2, H3, H4; try lia.
      now rewrite H1, H2, H3, H4. }
    apply Hpre in Hex. discriminate.
Qed.

End ParseOrder_on_ascii.

(* ================================================================= *)
(** ** The decoder by cases *)

(** The byte sequences of [white_space] are the encodings of the
    [White_Space] code points, which are the runes [IsSpace] accepts. *)
Lemma white_space_encodes :
  white_space = utf8.EncodeRune <$> White_Space_code_points /\
  forallb unicode.IsSpace White_Space_code_points = true.
Proof. split; vm_compute; reflexivity. Qed.

(** A property of the integers of a range, checked by evaluation. *)
Lemma forallb_seqZ (P : Z -> bool) (lo n : Z) :
  forallb P (seqZ lo n) = true -> forall x, lo <= x < lo + n -> P x = true.
Proof.
  intros Hall x Hx. rewrite forallb_forall in Hall. apply Hall.
  apply list_elem_of_In, elem_of_seqZ. lia.
Qed.

(** Tactics for the table of first bytes: [table_entries] unfolds its
    entries, [ztests] decides the comparisons of the goal by cases, and
    [closed_terms] evaluates the size and the accept range of an entry. *)
Ltac table_entries :=
  unfold utf8.as_, utf8.xx, utf8.s1, utf8.s2, utf8.s3, utf8.s4, utf8.s5,
    utf8.s6, utf8.s7, utf8.locb, utf8.hicb, utf8.RuneSelf in *.

Ltac ztests :=
  table_entries;
  repeat match goal with
         | |- context [?a =? ?b] => destruct (Z.eqb_spec a b); try lia
         | |- context [?a <? ?b] => destruct (Z.ltb_spec a b); try lia
         | |- context [?a <=? ?b] => destruct (Z.leb_spec a b); try lia
         end.

Ltac closed_terms :=
  table_entries; cbv zeta;
  repeat match goal with
         | |- context [Z.land ?a 7] =>
             let v := eval vm_compute in (Z.land a 7) in
             progress (change (Z.land a 7) with v)
         | |- context [utf8.acceptRanges ?a] =>
             let v := eval vm_compute in (utf8.acceptRanges a) in
             progress (change (utf8.acceptRanges a) with v)
         end;
  cbn [fst snd]; simpl length.

Lemma first_cases (s0 : Z) :
  utf8.first s0 =
    if s0 <? 0x80 then utf8.as_
    else if (s0 <? 0xC2) || (0xF4 <? s0) then utf8.xx
    else if s0 <? 0xE0 then utf8.s1
    else if s0 =? 0xE0 then utf8.s2
    else if s0 =? 0xED then utf8.s4
    else if s0 <? 0xF0 then utf8.s3
    else if s0 =? 0xF0 then utf8.s5
    else if s0 =? 0xF4 then utf8.s7
    else utf8.s6.
Proof. unfold utf8.first. ztests; reflexivity. Qed.

Ltac first_is v :=
  match goal with
  | |- context [utf8.first ?s0] =>
      replace (utf8.first s0) with v
        by (rewrite first_cases; ztests; reflexivity)
  end; closed_terms.

Lemma DecodeRuneInString_cases (s : list Z) :
  utf8.DecodeRuneInString s = decode_by_cases s.
Proof.
  destruct s as [|s0 tl]; [reflexivity|].
  unfold utf8.DecodeRuneInString, decode_by_cases.
  replace (Z.of_nat (length (s0 :: tl)) <? 1) with false
    by (symmetry; apply Z.ltb_ge; simpl length; lia).
  change (at_ (s0 :: tl) 0) with s0.
  unfold accepted, accept_lo, accept_hi, rune2, rune3, rune4, continuation.
  destruct (Z.ltb_spec s0 0x80).
  { first_is utf8.as_. reflexivity. }
  destruct ((s0 <? 0xC2) || (0xF4 <? s0)) eqn:Hinv.
  { apply orb_true_iff in Hinv. rewrite !Z.ltb_lt in Hinv.
    first_is utf8.xx. reflexivity. }
  apply orb_false_iff in Hinv as [H1 H2].
  apply Z.ltb_ge in H1, H2.
  destruct (Z.ltb_spec s0 0xE0).
  { first_is utf8.s1. destruct tl as [|b1 tl1]; simpl length.
    - ztests; reflexivity.
    - change (at_ (s0 :: b1 :: tl1) 1) with b1. ztests; reflexivity. }
  destruct (Z.ltb_spec s0 0xF0).
  { destruct (Z.eqb_spec s0 0xE0); [|destruct (Z.eqb_spec s0 0xED)].
    1: first_is utf8.s2. 2: first_is utf8.s4. 3: first_is utf8.s3.
    all: destruct tl as [|b1 [|b2 tl2]]; simpl length;
      [ztests; reflexivity | ztests; reflexivity |].
    all: change (at_ (s0 :: b1 :: b2 :: tl2) 1) with b1;
      change (at_ (s0 :: b1 :: b2 :: tl2) 2) with b2; ztests; reflexivity. }
  destruct (Z.eqb_spec s0 0xF0); [|destruct (Z.eqb_spec s0 0xF4)].
  1: first_is utf8.s5. 2: first_is utf8.s7. 3: first_is utf8.s6.
  all: destruct tl as [|b1 [|b2 [|b3 tl3]]]; simpl length;
    [ztests; reflexivity | ztests; reflexivity | ztests; reflexivity |].
  all: change (at_ (s0 :: b1 :: b2 :: b3 :: tl3) 1) with b1;
    change (at_ (s0 :: b1 :: b2 :: b3 :: tl3) 2) with b2;
    change (at_ (s0 :: b1 :: b2 :: b3 :: tl3) 3) with b3; ztests; reflexivity.
Qed.

Lemma land_le (a b : Z) : 0 <= b -> 0 <= Z.land a b <= b.
Proof.
  intros Hb. split; [apply Z.land_nonneg; now right|].
  apply (Z.ldiff_le _ _ Hb). apply Z.bits_inj'. intros n Hn.
  rewrite Z.ldiff_spec, Z.land_spec, Z.bits_0.
  now destruct (Z.testbit a n), (Z.testbit b n).
Qed.

Lemma lor_bounds (a b : Z) : 0 <= a -> 0 <= b -> a <= Z.lor a b <= a + b.
Proof.
  intros Ha Hb. pose proof (Z.add_lor_land a b) as Hadd.
  pose proof (land_le a b Hb). lia.
Qed.

Lemma accepted_cont (s0 b1 : Z) : accepted s0 b1 = true -> 0x80 <= b1 < 0x80 + 64.
Proof.
  unfold accepted, accept_lo, accept_hi. intros [Hl Hh]%andb_true_iff. revert Hl Hh. ztests.
Qed.

Lemma cont_range (b : Z) : continuation b = true -> 0x80 <= b < 0x80 + 64.
Proof. unfold continuation. intros [Hl Hh]%andb_true_iff. lia. Qed.

Lemma decodes_1 (s0 : Z) : 0 <= s0 < 0x80 -> decodes s0 [s0] = true.
Proof.
  intros Hs0.
  apply (forallb_seqZ (fun s0 => decodes s0 [s0]) 0 0x80); [|lia].
  vm_compute. reflexivity.
Qed.

Lemma decodes_2 (s0 b1 : Z) :
  0xC2 <= s0 < 0xE0 -> accepted s0 b1 = true ->
  decodes (rune2 s0 b1) [s0; b1] = true.
Proof.
  intros Hs0 Hb1. pose proof (accepted_cont _ _ Hb1) as H1.
  pose proof (forallb_seqZ (fun s0 => forallb (fun b1 =>
     if accepted s0 b1 then decodes (rune2 s0 b1) [s0; b1] else true)
     (seqZ 0x80 64))
     0xC2 30 ltac:(vm_compute; reflexivity) s0 ltac:(lia)) as Hall.
  cbv beta in Hall.
  pose proof (forallb_seqZ _ _ _ Hall b1 H1) as Hok. cbv beta in Hok.
  now rewrite Hb1 in Hok.
Qed.

Lemma decodes_3 (s0 b1 b2 : Z) :
  0xE0 <= s0 < 0xF0 -> accepted s0 b1 = true -> continuation b2 = true ->
  decodes (rune3 s0 b1 b2) [s0; b1; b2] = true.
Proof.
  intros Hs0 Hb1 Hb2. pose proof (accepted_cont _ _ Hb1) as H1.
  pose proof (cont_range _ Hb2) as H2.
  pose proof (forallb_seqZ (fun s0 => forallb (fun b1 =>
     if accepted s0 b1 then
       forallb (fun b2 => decodes (rune3 s0 b1 b2) [s0; b1; b2]) (seqZ 0x80 64)
     else true) (seqZ 0x80 64))
     0xE0 16 ltac:(vm_compute; reflexivity) s0 ltac:(lia)) as Hall.
  cbv beta in Hall.
  pose proof (forallb_seqZ _ _ _ Hall b1 H1) as Hall1. cbv beta in Hall1.
  rewrite Hb1 in Hall1.
  exact (forallb_seqZ _ _ _ Hall1 b2 H2).
Qed.

Lemma IsSpace_supplementary (r : Z) : 0x10000 <= r -> unicode.IsSpace r = false.
Proof.
  intros Hr. unfold unicode.IsSpace, unicode.White_Space_excluding_Latin.
  destruct (r mod 2 ^ 32 <=? unicode.MaxLatin1); ztests; reflexivity.
Qed.

Lemma decodes_4 (s0 b1 b2 b3 : Z) :
  0xF0 <= s0 <= 0xF4 -> accepted s0 b1 = true -> continuation b2 = true ->
  continuation b3 = true ->
  decodes (rune4 s0 b1 b2 b3) [s0; b1; b2; b3] = true.
Proof.
  intros Hs0 Hb1 Hb2 Hb3. pose proof (accepted_cont _ _ Hb1) as H1.
  unfold rune4.
  set (x := Z.lor (Z.shiftl (Z.land s0 utf8.mask4) 18)
                  (Z.shiftl (Z.land b1 utf8.maskx) 12)).
  assert (Hx : 0x10000 <= x <= 0x10F000).
  { pose proof (forallb_seqZ (fun s0 => forallb (fun b1 =>
       if accepted s0 b1 then
         let x := Z.lor (Z.shiftl (Z.land s0 utf8.mask4) 18)
                        (Z.shiftl (Z.land b1 utf8.maskx) 12) in
         (0x10000 <=? x) && (x <=? 0x10F000)
       else true) (seqZ 0x80 64))
       0xF0 5 ltac:(vm_compute; reflexivity) s0 ltac:(lia)) as Hall.
    cbv beta in Hall.
    pose proof (forallb_seqZ _ _ _ Hall b1 H1) as Hok. cbv beta zeta in Hok.
    rewrite Hb1 in Hok. fold x in Hok. lia. }
  pose proof (land_le b2 utf8.maskx ltac:(unfold utf8.maskx; lia)) as H2.
  pose proof (land_le b3 utf8.maskx ltac:(unfold utf8.maskx; lia)) as H3.
  unfold utf8.maskx in *.
  rewrite (Z.shiftl_mul_pow2 (Z.land b2 63) 6) by lia.
  set (c := Z.land b2 63 * 2 ^ 6).
  assert (Hc : 0 <= c <= 63 * 64) by (subst c; lia).
  pose proof (lor_bounds x c ltac:(lia) ltac:(lia)) as Hxc.
  pose proof (lor_bounds (Z.lor x c) (Z.land b3 63) ltac:(lia) ltac:(lia)) as Hr.
  unfold decodes. rewrite IsSpace_supplementary by lia.
  unfold utf8.MaxRune. rewrite andb_true_r. apply andb_true_iff.
  split; [apply Z.leb_le | apply Z.leb_le]; lia.
Qed.

(** The decoder on a non-empty string: the rune is a code point, its width
    counts the bytes read, and a space is read only from an encoding of
    the list. *)
Lemma DecodeRuneInString_reads (s : list Z) :
  Forall (fun c => 0 <= c < 256) s -> s <> [] ->
  exists e rest,
    s = e ++ rest /\
    (utf8.DecodeRuneInString s).2 = Z.of_nat (length e) /\
    e <> [] /\
    0 <= (utf8.DecodeRuneInString s).1 <= utf8.MaxRune /\
    (unicode.IsSpace (utf8.DecodeRuneInString s).1 = true -> e ∈ white_space).
Proof.
  intros Hs Hne. rewrite DecodeRuneInString_cases.
  assert (Hdec : forall r w e rest, s = e ++ rest -> e <> [] ->
            w = Z.of_nat (length e) -> decodes r e = true ->
            exists e rest, s = e ++ rest /\
              (r, w).2 = Z.of_nat (length e) /\ e <> [] /\
              0 <= (r, w).1 <= utf8.MaxRune /\
              (unicode.IsSpace (r, w).1 = true -> e ∈ white_space)).
  { intros r w e rest Hs' He -> Hd. exists e, rest. cbn [fst snd].
    unfold decodes in Hd.
    apply andb_true_iff in Hd as [[H0 H1]%andb_true_iff Hsp].
    repeat split; try assumption; try lia.
    intros Hr. rewrite Hr in Hsp. now apply bool_decide_eq_true in Hsp. }
  assert (Herr : forall s0 tl, s = s0 :: tl ->
            exists e rest, s = e ++ rest /\
              (utf8.RuneError, 1).2 = Z.of_nat (length e) /\ e <> [] /\
              0 <= (utf8.RuneError, 1).1 <= utf8.MaxRune /\
              (unicode.IsSpace (utf8.RuneError, 1).1 = true ->
               e ∈ white_space)).
  { intros s0 tl ->. exists [s0], tl. cbn [fst snd].
    repeat split; try discriminate; try (vm_compute; congruence). }
  destruct s as [|s0 tl]; [congruence|]. clear Hne.
  apply Forall_cons in Hs as [Hs0 Htl].
  unfold decode_by_cases.
  destruct (Z.ltb_spec s0 0x80).
  { apply (Hdec s0 1 [s0] tl eq_refl); [discriminate|reflexivity|]. apply decodes_1. lia. }
  destruct ((s0 <? 0xC2) || (0xF4 <? s0)) eqn:Hinv; [now apply (Herr s0 tl)|].
  apply orb_false_iff in Hinv as [H1 H2]. apply Z.ltb_ge in H1, H2.
  destruct tl as [|b1 tl1]; [now apply (Herr s0 [])|].
  destruct (Z.ltb_spec s0 0xE0).
  { destruct (accepted s0 b1) eqn:Hacc; [|now eapply Herr].
    apply (Hdec _ 2 [s0; b1] tl1 eq_refl); [discriminate|reflexivity|].
    apply decodes_2; [lia | assumption]. }
  destruct tl1 as [|b2 tl2]; [now eapply Herr|].
  destruct (Z.ltb_spec s0 0xF0).
  { destruct (accepted s0 b1) eqn:Hacc; [|now eapply Herr].
    destruct (continuation b2) eqn:Hb2; [|now eapply Herr].
    apply (Hdec _ 3 [s0; b1; b2] tl2 eq_refl); [discriminate|reflexivity|].
    apply decodes_3; [lia | assumption | assumption]. }
  destruct tl2 as [|b3 tl3]; [now eapply Herr|].
  destruct (accepted s0 b1) eqn:Hacc; [|now eapply Herr].
  destruct (continuation b2) eqn:Hb2; [|now eapply Herr].
  destruct (continuation b3) eqn:Hb3; [|now eapply Herr].
  apply (Hdec _ 4 [s0; b1; b2; b3] tl3 eq_refl); [discriminate|reflexivity|].
  apply decodes_4; [lia | assumption | assumption | assumption].
Qed.

(** Conversely an encoding of the list is read as a space, whatever
    follows. *)
Lemma DecodeRuneInString_space (e rest : list Z) :
  e ∈ white_space ->
  exists r, utf8.DecodeRuneInString (e ++ rest) = (r, Z.of_nat (length e)) /\
            unicode.IsSpace r = true.
Proof.
  intros He. rewrite DecodeRuneInString_cases.
  unfold white_space in He.
  repeat (apply elem_of_cons in He as [->|He];
          [eexists; split; [cbn; reflexivity | vm_compute; reflexivity]|]).
  now apply elem_of_nil in He.
Qed.

(* ================================================================= *)
(** ** Trimming: [TrimLeftFunc] *)

Lemma white_space_first (e : list Z) :
  e ∈ white_space ->
  exists f tl, e = f :: tl /\ (gostrings.asciiSpace f = true \/ 0xC2 <= f).
Proof.
  intros He. unfold white_space in He.
  repeat (apply elem_of_cons in He as [->|He];
          [eexists _, _; split; [reflexivity|];
           first [left; reflexivity | right; lia]|]).
  now apply elem_of_nil in He.
Qed.

Lemma white_space_last (e : list Z) :
  e ∈ white_space ->
  exists front x, e = front ++ [x] /\ (gostrings.asciiSpace x = true \/ 0x80 <= x).
Proof.
  intros He. unfold white_space in He.
  repeat (apply elem_of_cons in He as [->|He];
          [first
             [ exists []; eexists; split; [reflexivity|];
               first [left; reflexivity | right; lia]
             | eexists [_]; eexists; split; [reflexivity|]; right; lia
             | eexists [_; _]; eexists; split; [reflexivity|]; right; lia ]|]).
  now apply elem_of_nil in He.
Qed.

Lemma asciiSpace_white_space (c : Z) :
  gostrings.asciiSpace c = true -> [c] ∈ white_space.
Proof.
  unfold gostrings.asciiSpace. rewrite !orb_true_iff, !Z.eqb_eq.
  unfold white_space. intros [[[[[->| ->]| ->]| ->]| ->]| ->];
    repeat first [apply list_elem_of_here | apply list_elem_of_further].
Qed.

Lemma asciiSpace_ascii (c : Z) : gostrings.asciiSpace c = true -> c < 0x80.
Proof.
  unfold gostrings.asciiSpace. rewrite !orb_true_iff, !Z.eqb_eq. lia.
Qed.

Lemma spaces_app (a b : list Z) : spaces a -> spaces b -> spaces (a ++ b).
Proof.
  induction 1 as [|e l He Hl IH]; intros Hb; [exact Hb|].
  rewrite <- app_assoc. constructor; auto.
Qed.

Lemma spaces_one (e : list Z) : e ∈ white_space -> spaces e.
Proof.
  intros He. rewrite <- (app_nil_r e). constructor; [exact He | constructor].
Qed.

Lemma space_at_start_nil : ~ space_at_start [].
Proof.
  intros (e & rest & He & Heq). apply white_space_first in He as (f & tl & -> & _).
  discriminate.
Qed.

Lemma space_at_end_nil : ~ space_at_end [].
Proof.
  intros (e & front & He & Heq). apply white_space_last in He as (fr & x & -> & _).
  destruct front; [destruct fr|]; discriminate.
Qed.

(** The first byte of a run of spaces. *)
Lemma spaces_first (l : list Z) :
  spaces l ->
  l = [] \/ exists f tl, l = f :: tl /\ (gostrings.asciiSpace f = true \/ 0xC2 <= f).
Proof.
  destruct 1 as [|e l He Hl]; [now left|]. right.
  apply white_space_first in He as (f & tl & -> & Hf).
  exists f, (tl ++ l). auto.
Qed.

(** [indexFunc] stops at the first rune that is not a space: what it skips
    is a run of spaces, and what is left does not start with one. *)

Lemma indexFunc_false_spaces (fuel : nat) (s : list Z) (i : Z) :
  Forall (fun c => 0 <= c < 256) s -> (length s <= fuel)%nat ->
  match gostrings.indexFunc_false fuel unicode.IsSpace s i with
  | None => spaces s
  | Some k => exists l t, s = l ++ t /\ spaces l /\ ~ space_at_start t /\
                          k = i + Z.of_nat (length l)
  end.
Proof.
  revert s i. induction fuel as [|fuel IH]; intros s i Hs Hlen.
  { destruct s; [constructor | simpl in Hlen; lia]. }
  destruct s as [|c s']; [constructor|].
  cbn [gostrings.indexFunc_false].
  destruct (DecodeRuneInString_reads (c :: s') Hs ltac:(discriminate))
    as (e & rest & Heq & Hw & Hne & _ & Hsp).
  destruct (utf8.DecodeRuneInString (c :: s')) as [r w] eqn:Hdec.
  cbn [fst snd] in *.
  destruct (unicode.IsSpace r) eqn:Hr; cbn [negb].
  - specialize (Hsp eq_refl).
    assert (Hrest : slice_from w (c :: s') = rest).
    { unfold slice_from. rewrite Heq, Hw, Nat2Z.id. apply drop_app_length. }
    rewrite Hrest. rewrite Heq in Hs, Hlen.
    apply Forall_app in Hs as [_ Hs]. rewrite length_app in Hlen.
    assert (Hle : (length rest <= fuel)%nat).
    { destruct e; [congruence | simpl in Hlen; lia]. }
    specialize (IH rest (i + w) Hs Hle).
    destruct (gostrings.indexFunc_false fuel unicode.IsSpace rest (i + w)) as [k|].
    + destruct IH as (l & t & -> & Hl & Ht & ->).
      exists (e ++ l), t. rewrite Heq, app_assoc.
      repeat split; [now constructor | assumption |].
      rewrite length_app. lia.
    + rewrite Heq. now constructor.
  - exists [], (c :: s'). repeat split; [constructor | | simpl; lia].
    intros (e' & rest' & He' & Heq').
    destruct (DecodeRuneInString_space e' rest' He') as (r' & Hd' & Hr').
    rewrite <- Heq', Hdec in Hd'. congruence.
Qed.

Lemma TrimLeftFunc_spaces (s : list Z) :
  Forall (fun c => 0 <= c < 256) s ->
  exists l, s = l ++ gostrings.TrimLeftFunc unicode.IsSpace s /\ spaces l /\
            ~ space_at_start (gostrings.TrimLeftFunc unicode.IsSpace s).
Proof.
  intros Hs. unfold gostrings.TrimLeftFunc.
  pose proof (indexFunc_false_spaces (length s) s 0 Hs ltac:(lia)) as Hi.
  destruct (gostrings.indexFunc_false (length s) unicode.IsSpace s 0) as [k|].
  - destruct Hi as (l & t & -> & Hl & Ht & ->). exists l.
    unfold slice_from. rewrite Z.add_0_l, Nat2Z.id, drop_app_length. auto.
  - exists s. rewrite app_nil_r. auto using space_at_start_nil.
Qed.

(* ================================================================= *)
(** ** Trimming: [DecodeLastRuneInString] and [TrimRightFunc] *)

Lemma at_app (front e : list Z) (k : Z) :
  0 <= k -> at_ (front ++ e) (Z.of_nat (length front) + k) = at_ e k.
Proof.
  intros Hk. unfold at_. rewrite Z2Nat.inj_add, Nat2Z.id by lia.
  apply app_nth2_plus.
Qed.

Lemma slice_end (s : list Z) (start : Z) :
  slice start (Z.of_nat (length s)) s = slice_from start s.
Proof.
  unfold slice, slice_from. apply take_ge. rewrite length_drop. lia.
Qed.

(** A multi-byte encoding is read the same whatever follows it. *)
Lemma DecodeRuneInString_app (a b : list Z) (r w : Z) :
  utf8.DecodeRuneInString a = (r, w) -> w = Z.of_nat (length a) -> 2 <= w ->
  utf8.DecodeRuneInString (a ++ b) = (r, w) /\ 0x80 <= at_ a 0.
Proof.
  rewrite !DecodeRuneInString_cases. intros Hd Hw H2.
  destruct a as [|s0 [|b1 [|b2 [|b3 [|b4 tl]]]]]; simpl length in Hw;
    cbn [app]; unfold decode_by_cases in *;
    try match goal with
        | |- context [at_ (?x :: ?l) 0] => change (at_ (x :: l) 0) with x
        end;
    repeat match type of Hd with
           | (if ?c then _ else _) = _ => destruct c eqn:?
           end;
    try (injection Hd as <- <-; lia);
    try (split; [exact Hd|]);
    repeat match goal with
           | H : (_ <? _) = false |- _ => apply Z.ltb_ge in H
           end; try lia.
Qed.

(** A byte that is not ASCII, followed by spaces only, is read alone. *)
Lemma DecodeRuneInString_before_spaces (c : Z) (l : list Z) :
  0x80 <= c -> spaces l -> (utf8.DecodeRuneInString (c :: l)).2 = 1.
Proof.
  intros Hc Hl. rewrite DecodeRuneInString_cases. unfold decode_by_cases.
  destruct (Z.ltb_spec c 0x80); [lia|].
  destruct ((c <? 0xC2) || (0xF4 <? c)); [reflexivity|].
  apply spaces_first in Hl as [->|(f & tl & -> & Hf)]; [reflexivity|].
  assert (Hacc : accepted c f = false).
  { apply andb_false_iff. unfold accept_lo, accept_hi.
    destruct Hf as [Hf%asciiSpace_ascii|Hf].
    - left. apply Z.leb_gt. ztests.
    - right. apply Z.leb_gt. ztests. }
  rewrite Hacc. cbn [andb].
  repeat match goal with
         | |- context [if ?c then _ else _] => destruct c
         | |- context [match ?l with [] => _ | _ :: _ => _ end] => destruct l
         end; reflexivity.
Qed.

Lemma last_byte (s : list Z) :
  s <> [] ->
  s = take (length s - 1) s ++ [at_ s (Z.of_nat (length s) - 1)].
Proof.
  intros Hs. destruct (exists_last Hs) as (front & x & ->).
  rewrite length_app. simpl length.
  replace (length front + 1 - 1)%nat with (length front) by lia.
  rewrite take_app_length.
  replace (Z.of_nat (length front + 1) - 1) with (Z.of_nat (length front) + 0) by lia.
  now rewrite at_app by lia.
Qed.

(** [DecodeLastRuneInString] on a non-empty string reads its last bytes:
    a space only from an encoding of the list, and a rune of two bytes or
    more as [DecodeRuneInString] reads it. *)
Lemma DecodeLastRuneInString_reads (s : list Z) :
  Forall (fun c => 0 <= c < 256) s -> s <> [] ->
  exists front e,
    s = front ++ e /\
    (utf8.DecodeLastRuneInString s).2 = Z.of_nat (length e) /\
    e <> [] /\
    (unicode.IsSpace (utf8.DecodeLastRuneInString s).1 = true -> e ∈ white_space) /\
    (2 <= Z.of_nat (length e) ->
     utf8.DecodeRuneInString e = utf8.DecodeLastRuneInString s).
Proof.
  intros Hs Hne. unfold utf8.DecodeLastRuneInString.
  assert (Hlen : 1 <= Z.of_nat (length s)).
  { destruct s; [congruence|]. simpl length. lia. }
  destruct (Z.eqb_spec (Z.of_nat (length s)) 0) as [E|_]; [lia|].
  set (c := at_ s (Z.of_nat (length s) - 1)).
  pose proof (last_byte s Hne) as Hlast. fold c in Hlast.
  assert (Hone : forall r, (unicode.IsSpace r = true -> [c] ∈ white_space) ->
            exists front e,
              s = front ++ e /\ (r, 1).2 = Z.of_nat (length e) /\ e <> [] /\
              (unicode.IsSpace (r, 1).1 = true -> e ∈ white_space) /\
              (2 <= Z.of_nat (length e) -> utf8.DecodeRuneInString e = (r, 1))).
  { intros r Hr. exists (take (length s - 1) s), [c].
    repeat split; [exact Hlast | discriminate | exact Hr | simpl; lia]. }
  assert (Hc : 0 <= c < 256).
  { rewrite Hlast in Hs. apply Forall_app in Hs as [_ Hs].
    now apply Forall_cons in Hs as [Hs _]. }
  destruct (Z.ltb_spec c utf8.RuneSelf) as [Hascii|Hhigh].
  { apply Hone. intros Hr. pose proof (decodes_1 c ltac:(unfold utf8.RuneSelf in *; lia)) as Hd.
    unfold decodes in Hd. rewrite Hr in Hd.
    apply andb_true_iff in Hd as [_ Hd]. now apply bool_decide_eq_true in Hd. }
  match goal with
  | |- context [utf8.scan_start ?a ?b ?c ?d] =>
      pose proof (scan_start_le a b c d) as Hscan;
      set (st := utf8.scan_start a b c d) in *
  end.
  set (start := if st <? 0 then 0 else st).
  assert (Hstart : 0 <= start <= Z.of_nat (length s) - 1).
  { subst start. destruct (Z.ltb_spec st 0); lia. }
  rewrite slice_end.
  assert (Hsplit : s = take (Z.to_nat start) s ++ slice_from start s).
  { unfold slice_from. now rewrite take_drop. }
  assert (Hne' : slice_from start s <> []).
  { intros Hnil. apply (f_equal length) in Hnil.
    unfold slice_from in Hnil. rewrite length_drop in Hnil. simpl in Hnil. lia. }
  assert (Hs' : Forall (fun c => 0 <= c < 256) (slice_from start s)).
  { unfold slice_from. now apply Forall_drop. }
  destruct (DecodeRuneInString_reads _ Hs' Hne')
    as (e & rest & Heq & Hw & He & _ & Hsp).
  destruct (utf8.DecodeRuneInString (slice_from start s)) as [r size] eqn:Hdec.
  cbn [fst snd] in *.
  destruct (Z.eqb_spec (start + size) (Z.of_nat (length s))) as [Hend|Hend];
    cbn [negb].
  - assert (Hrest : rest = []).
    { apply (f_equal length) in Heq. unfold slice_from in Heq.
      rewrite length_drop, length_app in Heq.
      destruct rest; [reflexivity | simpl in Heq; lia]. }
    subst rest. rewrite app_nil_r in Heq. rewrite Heq in *.
    exists (take (Z.to_nat start) s), e.
    repeat split; [exact Hsplit | exact Hw | exact He | exact Hsp |].
    intros _. exact Hdec.
  - apply Hone. vm_compute. discriminate.
Qed.

Lemma DecodeLastRuneInString_unfold (s : list Z) (n : Z) :
  Z.of_nat (length s) = n -> 0 < n -> 0x80 <= at_ s (n - 1) ->
  utf8.DecodeLastRuneInString s =
    (let lim := if n - 4 <? 0 then 0 else n - 4 in
     let start := utf8.scan_start 4 s lim (n - 1 - 1) in
     let start := if start <? 0 then 0 else start in
     let '(r, size) := utf8.DecodeRuneInString (slice_from start s) in
     if negb (start + size =? n) then (utf8.RuneError, 1) else (r, size)).
Proof.
  intros Hn Hpos Hc. unfold utf8.DecodeLastRuneInString.
  rewrite <- (slice_end s). rewrite Hn.
  destruct (Z.eqb_spec n 0); [lia|].
  destruct (Z.ltb_spec (at_ s (n - 1)) utf8.RuneSelf) as [Hlt|_];
    [unfold utf8.RuneSelf in Hlt; lia|].
  reflexivity.
Qed.

Lemma slice_from_app (front e : list Z) :
  slice_from (Z.of_nat (length front)) (front ++ e) = e.
Proof. unfold slice_from. rewrite Nat2Z.id. apply drop_app_length. Qed.

Lemma DecodeLastRuneInString_2 (front : list Z) (c0 c1 r : Z) :
  0x80 <= c1 -> utf8.RuneStart c0 = true ->
  utf8.DecodeRuneInString [c0; c1] = (r, 2) ->
  utf8.DecodeLastRuneInString (front ++ [c0; c1]) = (r, 2).
Proof.
  intros Hc1 Hc0 Hdec.
  pose proof (fun k => at_app front [c0; c1] k) as Hat.
  pose proof (slice_from_app front [c0; c1]) as Hsl.
  assert (Hlen : Z.of_nat (length (front ++ [c0; c1])) = Z.of_nat (length front) + 2).
  { rewrite length_app. simpl length. lia. }
  assert (Hnf : 0 <= Z.of_nat (length front)) by lia.
  revert Hat Hsl Hlen Hnf. generalize (Z.of_nat (length front)) as nf.
  intros nf Hat Hsl Hlen Hnf.
  rewrite (DecodeLastRuneInString_unfold _ (nf + 2) Hlen ltac:(lia)).
  - cbv zeta.
    assert (Hscan : forall lim,
              utf8.scan_start 4 (front ++ [c0; c1]) lim (nf + 2 - 1 - 1) = nf).
    { intros lim. replace (nf + 2 - 1 - 1) with (nf + 0) by lia.
      cbn [utf8.scan_start]. rewrite Hat by lia.
      change (at_ [c0; c1] 0) with c0. rewrite Hc0.
      destruct (_ <? _); lia. }
    rewrite Hscan. destruct (Z.ltb_spec nf 0); [lia|].
    rewrite Hsl, Hdec, Z.eqb_refl. reflexivity.
  - replace (nf + 2 - 1) with (nf + 1) by lia. rewrite Hat by lia. exact Hc1.
Qed.

Lemma DecodeLastRuneInString_3 (front : list Z) (c0 c1 c2 r : Z) :
  0x80 <= c2 -> utf8.RuneStart c1 = false -> utf8.RuneStart c0 = true ->
  utf8.DecodeRuneInString [c0; c1; c2] = (r, 3) ->
  utf8.DecodeLastRuneInString (front ++ [c0; c1; c2]) = (r, 3).
Proof.
  intros Hc2 Hc1 Hc0 Hdec.
  pose proof (fun k => at_app front [c0; c1; c2] k) as Hat.
  pose proof (slice_from_app front [c0; c1; c2]) as Hsl.
  assert (Hlen : Z.of_nat (length (front ++ [c0; c1; c2]))
                 = Z.of_nat (length front) + 3).
  { rewrite length_app. simpl length. lia. }
  assert (Hnf : 0 <= Z.of_nat (length front)) by lia.
  revert Hat Hsl Hlen Hnf. generalize (Z.of_nat (length front)) as nf.
  intros nf Hat Hsl Hlen Hnf.
  rewrite (DecodeLastRuneInString_unfold _ (nf + 3) Hlen ltac:(lia)).
  - cbv zeta.
    assert (Hscan : forall lim, lim <= nf + 1 ->
              utf8.scan_start 4 (front ++ [c0; c1; c2]) lim (nf + 3 - 1 - 1) = nf).
    { intros lim Hlim. replace (nf + 3 - 1 - 1) with (nf + 1) by lia.
      cbn [utf8.scan_start].
      destruct (Z.ltb_spec (nf + 1) lim); [lia|].
      rewrite Hat by lia.
      change (at_ [c0; c1; c2] 1) with c1. rewrite Hc1.
      replace (nf + 1 - 1) with (nf + 0) by lia.
      rewrite Hat by lia.
      change (at_ [c0; c1; c2] 0) with c0. rewrite Hc0.
      destruct (_ <? _); lia. }
    rewrite Hscan by (destruct (Z.ltb_spec (nf + 3 - 4) 0); lia).
    destruct (Z.ltb_spec nf 0); [lia|].
    rewrite Hsl, Hdec, Z.eqb_refl. reflexivity.
  - replace (nf + 3 - 1) with (nf + 2) by lia. rewrite Hat by lia. exact Hc2.
Qed.

(** An encoding of the list at the end of a string is read as a space. *)
Lemma DecodeLastRuneInString_space (front e : list Z) :
  e ∈ white_space ->
  exists r, utf8.DecodeLastRuneInString (front ++ e) = (r, Z.of_nat (length e)) /\
            unicode.IsSpace r = true.
Proof.
  intros He.
  destruct (DecodeRuneInString_space e [] He) as (r & Hdec & Hr).
  rewrite app_nil_r in Hdec. exists r. split; [|exact Hr]. clear Hr.
  unfold white_space in He.
  repeat (apply elem_of_cons in He as [->|He];
    [first
       [ apply DecodeLastRuneInString_3;
         [lia | reflexivity | reflexivity | exact Hdec]
       | apply DecodeLastRuneInString_2; [lia | reflexivity | exact Hdec]
       | injection Hdec as <-; unfold utf8.DecodeLastRuneInString;
         rewrite length_app; simpl length;
         replace (Z.of_nat (length front + 1) - 1)
           with (Z.of_nat (length front) + 0) by lia;
         rewrite at_app by lia;
         destruct (Z.eqb_spec (Z.of_nat (length front + 1)) 0); [lia|];
         reflexivity ]|]).
  now apply elem_of_nil in He.
Qed.

(** The last step of [TrimRightFunc]: from the start of the last rune kept
    to its end. *)
Lemma TrimRightFunc_end (front e l : list Z) :
  e <> [] -> spaces l ->
  (2 <= Z.of_nat (length e) ->
   (utf8.DecodeRuneInString e).2 = Z.of_nat (length e)) ->
  let s := (front ++ e) ++ l in
  let i := Z.of_nat (length front) in
  (if (0 <=? i) && (utf8.RuneSelf <=? at_ s i)
   then let '(_, wid) := utf8.DecodeRuneInString (slice_from i s) in i + wid
   else i + 1) = Z.of_nat (length (front ++ e)).
Proof.
  intros He Hl Hdec s i. subst s i.
  rewrite <- app_assoc, slice_from_app.
  replace (Z.of_nat (length front)) with (Z.of_nat (length front) + 0) at 2 by lia.
  rewrite at_app by lia.
  destruct e as [|c e1]; [congruence|]. clear He.
  change (at_ ((c :: e1) ++ l) 0) with c.
  rewrite length_app.
  destruct (Z.leb_spec 0 (Z.of_nat (length front))) as [_|]; [|lia].
  cbn [andb]. unfold utf8.RuneSelf.
  destruct e1 as [|c1 e2].
  - simpl length.
    destruct (Z.leb_spec 0x80 c) as [Hc|Hc]; [|lia].
    pose proof (DecodeRuneInString_before_spaces c l Hc Hl) as Hw.
    cbn [app]. destruct (utf8.DecodeRuneInString (c :: l)) as [r wid].
    simpl in Hw. lia.
  - specialize (Hdec ltac:(simpl length; lia)).
    destruct (utf8.DecodeRuneInString (c :: c1 :: e2)) as [r w] eqn:Hd.
    cbn [snd] in Hdec.
    destruct (DecodeRuneInString_app _ l _ _ Hd Hdec ltac:(simpl length in Hdec; lia))
      as [Happ Hhigh].
    change (at_ (c :: c1 :: e2) 0) with c in Hhigh.
    destruct (Z.leb_spec 0x80 c); [|lia].
    rewrite Happ. lia.
Qed.

Lemma lastIndexFunc_false_spaces (fuel : nat) (p l : list Z) :
  Forall (fun c => 0 <= c < 256) p -> spaces l -> (length p <= fuel)%nat ->
  exists t r,
    p = t ++ r /\ spaces (r ++ l) /\ ~ space_at_end t /\
    TrimRightFunc_step (p ++ l)
      (gostrings.lastIndexFunc_false fuel unicode.IsSpace (p ++ l)
         (Z.of_nat (length p)))
    = Z.of_nat (length t).
Proof.
  revert p l. induction fuel as [|fuel IH]; intros p l Hp Hl Hlen.
  { destruct p; [|simpl in Hlen; lia]. exists [], [].
    repeat split; [exact Hl | apply space_at_end_nil]. }
  cbn [gostrings.lastIndexFunc_false].
  destruct (Z.ltb_spec 0 (Z.of_nat (length p))) as [Hpos|Hzero].
  2:{ destruct p; [|simpl length in Hzero; lia]. exists [], [].
      repeat split; [exact Hl | apply space_at_end_nil]. }
  assert (Hne : p <> []) by (intros ->; simpl in Hpos; lia).
  assert (Htake : slice_to (Z.of_nat (length p)) (p ++ l) = p).
  { unfold slice_to. rewrite Nat2Z.id. apply take_app_length. }
  rewrite Htake.
  destruct (DecodeLastRuneInString_reads p Hp Hne)
    as (front & e & Heq & Hsize & He & Hsp & Hmulti).
  destruct (utf8.DecodeLastRuneInString p) as [r size] eqn:Hdec.
  cbn [fst snd] in *.
  assert (Hi : Z.of_nat (length p) - size = Z.of_nat (length front)).
  { rewrite Heq, length_app. lia. }
  rewrite Hi.
  destruct (unicode.IsSpace r) eqn:Hr; cbn [negb].
  - specialize (Hsp eq_refl).
    rewrite Heq, <- app_assoc.
    rewrite Heq in Hp, Hlen. apply Forall_app in Hp as [Hp _].
    rewrite length_app in Hlen.
    assert (Hle : (length front <= fuel)%nat).
    { destruct e; [congruence | simpl in Hlen; lia]. }
    destruct (IH front (e ++ l) Hp ltac:(now constructor) Hle)
      as (t & r' & Hfront & Hspaces & Ht & Hstep).
    exists t, (r' ++ e). rewrite <- app_assoc.
    repeat split; [now rewrite Hfront, app_assoc | exact Hspaces | exact Ht | exact Hstep].
  - exists p, []. rewrite app_nil_r.
    repeat split; [exact Hl | |].
    + intros (e' & front' & He' & Heq').
      destruct (DecodeLastRuneInString_space front' e' He') as (r' & Hd' & Hr').
      rewrite <- Heq', Hdec in Hd'. congruence.
    + rewrite Heq. apply TrimRightFunc_end; [exact He | exact Hl |].
      intros H2. now rewrite (Hmulti H2).
Qed.

Lemma TrimRightFunc_spaces (s : list Z) :
  Forall (fun c => 0 <= c < 256) s ->
  exists r, s = gostrings.TrimRightFunc unicode.IsSpace s ++ r /\ spaces r /\
            ~ space_at_end (gostrings.TrimRightFunc unicode.IsSpace s).
Proof.
  intros Hs.
  destruct (lastIndexFunc_false_spaces (length s) s [] Hs ltac:(constructor) ltac:(lia))
    as (t & r & Heq & Hr & Ht & Hstep).
  rewrite !app_nil_r in *.
  unfold gostrings.TrimRightFunc. fold (TrimRightFunc_step s
    (gostrings.lastIndexFunc_false (length s) unicode.IsSpace s (Z.of_nat (length s)))).
  rewrite Hstep. unfold slice_to. rewrite Nat2Z.id.
  subst s. rewrite take_app_length. exists r. auto.
Qed.

Lemma space_at_start_app (t r : list Z) :
  space_at_start t -> space_at_start (t ++ r).
Proof.
  intros (e & rest & He & ->). exists e, (rest ++ r). now rewrite app_assoc.
Qed.

Lemma TrimFunc_trims (s : list Z) :
  Forall (fun c => 0 <= c < 256) s ->
  trims s (gostrings.TrimFunc unicode.IsSpace s).
Proof.
  intros Hs. unfold gostrings.TrimFunc.
  destruct (TrimLeftFunc_spaces s Hs) as (l & Hl & Hsl & Hstart).
  set (t1 := gostrings.TrimLeftFunc unicode.IsSpace s) in *.
  assert (Ht1 : Forall (fun c => 0 <= c < 256) t1).
  { rewrite Hl in Hs. now apply Forall_app in Hs as [_ Hs]. }
  destruct (TrimRightFunc_spaces t1 Ht1) as (r & Hr & Hsr & Hend).
  set (t := gostrings.TrimRightFunc unicode.IsSpace t1) in *.
  exists l, r. repeat split; [congruence | assumption | assumption | | assumption].
  intros Hst. apply Hstart. rewrite Hr. now apply space_at_start_app.
Qed.

(** The second loop of [TrimSpace]. *)
Lemma TrimSpace_stop_spaces (rs : list Z) :
  Forall (fun c => 0 <= c < 256) rs ->
  exists r, rev rs = gostrings.TrimSpace_stop rs ++ r /\ spaces r /\
            ~ space_at_end (gostrings.TrimSpace_stop rs).
Proof.
  induction 1 as [|c rs Hc Hrs IH].
  { exists []. repeat split; [constructor | apply space_at_end_nil]. }
  cbn [gostrings.TrimSpace_stop].
  destruct (Z.leb_spec utf8.RuneSelf c) as [Hhigh|Hlow].
  { apply TrimRightFunc_spaces, Forall_rev. now constructor. }
  destruct (gostrings.asciiSpace c) eqn:Hsp.
  - destruct IH as (r & Heq & Hr & Hend). exists (r ++ [c]).
    cbn [rev]. rewrite Heq, <- app_assoc.
    repeat split; [|exact Hend].
    apply spaces_app; [exact Hr|]. now apply spaces_one, asciiSpace_white_space.
  - exists []. rewrite app_nil_r. repeat split; [constructor|].
    intros (e & front & He & Heq). cbn [rev] in Heq.
    apply white_space_last in He as (fr & x & -> & Hx).
    rewrite app_assoc in Heq. apply app_inj_tail in Heq as [_ ->].
    unfold utf8.RuneSelf in Hlow. destruct Hx as [Hx|Hx]; [congruence | lia].
Qed.

(** [TrimSpace] on the bytes of a string: the spaces at both ends are cut
    off and nothing else. *)
Lemma TrimSpace_start_trims (s : list Z) :
  Forall (fun c => 0 <= c < 256) s ->
  trims s (gostrings.TrimSpace_start s).
Proof.
  induction 1 as [|c s Hc Hs IH].
  { exists [], []. repeat split;
      [constructor | constructor | apply space_at_start_nil | apply space_at_end_nil]. }
  cbn [gostrings.TrimSpace_start].
  destruct (Z.leb_spec utf8.RuneSelf c) as [Hhigh|Hlow].
  { apply TrimFunc_trims. now constructor. }
  destruct (gostrings.asciiSpace c) eqn:Hsp.
  - destruct IH as (l & r & Heq & Hl & Hr & Hstart & Hend).
    exists ([c] ++ l), r. rewrite Heq at 1.
    repeat split; try assumption.
    constructor; [now apply asciiSpace_white_space | exact Hl].
  - destruct (TrimSpace_stop_spaces (rev (c :: s))) as (r & Heq & Hr & Hend).
    { apply Forall_rev. now constructor. }
    rewrite rev_involutive in Heq.
    exists [], r. repeat split; [exact Heq | constructor | exact Hr | | exact Hend].
    unfold utf8.RuneSelf in Hlow.
    assert (Hfirst : forall e rest, e ∈ white_space -> c :: s <> e ++ rest).
    { intros e rest He Hes.
      apply white_space_first in He as (f & tl & -> & Hf).
      injection Hes as <- _. destruct Hf as [Hf|Hf]; [congruence | lia]. }
    intros (e & rest & He & Ht).
    destruct (gostrings.TrimSpace_stop (rev (c :: s))) as [|c' t'] eqn:Ht'.
    + apply white_space_first in He as (f & tl & -> & _). discriminate.
    + apply (Hfirst e (rest ++ r) He). now rewrite Heq, Ht, app_assoc.
Qed.

(* ================================================================= *)
(** ** The trimmed string is unique *)

(** The encodings of the list are a prefix code and a suffix code: a run of
    spaces is cut into encodings in one way only, from either end. *)
Lemma white_space_inside (e : list Z) (k : nat) :
  e ∈ white_space -> (0 < k < length e)%nat -> 0x80 <= nth k e 0 <= 0xBF.
Proof.
  intros He Hk. unfold white_space in He.
  repeat (apply elem_of_cons in He as [->|He];
          [destruct k as [|[|[|k]]]; simpl in *; lia|]).
  now apply elem_of_nil in He.
Qed.

Lemma white_space_prefix (e e' x x' : list Z) :
  e ∈ white_space -> e' ∈ white_space -> e ++ x = e' ++ x' ->
  e = e' /\ x = x'.
Proof.
  intros He He' Heq.
  destruct (DecodeRuneInString_space e x He) as (r & Hd & _).
  destruct (DecodeRuneInString_space e' x' He') as (r' & Hd' & _).
  rewrite Heq, Hd' in Hd. injection Hd as _ Hlen.
  apply app_inj_1; [lia | exact Heq].
Qed.

Lemma white_space_suffix (e e' y y' : list Z) :
  e ∈ white_space -> e' ∈ white_space -> y ++ e = y' ++ e' ->
  y = y' /\ e = e'.
Proof.
  intros He He' Heq.
  destruct (DecodeLastRuneInString_space y e He) as (r & Hd & _).
  destruct (DecodeLastRuneInString_space y' e' He') as (r' & Hd' & _).
  rewrite Heq, Hd' in Hd. injection Hd as _ Hlen.
  apply app_inj_2; [lia | exact Heq].
Qed.

Lemma spaces_last (r : list Z) :
  spaces r -> r = [] \/ exists l e, r = l ++ e /\ spaces l /\ e ∈ white_space.
Proof.
  induction 1 as [|e l He Hl IH]; [now left|]. right.
  destruct IH as [->|(l' & e' & -> & Hl' & He')].
  - exists [], e. rewrite app_nil_r. repeat split; [constructor | exact He].
  - exists (e ++ l'), e'. rewrite app_assoc. repeat split; [now constructor | exact He'].
Qed.

(** Two runs of spaces at the start of the same string: one continues the
    other. *)
Lemma spaces_at_start (l l' x x' : list Z) :
  spaces l -> spaces l' -> l ++ x = l' ++ x' ->
  exists m, spaces m /\
            ((l' = l ++ m /\ x = m ++ x') \/ (l = l' ++ m /\ x' = m ++ x)).
Proof.
  intros Hl. revert l' x x'. induction Hl as [|e l He Hl IH]; intros l' x x' Hl' Heq.
  { exists l'. split; [exact Hl'|]. left. auto. }
  destruct Hl' as [|e' l' He' Hl'].
  { exists (e ++ l). split; [now constructor|]. right. auto. }
  rewrite <- !app_assoc in Heq.
  destruct (white_space_prefix _ _ _ _ He He' Heq) as [<- Heq'].
  destruct (IH _ _ _ Hl' Heq') as (m & Hm & [[-> ->]|[-> ->]]);
    exists m; (split; [exact Hm|]); [left | right]; now rewrite app_assoc.
Qed.

(** The same at the end. *)
Lemma spaces_at_end (n : nat) (r r' y y' : list Z) :
  (length r' <= n)%nat ->
  spaces r -> spaces r' -> y ++ r = y' ++ r' -> (length r <= length r')%nat ->
  exists m, spaces m /\ r' = m ++ r /\ y = y' ++ m.
Proof.
  revert r r' y y'. induction n as [|n IH]; intros r r' y y' Hn Hr Hr' Heq Hlen.
  { destruct r'; [|simpl in Hn; lia]. destruct r; [|simpl in Hlen; lia].
    exists []. rewrite !app_nil_r in *. repeat split; [constructor | exact Heq]. }
  destruct (spaces_last r Hr) as [->|(l & e & -> & Hl & He)].
  { exists r'. rewrite !app_nil_r in *. auto. }
  destruct (spaces_last r' Hr') as [->|(l' & e' & -> & Hl' & He')].
  { simpl in Hlen. rewrite length_app in Hlen.
    apply white_space_first in He as (f & tl & -> & _). simpl in Hlen. lia. }
  rewrite !app_assoc in Heq.
  destruct (white_space_suffix _ _ _ _ He He' Heq) as [Heq' <-].
  rewrite !length_app in Hn. rewrite !length_app in Hlen.
  assert (Hpos : (0 < length e)%nat).
  { apply white_space_first in He as (f & tl & -> & _). simpl. lia. }
  assert (H1 : (length l' <= n)%nat) by lia.
  assert (H2 : (length l <= length l')%nat) by lia.
  destruct (IH l l' y y' H1 Hl Hl' Heq' H2) as (m & Hm & -> & ->).
  exists m. now rewrite app_assoc.
Qed.

(** A string that does not start with a space, followed by spaces, starts
    with a space only when it is empty. *)
Lemma no_space_at_start (t r e z : list Z) :
  ~ space_at_start t -> spaces r -> e ∈ white_space -> t ++ r = e ++ z ->
  t = [].
Proof.
  intros Ht Hr He Heq.
  destruct (decide (t = [])) as [|Hne]; [assumption|]. exfalso.
  destruct (le_lt_dec (length e) (length t)) as [Hle|Hlt].
  - apply Ht. exists e, (drop (length e) t). split; [exact He|].
    rewrite <- (take_drop (length e) t) at 1. f_equal.
    apply (f_equal (take (length e))) in Heq.
    rewrite take_app_le in Heq by lia. now rewrite take_app_length in Heq.
  - assert (Hk : (0 < length t < length e)%nat).
    { destruct t; [congruence | simpl in *; lia]. }
    pose proof (white_space_inside e (length t) He Hk) as Hin.
    apply (f_equal (fun l => nth (length t) l 0)) in Heq.
    rewrite (app_nth1 e z 0) in Heq by lia.
    rewrite app_nth2, Nat.sub_diag in Heq by lia.
    apply spaces_first in Hr as [->|(f & tl & -> & Hf)].
    + simpl in Heq. lia.
    + simpl in Heq. destruct Hf as [Hf%asciiSpace_ascii|Hf]; lia.
Qed.

Lemma trims_unique_end (t t' r r' : list Z) :
  spaces r -> spaces r' -> ~ space_at_end t -> ~ space_at_end t' ->
  t ++ r = t' ++ r' -> t = t'.
Proof.
  assert (Hhalf : forall t t' r r', spaces r -> spaces r' -> ~ space_at_end t ->
            t ++ r = t' ++ r' -> (length r <= length r')%nat -> t = t').
  { intros u u' q q' Hq Hq' Hu Heq Hlen.
    destruct (spaces_at_end (length q') q q' u u' ltac:(lia) Hq Hq' Heq Hlen)
      as (m & Hm & -> & ->).
    destruct (spaces_last m Hm) as [->|(l & e & -> & _ & He)].
    - now rewrite app_nil_r.
    - exfalso. apply Hu. exists e, (u' ++ l). now rewrite app_assoc. }
  intros Hr Hr' Ht Ht' Heq.
  destruct (le_lt_dec (length r) (length r')) as [Hle|Hlt].
  - now apply (Hhalf t t' r r').
  - symmetry. apply (Hhalf t' t r' r); auto with lia.
Qed.

(** What is left when the spaces at both ends are cut off is determined by
    the string. *)
Lemma trims_unique (s t t' : list Z) : trims s t -> trims s t' -> t = t'.
Proof.
  assert (Hempty : forall t r m z, ~ space_at_start t -> spaces r -> spaces m ->
            m <> [] -> t ++ r = m ++ z -> t = []).
  { intros u q m z Hu Hq Hm Hne Heq. destruct Hm as [|e m He Hm]; [congruence|].
    rewrite <- app_assoc in Heq. exact (no_space_at_start _ _ _ _ Hu Hq He Heq). }
  assert (Hhalf : forall l t r l' t' r', spaces l -> spaces r -> spaces l' ->
            spaces r' -> ~ space_at_start t -> ~ space_at_end t ->
            ~ space_at_start t' -> ~ space_at_end t' ->
            l ++ t ++ r = (l ++ l') ++ t' ++ r' -> t = t').
  { intros l u r l' u' r' Hl Hr Hl' Hr' Hs He Hs' He' Heq.
    rewrite <- app_assoc in Heq. apply app_inv_head in Heq.
    destruct (decide (l' = [])) as [->|Hne].
    { exact (trims_unique_end _ _ _ _ Hr Hr' He He' Heq). }
    pose proof (Hempty _ _ _ _ Hs Hr Hl' Hne Heq) as ->. cbn [app] in Heq.
    symmetry.
    destruct (spaces_at_start r l' [] (u' ++ r') Hr Hl'
                ltac:(now rewrite app_nil_r))
      as (m & Hm & [[-> Hnil]|[-> Hm']]).
    - symmetry in Hnil. apply app_eq_nil in Hnil as [_ Hnil].
      now apply app_eq_nil in Hnil as [-> _].
    - rewrite app_nil_r in Hm'.
      destruct (decide (m = [])) as [->|Hmne].
      + now apply app_eq_nil in Hm' as [-> _].
      + apply (Hempty u' r' m [] Hs' Hr' Hm Hmne). now rewrite app_nil_r. }
  intros (l & r & -> & Hl & Hr & Hs & He) (l' & r' & Heq & Hl' & Hr' & Hs' & He').
  destruct (spaces_at_start l l' _ _ Hl Hl' Heq) as (m & Hm & [[-> _]|[-> _]]).
  - exact (Hhalf l t r m t' r' Hl Hr Hm Hr' Hs He Hs' He' Heq).
  - symmetry. symmetry in Heq.
    exact (Hhalf l' t' r' m t r Hl' Hr' Hm Hr Hs' He' Hs He Heq).
Qed.

(* ================================================================= *)
(** ** Upper case: [Map] and [ToUpper] *)

Lemma Map_cons (f : Z -> Z) (b : list Z) :
  b <> [] ->
  gostrings.Map f b =
    (let r := f (utf8.DecodeRuneInString b).1 in
     if 0 <=? r then utf8.EncodeRune r else [])
    ++ gostrings.Map f (slice_from (utf8.DecodeRuneInString b).2 b).
Proof.
  intros Hb. unfold gostrings.Map, utf8.range.
  destruct b as [|c b']; [congruence|].
  cbn [length utf8.range_fuel].
  pose proof (DecodeRune_width (c :: b') Hb) as Hw.
  destruct (utf8.DecodeRuneInString (c :: b')) as [r w]. cbn [fst snd] in *.
  rewrite fmap_cons. cbn [mjoin list_join]. f_equal. f_equal. f_equal.
  apply range_fuel_enough; unfold slice_from; rewrite length_drop;
    simpl length; lia.
Qed.

Lemma EncodeRune_ascii (m : Z) : 0 <= m <= 0x7F -> utf8.EncodeRune m = [m].
Proof.
  intros Hm. unfold utf8.EncodeRune. cbv zeta.
  rewrite (Z.mod_small m (2 ^ 32)) by lia.
  unfold utf8.rune1Max. destruct (Z.leb_spec m 0x7F); [|lia].
  now rewrite Z.mod_small by lia.
Qed.

Lemma lead_byte (t y : Z) :
  t = utf8.t2 \/ t = utf8.t3 \/ t = utf8.t4 ->
  0xC0 <= Z.lor t (y mod 256) < 256.
Proof.
  intros Ht. pose proof (Z.mod_pos_bound y 256 ltac:(lia)) as Hy.
  generalize dependent (y mod 256). intros x Hx.
  assert (Hall : forallb (fun x => forallb (fun t =>
            (0xC0 <=? Z.lor t x) && (Z.lor t x <? 256))
            [utf8.t2; utf8.t3; utf8.t4]) (seqZ 0 256) = true)
    by (vm_compute; reflexivity).
  pose proof (forallb_seqZ _ _ _ Hall x ltac:(lia)) as Hok. cbv beta in Hok.
  cbn [forallb] in Hok. rewrite !andb_true_iff, !Z.leb_le, !Z.ltb_lt in Hok.
  destruct Ht as [->|[->| ->]]; lia.
Qed.

Lemma EncodeRune_not_ascii (m : Z) :
  0x7F < m <= utf8.MaxRune ->
  exists lead tl, utf8.EncodeRune m = lead :: tl /\ 0xC0 <= lead < 256.
Proof.
  intros Hm. unfold utf8.EncodeRune. cbv zeta.
  unfold utf8.MaxRune in Hm. rewrite (Z.mod_small m (2 ^ 32)) by lia.
  unfold utf8.rune1Max. destruct (Z.leb_spec m 0x7F); [lia|].
  repeat match goal with
         | |- context [if ?c then _ else _] => destruct c
         end;
    eexists _, _; (split; [reflexivity|]); apply lead_byte; auto.
Qed.

Section Upper.

Context `{CaseTables}.

Lemma ToUpper_same_letter (capital r : Z) :
  65 <= capital <= 90 ->
  (unicode.ToUpper r = capital <-> same_letter capital r).
Proof.
  intros Hc. unfold unicode.ToUpper, same_letter, letter, unicode.MaxASCII.
  destruct (Z.leb_spec r 0x7F).
  - destruct (Z.leb_spec 97 r); destruct (Z.leb_spec r 122); cbn [andb]; lia.
  - split; [intros Hr; right; split; [lia | exact Hr] | ].
    intros [[Hr|Hr]|[_ Hr]]; [lia | lia | exact Hr].
Qed.

Lemma ToUpper_code_point (r : Z) :
  code_points -> 0 <= r <= utf8.MaxRune ->
  0 <= unicode.ToUpper r <= utf8.MaxRune.
Proof.
  intros Htab Hr. unfold unicode.ToUpper.
  destruct (Z.leb_spec r unicode.MaxASCII) as [Ha|Ha].
  - unfold unicode.MaxASCII, utf8.MaxRune in *.
    destruct (Z.leb_spec 97 r); destruct (Z.leb_spec r 122); cbn [andb]; lia.
  - apply Htab. lia.
Qed.

Lemma ascii_of_byte_inj (a b : Z) :
  0 <= a < 256 -> 0 <= b < 256 -> ascii_of_byte a = ascii_of_byte b -> a = b.
Proof.
  intros Ha Hb Heq. apply (f_equal byte_of_ascii) in Heq.
  now rewrite !byte_of_ascii_of_byte in Heq.
Qed.

Lemma prefix_of_bytes_cons (a b : Z) (p s : list Z) :
  0 <= a < 256 -> 0 <= b < 256 ->
  String.prefix (of_bytes (a :: p)) (of_bytes (b :: s)) =
    if decide (a = b) then String.prefix (of_bytes p) (of_bytes s) else false.
Proof.
  intros Ha Hb. unfold of_bytes. rewrite !fmap_cons.
  cbn [string_of_list_ascii String.prefix].
  destruct (ascii_dec (ascii_of_byte a) (ascii_of_byte b)) as [Heq|Hne].
  - apply ascii_of_byte_inj in Heq; [|assumption..].
    destruct (decide (a = b)); [reflexivity | contradiction].
  - destruct (decide (a = b)) as [->|]; [contradiction | reflexivity].
Qed.

(** [Map(unicode.ToUpper, t)] starts with the capitals exactly when [t]
    starts with runes that are the same letters. *)
Lemma prefix_Map_ToUpper (capitals t : list Z) :
  code_points ->
  Forall (fun c => 65 <= c <= 90) capitals ->
  Forall (fun c => 0 <= c < 256) t ->
  (String.prefix (of_bytes capitals)
     (of_bytes (gostrings.Map unicode.ToUpper t)) = true
   <-> reads capitals t).
Proof.
  intros Htab Hcap. revert t.
  induction Hcap as [|capital capitals Hc Hcap IH]; intros t Ht.
  { cbn [reads]. split; [auto|]. intros _.
    now destruct (of_bytes (gostrings.Map unicode.ToUpper t)). }
  cbn [reads]. simpl in Hc.
  destruct (decide (t = [])) as [->|Hne].
  { split; [discriminate | intros [Hnil _]; congruence]. }
  rewrite (Map_cons _ t Hne). cbv zeta.
  destruct (DecodeRuneInString_reads t Ht Hne)
    as (e & rest & Heq & Hw & He & Hr & _).
  destruct (utf8.DecodeRuneInString t) as [r w]. cbn [fst snd] in *.
  assert (Hrest : Forall (fun c => 0 <= c < 256) (slice_from w t)).
  { unfold slice_from. now apply Forall_drop. }
  pose proof (ToUpper_code_point r Htab Hr) as Hm.
  pose proof (ToUpper_same_letter capital r Hc) as Hsame.
  destruct (Z.leb_spec 0 (unicode.ToUpper r)) as [_|]; [|lia].
  destruct (Z.le_gt_cases (unicode.ToUpper r) 0x7F) as [Hascii|Hhigh].
  - rewrite EncodeRune_ascii by lia. cbn [app].
    rewrite prefix_of_bytes_cons by lia.
    destruct (decide (capital = unicode.ToUpper r)) as [Heqc|Hnec].
    + rewrite (IH _ Hrest). split; [intros Hrd|intros (_ & _ & Hrd); exact Hrd].
      repeat split; [exact Hne | now apply Hsame | exact Hrd].
    + split; [discriminate|]. intros (_ & Hs & _). apply Hsame in Hs. congruence.
  - destruct (EncodeRune_not_ascii (unicode.ToUpper r) (conj Hhigh (proj2 Hm)))
      as (lead & tl & -> & Hlead).
    cbn [app]. rewrite prefix_of_bytes_cons by lia.
    destruct (decide (capital = lead)) as [->|_]; [lia|].
    split; [discriminate|]. intros (_ & Hs & _). apply Hsame in Hs. lia.
Qed.

Lemma Map_ToUpper_ascii (t : list Z) :
  Forall (fun c => 0 <= c < 256) t ->
  Forall (fun c => c < utf8.RuneSelf) t ->
  gostrings.Map unicode.ToUpper t = gostrings.upper_byte <$> t.
Proof.
  intros Hrange Hascii. induction Hrange as [|c t Hc Ht IH]; [reflexivity|].
  apply Forall_cons in Hascii as [Hca Hta]. unfold utf8.RuneSelf in Hca.
  rewrite Map_cons by discriminate.
  rewrite DecodeRuneInString_cases. unfold decode_by_cases.
  destruct (Z.ltb_spec c 0x80); [|lia]. cbn [fst snd]. cbv zeta.
  change (slice_from 1 (c :: t)) with t. rewrite (IH Hta), fmap_cons.
  assert (Hup : unicode.ToUpper c = gostrings.upper_byte c).
  { unfold unicode.ToUpper, gostrings.upper_byte, unicode.MaxASCII.
    destruct (Z.leb_spec c 0x7F); [reflexivity | lia]. }
  rewrite Hup.
  assert (Hb : 0 <= gostrings.upper_byte c <= 0x7F).
  { unfold gostrings.upper_byte.
    destruct (Z.leb_spec 97 c); destruct (Z.leb_spec c 122); cbn [andb]; lia. }
  destruct (Z.leb_spec 0 (gostrings.upper_byte c)); [|lia].
  now rewrite EncodeRune_ascii by lia.
Qed.

(** Both paths of [ToUpper] map every rune of the string. *)
Lemma ToUpper_Map (t : list Z) :
  Forall (fun c => 0 <= c < 256) t ->
  gostrings.ToUpper (of_bytes t) = of_bytes (gostrings.Map unicode.ToUpper t).
Proof.
  intros Hrange.
  destruct (forallb (fun c => c <? utf8.RuneSelf) t) eqn:Hall.
  - assert (Hascii : Forall (fun c => c < utf8.RuneSelf) t).
    { apply Forall_forall. intros c Hc. rewrite forallb_forall in Hall.
      apply Z.ltb_lt, Hall. now apply list_elem_of_In. }
    now rewrite ToUpper_ascii, Map_ToUpper_ascii.
  - unfold gostrings.ToUpper. now rewrite (bytes_of_bytes t Hrange), Hall.
Qed.

End Upper.

(* ================================================================= *)
(** ** [ParseOrder] trims and ignores case *)

Lemma letter_first (c : Z) (t : list Z) :
  gostrings.asciiSpace c = false -> c < 0xC2 -> ~ space_at_start (c :: t).
Proof.
  intros Hc Hlow (e & rest & He & Heq).
  apply white_space_first in He as (f & tl & -> & Hf).
  injection Heq as <- _. destruct Hf as [Hf|Hf]; [congruence | lia].
Qed.

Lemma letter_last (c : Z) (t : list Z) :
  gostrings.asciiSpace c = false -> c < 0x80 -> ~ space_at_end (t ++ [c]).
Proof.
  intros Hc Hlow (e & front & He & Heq).
  apply white_space_last in He as (fr & x & -> & Hx).
  rewrite app_assoc in Heq. apply app_inj_tail in Heq as [_ ->].
  destruct Hx as [Hx|Hx]; [congruence | lia].
Qed.

Section ParseOrder_trims.

Context `{CaseTables}.

(** C5: [ParseOrder] trims white space and answers "DESC" exactly when the
    trimmed string has at least four bytes and starts, ignoring case, with
    "DESC"; every other input, the empty one included, gives "ASC".
    Every order string has a trimmed form ([trims]: the string is [t]
    between two runs of Unicode spaces, and [t] has no space at either
    end), and for the trimmed form [t] the answer is "DESC" exactly when
    [t] has four bytes or more and its first four runes are the letters
    D, E, S, C in either case ([reads]).  The case tables are taken to map
    code points to code points, as Go's do.  In particular "Descending"
    gives "DESC", and "asc", "" and "d" give "ASC". *)
Theorem ParseOrder_spec (order : string) :
  code_points ->
  (exists t, trims (bytes order) t) /\
  (forall t, trims (bytes order) t ->
     (ParseOrder order = "DESC" <->
        4 <= Z.of_nat (length t) /\ reads (bytes "DESC") t) /\
     (ParseOrder order = "ASC" <->
        ~ (4 <= Z.of_nat (length t) /\ reads (bytes "DESC") t))) /\
  ParseOrder "Descending" = "DESC" /\
  ParseOrder "asc" = "ASC" /\
  ParseOrder "" = "ASC" /\
  ParseOrder "d" = "ASC".
Proof.
  intros Htab.
  pose proof (TrimSpace_start_trims (bytes order) (bytes_range order)) as Htrim.
  split; [eauto|].
  split; [|repeat split; vm_compute; reflexivity].
  intros t Ht. rewrite (trims_unique _ _ _ Ht Htrim). clear t Ht.
  set (t := gostrings.TrimSpace_start (bytes order)) in *.
  assert (Hrange : Forall (fun c => 0 <= c < 256) t).
  { destruct Htrim as (l & r & Heq & _). pose proof (bytes_range order) as Hb.
    rewrite Heq in Hb. apply Forall_app in Hb as [_ Hb].
    now apply Forall_app in Hb as [Hb _]. }
  assert (Hdesc : ParseOrder order = "DESC" <->
            4 <= Z.of_nat (length t) /\ reads (bytes "DESC") t).
  { unfold ParseOrder, gostrings.TrimSpace, gostrings.HasPrefix. fold t.
    rewrite len_of_bytes, (ToUpper_Map t Hrange).
    change descending with (of_bytes [68; 69; 83; 67]) at 1.
    change (bytes "DESC") with [68; 69; 83; 67].
    assert (Hcap : Forall (fun c => 65 <= c <= 90) [68; 69; 83; 67])
      by (repeat constructor; lia).
    pose proof (prefix_Map_ToUpper [68; 69; 83; 67] t Htab Hcap Hrange) as Hpre.
    destruct (Z.leb_spec 4 (Z.of_nat (length t))) as [Hlen|Hlen]; cbn [andb].
    - destruct (String.prefix _ _).
      + split; [intros _; split; [exact Hlen | now apply Hpre] | reflexivity].
      + split; [discriminate|]. intros [_ Hrd]. apply Hpre in Hrd. discriminate.
    - split; [discriminate | intros [Hge _]; lia]. }
  split; [exact Hdesc|].
  destruct (ParseOrder_two_outputs order) as [Hasc|Hdsc].
  - unfold ascending in Hasc. rewrite Hasc in *.
    split; [intros _ Hc; apply Hdesc in Hc; discriminate | reflexivity].
  - unfold descending in Hdsc. rewrite Hdsc in *.
    split; [discriminate|]. intros Hc. exfalso. apply Hc. now apply Hdesc.
Qed.

End ParseOrder_trims.

(** With the Latin fragment of the case tables, [padded] is "dE", the long
    s and "c" between spaces of one, two and three bytes: its trimmed form
    starts with the letters of "DESC", and the answer is "DESC". *)
Lemma ParseOrder_spec_witness :
  @code_points latin_fragment /\
  trims (bytes padded) [100; 0x45; 0xC5; 0xBF; 99] /\
  @ParseOrder latin_fragment padded = "DESC".
Proof.
  assert (Htab : @code_points latin_fragment).
  { intros r Hr. unfold utf8.MaxRune, unicode.MaxASCII in *. cbn.
    destruct (r =? 233); [lia|]. destruct (r =? 383); lia. }
  assert (Htrims : trims (bytes padded) [100; 0x45; 0xC5; 0xBF; 99]).
  { exists [0x20; 0xC2; 0xA0], [0xE2; 0x80; 0x83; 0x0A].
    split; [vm_compute; reflexivity|].
    split; [apply (spaces_cons [0x20] [0xC2; 0xA0]); [repeat constructor|];
            apply (spaces_cons [0xC2; 0xA0] []); repeat constructor|].
    split; [apply (spaces_cons [0xE2; 0x80; 0x83] [0x0A]); [repeat constructor|];
            apply (spaces_cons [0x0A] []); repeat constructor|].
    split; [apply letter_first; [reflexivity | lia]|].
    apply (letter_last 99 [100; 0x45; 0xC5; 0xBF]); [reflexivity | lia]. }
  split; [exact Htab|]. split; [exact Htrims|].
  destruct (@ParseOrder_spec latin_fragment padded Htab) as (_ & Hiff & _).
  apply (Hiff _ Htrims). split; [simpl; lia|].
  vm_compute.
  repeat split; try discriminate;
    first [left; left; reflexivity | left; right; reflexivity
          | right; split; reflexivity].
Defined.

(* ================================================================= *)
(** ** [BuildQuery] *)

Section BuildQuery_properties.

Context `{CaseTables}.

(** The query is the five clauses in their fixed order, and the arguments
    are those of the filter. *)
Lemma BuildQuery_clauses (opt : ListOptions) :
  BuildQuery opt =
    (table_clause opt +:+ filter_clause opt +:+ order_clause opt
       +:+ limit_clause opt +:+ offset_clause opt,
     filter_args opt).
Proof.
  unfold BuildQuery, table_clause, filter_clause, filter_args, order_clause,
    limit_clause, offset_clause, filter_set.
  destruct (nonempty (WhereColumn opt)) eqn:Hc;
    destruct (not_nil (WhereValue opt)) eqn:Hv; simpl;
    try (apply nonempty_true in Hc); try (apply not_nil_true in Hv);
    destruct (nonempty (OrderByColumn opt)) eqn:Ho;
    destruct (Limit opt) as [|l]; destruct (Offset opt) as [|o]; simpl;
    repeat case_decide; try discriminate;
    repeat match goal with
      | Hn : nonempty ?s = false |- _ =>
          let E := fresh in
          assert (E : ~ s <> "") by (rewrite <- nonempty_true; congruence);
          clear Hn
      | Hn : not_nil ?s = false |- _ =>
          let E := fresh in
          assert (E : ~ s <> VNil) by (rewrite <- not_nil_true; congruence);
          clear Hn
      | Hn : nonempty ?s = true |- _ => apply nonempty_true in Hn
      end;
    try tauto;
    rewrite ?append_assoc, ?append_empty_r; simpl; reflexivity.
Qed.

End BuildQuery_properties.

Section BuildQuery_claims.

Context `{CaseTables}.

(** C2: [BuildQuery] is a function of the options that appends the clauses
    in the fixed order table, filter, order, limit, offset; on
    [{Table: "users", WhereColumn: "id", WhereValue: 5, OrderByColumn:
    "name", Order: "desc", Limit: 10, Offset: 20}] it returns
    "SELECT * FROM users WHERE id = ? ORDER BY name DESC LIMIT 10 OFFSET 20"
    with the arguments [[5]]. *)
Theorem BuildQuery_fixed_order (opt : ListOptions) :
  BuildQuery opt =
    (table_clause opt +:+ filter_clause opt +:+ order_clause opt
       +:+ limit_clause opt +:+ offset_clause opt,
     filter_args opt) /\
  BuildQuery {| Table := "users"; WhereColumn := "id"; WhereValue := VInt 5;
                OrderByColumn := "name"; Order := "desc";
                Limit := 10; Offset := 20 |} =
    ("SELECT * FROM users WHERE id = ? ORDER BY name DESC LIMIT 10 OFFSET 20",
     [VInt 5]).
Proof.
  split; [apply BuildQuery_clauses | vm_compute; reflexivity].
Qed.

(** C10: [BuildQuery] adds the WHERE clause and its one argument only when
    [WhereColumn] is not empty and [WhereValue] is not nil; with a column
    but a nil value the query has no WHERE clause and there is no
    argument. *)
Theorem BuildQuery_filter_needs_value (opt : ListOptions) :
  let rest := order_clause opt +:+ limit_clause opt +:+ offset_clause opt in
  BuildQuery opt =
    (if decide (WhereColumn opt <> "" /\ WhereValue opt <> VNil)
     then (table_clause opt +:+ " WHERE " +:+ WhereColumn opt +:+ " = ?" +:+ rest,
           [WhereValue opt])
     else (table_clause opt +:+ rest, [])) /\
  (forall col : string,
      BuildQuery (Where opt col VNil) = (table_clause opt +:+ rest, [])).
Proof.
  intros rest. subst rest. split.
  - rewrite BuildQuery_clauses. unfold filter_clause, filter_args, filter_set.
    case_decide; rewrite ?append_assoc; reflexivity.
  - intros col. rewrite BuildQuery_clauses.
    unfold filter_clause, filter_args, filter_set.
    case_decide as Hf; [destruct Hf as [_ Hf]; now elim Hf|].
    reflexivity.
Qed.

End BuildQuery_claims.

(* ================================================================= *)
(** ** [Count], [DeleteByID], [List] *)

(** C4, as the code has it: when the handle reports "no rows" for the
    count query, [Count] returns a nil error, never the no-rows error, and
    the total as the handle left it in the destination, which is 0 when the
    handle has written nothing; any other answer of the handle, error
    included, is returned as it is.  The call is logged in every case. *)
Theorem Count_clears_no_rows {S D : Type} (r : Repository S D) (w : world S)
    (total : Z) (err : option error) (h : S) :
  Select (db r) PtrInt64 0 (Count_query (rec r)) [] (handle w) = (total, err, h) ->
  Count r w =
    (total, (if decide (err = Some ErrNoRows) then None else err),
     served w h (CallSelect (Count_query (rec r)) [])) /\
  (Count r w).1.2 <> Some ErrNoRows.
Proof.
  intros Hsel. unfold Count, db_Select.
  fold (Count_query (rec r)). rewrite Hsel. cbn [fst snd].
  split; [reflexivity|]. case_decide; congruence.
Qed.

Lemma Count_clears_no_rows_witness :
  Count {| db := empty_table; rec := users |} fresh =
    (0, None,
     {| handle := 1%nat;
        calls := [CallSelect "SELECT COUNT(DISTINCT id) FROM users" []] |}) /\
  (Count {| db := empty_table; rec := users |} fresh).1.2 <> Some ErrNoRows.
Proof.
  apply (Count_clears_no_rows {| db := empty_table; rec := users |} fresh
           0 (Some ErrNoRows) 1%nat); reflexivity.
Defined.

(** C4, as the claim states it, fails: a handle may write to the total and
    then report "no rows"; [Count] clears the error and returns what was
    written, here 5. *)
Lemma Count_no_rows_total_not_zero :
  Select writes_then_no_rows PtrInt64 0 (Count_query users) [] (handle fresh)
    = (5, Some ErrNoRows, 1%nat) /\
  Count {| db := writes_then_no_rows; rec := users |} fresh =
    (5, None,
     {| handle := 1%nat;
        calls := [CallSelect "SELECT COUNT(DISTINCT id) FROM users" []] |}) /\
  ~ (forall (r : Repository nat unit) (w : world nat) (total : Z) (h : nat),
       Select (db r) PtrInt64 0 (Count_query (rec r)) [] (handle w)
         = (total, Some ErrNoRows, h) ->
       (Count r w).1 = (0, None)).
Proof.
  split; [reflexivity|]. split; [reflexivity|].
  intros Hclaim.
  specialize (Hclaim {| db := writes_then_no_rows; rec := users |} fresh
                5 1%nat eq_refl).
  discriminate Hclaim.
Qed.

(** C8: [DeleteByID] returns the affected-row count that the handle reports
    for the delete statement, unchanged, and when the execution returns an
    error it returns that error, unmodified, with the count 0. *)
Theorem DeleteByID_result {S D : Type} (r : Repository S D) (id : Z) (w : world S)
    (res : option Result) (err : option error) (h : S) :
  Exec (db r) (DeleteByID_query (rec r)) [VInt64 id] (handle w) = (res, err, h) ->
  (forall result, res = Some result -> is_int64 (RowsAffected result).1) ->
  DeleteByID r id w =
    (match err with
     | Some e => (0, Some e)
     | None =>
         (match res with
          | Some result => (RowsAffected result).1
          | None => 0
          end, None)
     end,
     served w h (CallExec (DeleteByID_query (rec r)) [VInt64 id])).
Proof.
  intros Hexec Hrange. unfold DeleteByID, db_Exec.
  fold (DeleteByID_query (rec r)). rewrite Hexec.
  destruct err as [e|]; [reflexivity|].
  destruct res as [result|]; [|reflexivity].
  specialize (Hrange result eq_refl). unfold GetAffectedRows.
  destruct (RowsAffected result) as [n e]. simpl in *.
  unfold served. do 2 f_equal.
  unfold is_int64 in Hrange. unfold to_int, intSize.
  rewrite Z.mod_small by lia. lia.
Qed.

Lemma DeleteByID_result_witness :
  DeleteByID {| db := one_row; rec := users |} 7 fresh =
    (1, None,
     {| handle := 1%nat;
        calls := [CallExec "DELETE FROM users WHERE id = ? LIMIT 1" [VInt64 7]] |}).
Proof.
  apply (DeleteByID_result {| db := one_row; rec := users |} 7 fresh
           (Some (affected 1)) None 1%nat).
  - reflexivity.
  - intros result [= <-]. unfold is_int64. simpl. lia.
Defined.

(** C7: [GetByAttrs] with an empty attribute map returns a nil error, sends
    no query to the handle and leaves the destination as it was. *)
Theorem GetByAttrs_empty {S D : Type} (r : Repository S D) (dest : D)
    (iter : list (string * any)) (w : world S) :
  GetByAttrs r dest ∅ iter w = (dest, None, w).
Proof. reflexivity. Qed.

(** The options that [List] hands to [BuildQuery]. *)
Lemma List_options_resolved (rec : RecordInfo) (opts : ListOptions) :
  (let opts1 :=
     if String.eqb (Table opts) "" then set_Table opts (TableName rec)
     else opts in
   if String.eqb (OrderByColumn opts1) "" then
     match SortBy rec with
     | Some b => set_OrderByColumn opts1 b
     | None => opts1
     end
   else opts1) = resolved rec opts.
Proof.
  unfold resolved, set_Table, set_OrderByColumn.
  destruct opts as [t off lim oc od wc wv]; simpl.
  destruct (String.eqb_spec t ""); destruct (String.eqb_spec oc "");
    simpl; repeat case_decide; try congruence;
    destruct (SortBy rec); simpl;
    try destruct (String.eqb_spec oc ""); congruence.
Qed.

(** C9: [List] executes, with one [Select] on the handle, the query that
    [BuildQuery] gives for the options after two substitutions: an empty
    [Table] becomes the record's table name, and an empty [OrderByColumn]
    becomes the record's default sort column when the record has one; the
    other fields are passed on as they are.  The destination and the error
    of the handle are returned, and the call is logged. *)
Theorem List_resolves_then_builds {S D : Type} `{CaseTables}
    (r : Repository S D) (dest : D) (opts : ListOptions) (w : world S)
    (d : D) (err : option error) (h : S) :
  let q := (BuildQuery (resolved (rec r) opts)).1 in
  let args := (BuildQuery (resolved (rec r) opts)).2 in
  Select (db r) PtrCaller dest q args (handle w) = (d, err, h) ->
  List r dest opts w = (d, err, served w h (CallSelect q args)).
Proof.
  intros q args Hsel. unfold List.
  pose proof (List_options_resolved (rec r) opts) as Hres.
  cbv zeta in Hres. cbv zeta. rewrite Hres.
  subst q args. destruct (BuildQuery (resolved (rec r) opts)) as [q args].
  unfold db_Select. cbn [fst snd] in Hsel. rewrite Hsel. reflexivity.
Qed.

Lemma List_resolves_then_builds_witness :
  @List nat unit latin_fragment {| db := one_row; rec := users |} tt
    {| Table := ""; Offset := 0; Limit := 10; OrderByColumn := "";
       Order := "desc"; WhereColumn := "id"; WhereValue := VInt 5 |} fresh
  = (tt, None,
     {| handle := 1%nat;
        calls := [CallSelect
                    "SELECT * FROM users WHERE id = ? ORDER BY name DESC LIMIT 10"
                    [VInt 5]] |}).
Proof.
  etransitivity;
    [apply (@List_resolves_then_builds nat unit latin_fragment
              {| db := one_row; rec := users |} tt
              {| Table := ""; Offset := 0; Limit := 10; OrderByColumn := "";
                 Order := "desc"; WhereColumn := "id"; WhereValue := VInt 5 |}
              fresh tt None 1%nat);
     reflexivity
    | vm_compute; reflexivity].
Defined.

(* ================================================================= *)
(** ** Iteration over a map *)

Lemma range_order_elem {A} (m : gmap string A) (iter : list (string * A))
    (k : string) (x : A) :
  range_order m iter -> ((k, x) ∈ iter <-> m !! k = Some x).
Proof.
  unfold range_order. intros Hp. rewrite Hp. apply elem_of_map_to_list.
Qed.

Lemma range_order_self {A} (m : gmap string A) : range_order m (map_to_list m).
Proof. unfold range_order. reflexivity. Qed.

Lemma range_order_length {A} (m : gmap string A) (iter : list (string * A)) :
  range_order m iter -> length iter = size m.
Proof.
  unfold range_order. intros Hp. rewrite Hp. apply length_map_to_list.
Qed.

Lemma size_zero_empty {A} (m : gmap string A) :
  Nat.eqb (size m) 0 = true <-> m = ∅.
Proof. rewrite Nat.eqb_eq. apply map_size_empty_iff. Qed.

(* ================================================================= *)
(** ** [PartialUpdate] *)

Lemma Kind_eqb_eq (a b : reflect.Kind) : reflect.Kind_eqb a b = true <-> a = b.
Proof. destruct a, b; simpl; split; congruence. Qed.

Lemma type_switch_rejects_kind (v : any) (kind k : reflect.Kind) :
  kind_of v = Some k -> validated_kind k -> k <> kind ->
  type_switch_rejects v kind = true.
Proof.
  intros Hk Hv Hne.
  assert (Hneq : forall k', k' = k -> reflect.Kind_eqb kind k' = false).
  { intros k' ->. destruct (reflect.Kind_eqb kind k) eqn:E; [|reflexivity].
    apply Kind_eqb_eq in E. congruence. }
  destruct Hv as [->|[->| ->]]; destruct v; simpl in Hk; try discriminate;
    simpl; rewrite Hneq; reflexivity.
Qed.

Lemma PartialUpdate_loop_cons (key : string) (kind : reflect.Kind)
    (iter : list (string * reflect.Kind)) (attrs : gmap string any)
    (keyLines : list string) (values : list any) :
  PartialUpdate_loop ((key, kind) :: iter) attrs keyLines values =
    match attrs !! key with
    | None => PartialUpdate_loop iter attrs keyLines values
    | Some v =>
        if type_switch_rejects v kind then inl (0, Some ErrUnprocessable)
        else PartialUpdate_loop iter attrs
               (keyLines ++ [key +:+ " = ?"]) (values ++ [v])
    end.
Proof. reflexivity. Qed.

(** The only early return of the loop is the rejection. *)
Lemma PartialUpdate_loop_early (iter : list (string * reflect.Kind))
    (attrs : gmap string any) (keyLines : list string) (values : list any)
    (out : Z * option error) :
  PartialUpdate_loop iter attrs keyLines values = inl out ->
  out = (0, Some ErrUnprocessable).
Proof.
  revert keyLines values.
  induction iter as [|[key kind] iter IH]; intros keyLines values.
  - discriminate.
  - rewrite PartialUpdate_loop_cons. destruct (attrs !! key) as [v|]; [|apply IH].
    destruct (type_switch_rejects v kind); [congruence | apply IH].
Qed.

(** A key that the attributes lack is skipped. *)
Lemma PartialUpdate_loop_skips (iter : list (string * reflect.Kind))
    (attrs : gmap string any) (keyLines : list string) (values : list any) :
  (forall key kind, (key, kind) ∈ iter -> attrs !! key = None) ->
  PartialUpdate_loop iter attrs keyLines values = inr (keyLines, values).
Proof.
  induction iter as [|[key kind] iter IH]; intros Hnone; [reflexivity|].
  rewrite PartialUpdate_loop_cons, (Hnone key kind) by apply list_elem_of_here.
  apply IH. intros k' kind' Hin. apply (Hnone k' kind').
  now apply list_elem_of_further.
Qed.

(** A rejected entry anywhere in the iteration ends the loop with the
    error, whatever the order. *)
Lemma PartialUpdate_loop_rejects (iter : list (string * reflect.Kind))
    (attrs : gmap string any) (key : string) (kind : reflect.Kind) (v : any) :
  (key, kind) ∈ iter -> attrs !! key = Some v ->
  type_switch_rejects v kind = true ->
  forall keyLines values,
    PartialUpdate_loop iter attrs keyLines values = inl (0, Some ErrUnprocessable).
Proof.
  intros Hin Hv Hrej.
  induction iter as [|[key' kind'] iter IH]; intros keyLines values.
  - inversion Hin.
  - rewrite PartialUpdate_loop_cons.
    apply elem_of_cons in Hin as [[= <- <-]|Hin].
    + now rewrite Hv, Hrej.
    + destruct (attrs !! key') as [v'|]; [|now apply IH].
      destruct (type_switch_rejects v' kind'); [reflexivity | now apply IH].
Qed.

(** C3, as the code has it: when some key of both maps has a value of the
    type string, int or bool itself whose kind differs from the kind the
    schema declares for it, [PartialUpdate]
    returns the count 0 with [ErrUnprocessable] and the handle receives no
    call, in whatever order the schema is visited. *)
Theorem PartialUpdate_rejects_mismatch {S D : Type} (r : Repository S D)
    (id : Z) (schema : gmap string reflect.Kind)
    (iter : list (string * reflect.Kind)) (attrs : gmap string any)
    (w : world S) (key : string) (kind k : reflect.Kind) (v : any) :
  range_order schema iter ->
  schema !! key = Some kind ->
  attrs !! key = Some v ->
  kind_of v = Some k -> validated_kind k -> k <> kind ->
  PartialUpdate r id schema iter attrs w = (0, Some ErrUnprocessable, w).
Proof.
  intros Hiter Hs Ha Hk Hval Hne. unfold PartialUpdate.
  assert (Hs0 : Nat.eqb (size schema) 0 = false).
  { destruct (Nat.eqb (size schema) 0) eqn:E; [|reflexivity].
    apply size_zero_empty in E. subst schema. now rewrite lookup_empty in Hs. }
  assert (Ha0 : Nat.eqb (size attrs) 0 = false).
  { destruct (Nat.eqb (size attrs) 0) eqn:E; [|reflexivity].
    apply size_zero_empty in E. subst attrs. now rewrite lookup_empty in Ha. }
  rewrite Hs0, Ha0. simpl.
  rewrite (PartialUpdate_loop_rejects iter attrs key kind v); [reflexivity| |assumption|].
  - now apply (range_order_elem schema).
  - now apply (type_switch_rejects_kind v kind k).
Qed.

Lemma PartialUpdate_rejects_mismatch_witness :
  PartialUpdate {| db := one_row; rec := users |} 1 name_schema
    (map_to_list name_schema) name_is_5 fresh
  = (0, Some ErrUnprocessable, fresh).
Proof.
  apply (PartialUpdate_rejects_mismatch {| db := one_row; rec := users |} 1
           name_schema (map_to_list name_schema) name_is_5 fresh
           "name" reflect.String reflect.Int (VInt 5)).
  - apply range_order_self.
  - reflexivity.
  - reflexivity.
  - reflexivity.
  - right; left; reflexivity.
  - discriminate.
Defined.

(** C3, as the claim states it, fails: the type switch matches the types
    [string], [int] and [bool] themselves, so a value of a defined type
    whose kind is String (a [json.Number], say) is not checked against the
    schema, and the UPDATE is executed although the schema declares Int. *)
Lemma PartialUpdate_defined_type_not_rejected :
  runtime_kind (VOther reflect.String 0) = Some reflect.String /\
  PartialUpdate {| db := one_row; rec := users |} 7 age_schema
    (map_to_list age_schema) age_is_number fresh =
    (1, None,
     {| handle := 1%nat;
        calls := [CallExec "UPDATE users SET age = ? WHERE id = ?;"
                    [VOther reflect.String 0; VInt64 7]] |}) /\
  ~ (forall (schema : gmap string reflect.Kind)
            (iter : list (string * reflect.Kind)) (attrs : gmap string any)
            (key : string) (kind k : reflect.Kind) (v : any),
       range_order schema iter ->
       schema !! key = Some kind -> attrs !! key = Some v ->
       runtime_kind v = Some k -> validated_kind k -> k <> kind ->
       PartialUpdate {| db := one_row; rec := users |} 7 schema iter attrs fresh
         = (0, Some ErrUnprocessable, fresh)).
Proof.
  split; [reflexivity|].
  assert (Hrun :
    PartialUpdate {| db := one_row; rec := users |} 7 age_schema
      (map_to_list age_schema) age_is_number fresh =
      (1, None,
       {| handle := 1%nat;
          calls := [CallExec "UPDATE users SET age = ? WHERE id = ?;"
                      [VOther reflect.String 0; VInt64 7]] |}))
    by (vm_compute; reflexivity).
  split; [exact Hrun|].
  intros Hclaim.
  specialize (Hclaim age_schema (map_to_list age_schema) age_is_number
                "age" reflect.Int reflect.String (VOther reflect.String 0)).
  rewrite Hrun in Hclaim.
  assert (Habs : (1, None,
                  {| handle := 1%nat;
                     calls := [CallExec "UPDATE users SET age = ? WHERE id = ?;"
                                 [VOther reflect.String 0; VInt64 7]] |})
                 = (0, Some ErrUnprocessable, fresh)).
  { apply Hclaim.
    - unfold range_order. reflexivity.
    - reflexivity.
    - reflexivity.
    - reflexivity.
    - left. reflexivity.
    - discriminate. }
  discriminate Habs.
Qed.

(** C6: with an empty schema, with an empty attribute map, or when no key of
    the schema occurs in the attribute map, [PartialUpdate] returns
    [(0, nil)] and the handle receives no call. *)
Theorem PartialUpdate_nothing_to_update {S D : Type} (r : Repository S D)
    (id : Z) (schema : gmap string reflect.Kind)
    (iter : list (string * reflect.Kind)) (attrs : gmap string any)
    (w : world S) :
  range_order schema iter ->
  schema = ∅ \/ attrs = ∅ \/
    (forall key, is_Some (schema !! key) -> attrs !! key = None) ->
  PartialUpdate r id schema iter attrs w = (0, None, w).
Proof.
  intros Hiter Hcases. unfold PartialUpdate.
  destruct (Nat.eqb (size schema) 0 || Nat.eqb (size attrs) 0); [reflexivity|].
  rewrite PartialUpdate_loop_skips; [reflexivity|].
  intros key kind Hin. apply (range_order_elem schema) in Hin; [|assumption].
  destruct Hcases as [->|[->|Hnone]].
  - now rewrite lookup_empty in Hin.
  - apply lookup_empty.
  - apply Hnone. now exists kind.
Qed.

Lemma PartialUpdate_nothing_to_update_witness :
  PartialUpdate {| db := one_row; rec := users |} 1 name_schema
    (map_to_list name_schema) two_attrs fresh
  = (0, None, fresh).
Proof.
  apply (PartialUpdate_nothing_to_update {| db := one_row; rec := users |} 1
           name_schema (map_to_list name_schema) two_attrs fresh).
  - apply range_order_self.
  - right; right. intros key [kind Hk].
    unfold name_schema in Hk. apply lookup_singleton_Some in Hk as [<- _].
    reflexivity.
Defined.

(* ================================================================= *)
(** ** [GetByAttrs] *)

Lemma GetByAttrs_loop_collects (iter : list (string * any))
    (keyLines : list string) (values : list any) :
  GetByAttrs_loop iter keyLines values =
    (keyLines ++ ((fun kv => kv.1 +:+ " = ?") <$> iter), values ++ iter.*2).
Proof.
  revert keyLines values.
  induction iter as [|[k v] iter IH]; intros keyLines values; simpl.
  - now rewrite !app_nil_r.
  - rewrite IH, <- !app_assoc. reflexivity.
Qed.

(** What [GetByAttrs] sends for a non-empty map: one "col = ?" term per
    entry in iteration order, joined by a comma and a space, with the
    values of the entries as arguments in the same order. *)
Lemma GetByAttrs_sends {S D : Type} (r : Repository S D) (dest : D)
    (attrs : gmap string any) (iter : list (string * any)) (w : world S) :
  range_order attrs iter -> attrs <> ∅ ->
  let q := "SELECT * FROM " +:+ TableName (rec r) +:+ " WHERE "
           +:+ gostrings.Join ((fun kv => kv.1 +:+ " = ?") <$> iter) ", "
           +:+ ";" in
  GetByAttrs r dest attrs iter w = db_Get r PtrCaller dest q (iter.*2) w.
Proof.
  intros Hiter Hne q. unfold GetByAttrs.
  destruct (Nat.eqb (size attrs) 0) eqn:E.
  { apply size_zero_empty in E. contradiction. }
  rewrite GetByAttrs_loop_collects, !app_nil_l.
  rewrite length_fmap, (range_order_length attrs iter Hiter), E.
  fold q.
  destruct (db_Get r PtrCaller dest q (iter.*2) w) as [[d err] w'].
  now destruct err.
Qed.

(** C1, at the map [{"a": 1, "b": 2}]: in either iteration order the two
    terms of the WHERE clause are joined by a comma, not by AND; the
    arguments are the values in the order of the terms. *)
Theorem GetByAttrs_joins_with_comma (iter : list (string * any)) :
  range_order two_attrs iter ->
  exists q args,
    calls (GetByAttrs {| db := one_row; rec := users |} tt two_attrs iter fresh).2
      = [CallGet q args] /\
    (q = "SELECT * FROM users WHERE a = ?, b = ?;" /\ args = [VInt 1; VInt 2] \/
     q = "SELECT * FROM users WHERE b = ?, a = ?;" /\ args = [VInt 2; VInt 1]) /\
    q <> "SELECT * FROM users WHERE " +:+ conjunction iter +:+ ";".
Proof.
  intros Hiter.
  assert (Hcases : iter = [("a", VInt 1); ("b", VInt 2)] \/
                   iter = [("b", VInt 2); ("a", VInt 1)]).
  { apply Permutation_length_2_inv. symmetry. exact Hiter. }
  destruct Hcases as [-> | ->]; eexists; eexists;
    (split; [vm_compute; reflexivity|]);
    (split; [auto|]); vm_compute; discriminate.
Qed.

Lemma GetByAttrs_joins_with_comma_witness :
  exists q args,
    calls (GetByAttrs {| db := one_row; rec := users |} tt two_attrs
             (map_to_list two_attrs) fresh).2
      = [CallGet q args] /\
    (q = "SELECT * FROM users WHERE a = ?, b = ?;" /\ args = [VInt 1; VInt 2] \/
     q = "SELECT * FROM users WHERE b = ?, a = ?;" /\ args = [VInt 2; VInt 1]) /\
    q <> "SELECT * FROM users WHERE " +:+ conjunction (map_to_list two_attrs) +:+ ";".
Proof.
  apply (GetByAttrs_joins_with_comma (map_to_list two_attrs)).
  apply range_order_self.
Defined.

(* ================================================================= *)
(** ** [ParseListOptions] *)

Lemma wrap64_small (n : N) :
  (n <= strconv.maxUint64)%N -> strconv.wrap64 n = n.
Proof.
  intros Hn. unfold strconv.wrap64. apply N.mod_small.
  unfold strconv.maxUint64 in Hn. lia.
Qed.

Lemma wrap64_once (n : N) :
  (strconv.maxUint64 < n < 2 * 18446744073709551616)%N ->
  strconv.wrap64 n = (n - 18446744073709551616)%N.
Proof.
  intros Hn. unfold strconv.wrap64, strconv.maxUint64 in *.
  symmetry. apply (N.mod_unique n _ 1); lia.
Qed.

Lemma cutoff_value : strconv.cutoff = 1844674407370955162%N.
Proof. vm_compute. reflexivity. Qed.

Lemma decimal_cons (c : Z) (l : list Z) (acc : N) :
  decimal (c :: l) acc = decimal l (acc * 10 + Z.to_N (c - 48))%N.
Proof. reflexivity. Qed.

Lemma decimal_ge (l : list Z) (acc : N) : (acc <= decimal l acc)%N.
Proof.
  revert acc. induction l as [|c l IH]; intros acc; [simpl; lia|].
  rewrite decimal_cons. specialize (IH (acc * 10 + Z.to_N (c - 48))%N). lia.
Qed.

Lemma is_digitb_true (c : Z) : is_digitb c = true <-> is_digit c.
Proof. unfold is_digitb, is_digit. rewrite andb_true_iff, !Z.leb_le. tauto. Qed.

Lemma leading_digits_all (l : list Z) :
  Forall is_digit l -> leading_digits l = (l, []).
Proof.
  induction 1 as [|c l Hc Hl IH]; [reflexivity|].
  cbn [leading_digits]. apply is_digitb_true in Hc. now rewrite Hc, IH.
Qed.

(** The loop reads the leading digits exactly: the wrap-around of [uint64]
    is never observed, a value that does not fit gives the range error
    with the largest value, and a byte that is not a digit the syntax
    error with 0. *)
Lemma ParseUint_loop_reads (l : list Z) (n : N) :
  (n <= strconv.maxUint64)%N ->
  strconv.ParseUint_loop l n =
    let '(ds, rest) := leading_digits l in
    if (strconv.maxUint64 <? decimal ds n)%N
    then (strconv.maxUint64, Some strconv.ErrRange)
    else match rest with
         | [] => (decimal ds n, None)
         | _ :: _ => (0%N, Some strconv.ErrSyntax)
         end.
Proof.
  revert n. induction l as [|c l IH]; intros n Hn.
  - simpl. destruct (N.ltb_spec strconv.maxUint64 n); [lia | reflexivity].
  - cbn [strconv.ParseUint_loop leading_digits]. fold (is_digitb c).
    destruct (is_digitb c) eqn:Hc.
    + apply is_digitb_true in Hc. unfold is_digit in Hc.
      set (d := Z.to_N (c - 48)).
      assert (Hd : (d <= 9)%N) by (subst d; lia).
      specialize (IH (n * 10 + d)%N).
      destruct (leading_digits l) as [ds rest].
      rewrite decimal_cons. fold d.
      pose proof (decimal_ge ds (n * 10 + d)%N) as Hge.
      replace (strconv.base <=? d)%N with false
        by (symmetry; apply N.leb_gt; unfold strconv.base; lia).
      unfold strconv.maxVal, strconv.base.
      destruct (N.leb_spec strconv.cutoff n) as [Hcut|Hcut].
      * rewrite cutoff_value in Hcut.
        replace (strconv.maxUint64 <? decimal ds (n * 10 + d))%N with true;
          [reflexivity|].
        symmetry. apply N.ltb_lt. unfold strconv.maxUint64 in *. lia.
      * rewrite cutoff_value in Hcut.
        rewrite (wrap64_small (n * 10)) by (unfold strconv.maxUint64; lia).
        destruct (N.le_gt_cases (n * 10 + d) strconv.maxUint64) as [Hfit|Hover].
        -- rewrite (wrap64_small _ Hfit).
           replace (n * 10 + d <? n * 10)%N with false
             by (symmetry; apply N.ltb_ge; lia).
           replace (strconv.maxUint64 <? n * 10 + d)%N with false
             by (symmetry; apply N.ltb_ge; lia).
           simpl. apply IH, Hfit.
        -- rewrite wrap64_once by (unfold strconv.maxUint64 in *; lia).
           replace (n * 10 + d - 18446744073709551616 <? n * 10)%N with true
             by (symmetry; apply N.ltb_lt; unfold strconv.maxUint64 in *; lia).
           simpl.
           replace (strconv.maxUint64 <? decimal ds (n * 10 + d))%N with true;
             [reflexivity|].
           symmetry. apply N.ltb_lt. lia.
    + replace (strconv.maxUint64 <? decimal [] n)%N with false
        by (symmetry; apply N.ltb_ge; exact Hn).
      destruct ((97 <=? strconv.lower c) && (strconv.lower c <=? 122)) eqn:Hl;
        [|reflexivity].
      apply andb_true_iff in Hl as [Hl1 Hl2]. apply Z.leb_le in Hl1.
      replace (strconv.base <=? Z.to_N (strconv.lower c - 97 + 10))%N with true;
        [reflexivity|].
      symmetry. apply N.leb_le. unfold strconv.base. lia.
Qed.

Lemma ParseUint_reads (s : string) :
  (strconv.ParseUint s).1 = number_read s.
Proof.
  unfold strconv.ParseUint, number_read.
  destruct (String.eqb s ""); [reflexivity|].
  rewrite ParseUint_loop_reads by (unfold strconv.maxUint64; lia).
  destruct (leading_digits (bytes s)) as [ds rest].
  destruct (strconv.maxUint64 <? decimal ds 0)%N; [reflexivity|].
  now destruct rest.
Qed.

Lemma bytes_String (c : ascii) (s : string) :
  bytes (String c s) = byte_of_ascii c :: bytes s.
Proof. reflexivity. Qed.

Lemma string_of_uint_digits (d : Decimal.uint) :
  Forall is_digit (bytes (NilEmpty.string_of_uint d)).
Proof.
  induction d; cbn [NilEmpty.string_of_uint]; rewrite ?bytes_String;
    constructor; try assumption; unfold is_digit; vm_compute; split; discriminate.
Qed.

Lemma string_of_uint_decimal (d : Decimal.uint) (acc : N) :
  decimal (bytes (NilEmpty.string_of_uint d)) acc = uint_decimal d acc.
Proof.
  revert acc. induction d; intros acc; cbn [NilEmpty.string_of_uint uint_decimal];
    rewrite ?bytes_String, ?decimal_cons; [reflexivity | apply IHd ..].
Qed.

Lemma of_uint_acc_decimal (d : Decimal.uint) (acc : positive) :
  N.pos (Pos.of_uint_acc d acc) = uint_decimal d (N.pos acc).
Proof.
  revert acc. induction d; intros acc; cbn [Pos.of_uint_acc uint_decimal];
    [reflexivity | rewrite IHd; f_equal; lia ..].
Qed.

Lemma of_uint_decimal (d : Decimal.uint) : N.of_uint d = uint_decimal d 0.
Proof.
  unfold N.of_uint.
  induction d; cbn [Pos.of_uint uint_decimal];
    [reflexivity | exact IHd | rewrite of_uint_acc_decimal; reflexivity ..].
Qed.

(** [%d] prints digits, at least one, whose decimal value is the number. *)
Lemma fmt_d_digits (n : N) :
  fmt_d n <> "" /\ Forall is_digit (bytes (fmt_d n)) /\
  decimal (bytes (fmt_d n)) 0 = n.
Proof.
  unfold fmt_d, NilZero.string_of_uint.
  pose proof (DecimalN.Unsigned.of_to n) as Hn. rewrite of_uint_decimal in Hn.
  destruct (N.to_uint n) eqn:E;
    try (split; [discriminate|]; split;
         [apply string_of_uint_digits | now rewrite string_of_uint_decimal]).
  split; [discriminate|]. split; [|simpl in Hn; rewrite <- Hn; reflexivity].
  change (bytes "0") with [48].
  constructor; [unfold is_digit; lia | constructor].
Qed.

Lemma number_read_fmt_d (n : N) :
  (n <= strconv.maxUint64)%N -> number_read (fmt_d n) = n.
Proof.
  intros Hn. destruct (fmt_d_digits n) as (Hne & Hd & Hv).
  unfold number_read. destruct (String.eqb_spec (fmt_d n) ""); [contradiction|].
  rewrite (leading_digits_all _ Hd), Hv.
  destruct (N.ltb_spec strconv.maxUint64 n); [lia | reflexivity].
Qed.

(** X13: [ParseListOptions] reads [offset] and [limit] as decimal numbers:
    the leading digits of the first value, [maxUint64] when they denote a
    larger number, and 0 when the parameter is missing, empty or has a byte
    that is not a digit; [order] and [by] are copied as they are, and the
    table and the filter are left unset. *)
Theorem ParseListOptions_reads (q : gmap string (list string)) :
  ParseListOptions q =
    {| Table := "";
       Offset := number_read (url.Get q "offset");
       Limit := number_read (url.Get q "limit");
       OrderByColumn := url.Get q "by";
       Order := url.Get q "order";
       WhereColumn := "";
       WhereValue := VNil |}.
Proof.
  unfold ParseListOptions. now rewrite !ParseUint_reads.
Qed.

(** X14: a limit and an offset printed with [%d], as [BuildQuery] prints
    them, are read back by [ParseListOptions] as the same numbers. *)
Theorem ParseListOptions_round_trip (limit offset : N) :
  (limit <= strconv.maxUint64)%N -> (offset <= strconv.maxUint64)%N ->
  Limit (ParseListOptions (paging limit offset)) = limit /\
  Offset (ParseListOptions (paging limit offset)) = offset.
Proof.
  intros Hl Ho. unfold ParseListOptions, paging. cbn [Limit Offset].
  rewrite !ParseUint_reads. unfold url.Get.
  rewrite lookup_insert_eq.
  rewrite lookup_insert_ne by discriminate. rewrite lookup_singleton_eq.
  split; now apply number_read_fmt_d.
Qed.

Lemma ParseListOptions_round_trip_witness :
  Limit (ParseListOptions (paging 10 20)) = 10%N /\
  Offset (ParseListOptions (paging 10 20)) = 20%N.
Proof.
  apply (ParseListOptions_round_trip 10 20);
    unfold strconv.maxUint64; lia.
Defined.

Example ParseUint_examples :
  strconv.ParseUint "42" = (42%N, None) /\
  strconv.ParseUint "" = (0%N, Some strconv.ErrSyntax) /\
  strconv.ParseUint "12a" = (0%N, Some strconv.ErrSyntax) /\
  strconv.ParseUint "+5" = (0%N, Some strconv.ErrSyntax) /\
  strconv.ParseUint "18446744073709551615" = (18446744073709551615%N, None) /\
  strconv.ParseUint "18446744073709551616"
    = (18446744073709551615%N, Some strconv.ErrRange) /\
  strconv.ParseUint "99999999999999999999999x"
    = (18446744073709551615%N, Some strconv.ErrRange).
Proof. repeat split; vm_compute; reflexivity. Qed.

(* ================================================================= *)
(** ** Placeholders *)

Lemma placeholders_append (a b : string) :
  placeholders (a +:+ b) = (placeholders a + placeholders b)%nat.
Proof.
  induction a as [|c a IH]; [reflexivity|].
  rewrite append_cons. simpl. rewrite IH. lia.
Qed.

Lemma placeholders_digits (s : string) :
  Forall is_digit (bytes s) -> placeholders s = O.
Proof.
  induction s as [|c s IH]; [reflexivity|].
  rewrite bytes_String. intros Hd. inversion Hd as [|? ? Hc Hs]; subst.
  simpl. rewrite (IH Hs).
  destruct (Ascii.eqb_spec c "?") as [->|]; [|reflexivity].
  unfold is_digit in Hc. vm_compute in Hc. destruct Hc as [_ Hc]. now elim Hc.
Qed.

Lemma placeholders_fmt_d (n : N) : placeholders (fmt_d n) = O.
Proof. apply placeholders_digits, fmt_d_digits. Qed.

Lemma placeholders_term (k : string) :
  placeholders (k +:+ " = ?") = S (placeholders k).
Proof. rewrite placeholders_append. simpl. lia. Qed.

Lemma Join_cons_cons (a b : string) (l : list string) (sep : string) :
  gostrings.Join (a :: b :: l) sep = a +:+ sep +:+ gostrings.Join (b :: l) sep.
Proof. reflexivity. Qed.

(** The terms of a column list hold one placeholder per column when the
    column names hold none. *)
Lemma placeholders_terms (cols : list (string * any)) :
  Forall (fun kv => placeholders kv.1 = O) cols ->
  placeholders (gostrings.Join ((fun kv => kv.1 +:+ " = ?") <$> cols) ", ")
  = length cols.
Proof.
  induction 1 as [|kv cols Hkv Hcols IH]; [reflexivity|].
  rewrite fmap_cons. destruct cols as [|kv' cols].
  - simpl. rewrite placeholders_term, Hkv. reflexivity.
  - rewrite fmap_cons in *. rewrite Join_cons_cons.
    rewrite placeholders_append, placeholders_term, Hkv.
    rewrite placeholders_append, IH. simpl. lia.
Qed.

Section BuildQuery_extras.

Context `{CaseTables}.

Lemma placeholders_ParseOrder (order : string) :
  placeholders (ParseOrder order) = O.
Proof. destruct (ParseOrder_two_outputs order) as [-> | ->]; reflexivity. Qed.

(** X3: [ParseOrder] is idempotent: its two outputs are fixed points, so a
    direction that was already resolved is resolved to itself. *)
Theorem ParseOrder_idempotent (order : string) :
  ParseOrder (ParseOrder order) = ParseOrder order.
Proof.
  destruct (ParseOrder_two_outputs order) as [-> | ->];
    vm_compute; reflexivity.
Qed.

(** X4: when the table and column names hold no [?], the query of
    [BuildQuery] has exactly as many placeholders as there are
    arguments. *)
Theorem BuildQuery_balanced (opt : ListOptions) :
  placeholders (Table opt) = O ->
  placeholders (WhereColumn opt) = O ->
  placeholders (OrderByColumn opt) = O ->
  placeholders (BuildQuery opt).1 = length (BuildQuery opt).2.
Proof.
  intros Ht Hw Ho. rewrite BuildQuery_clauses. cbn [fst snd].
  unfold table_clause, filter_clause, filter_args, order_clause,
    limit_clause, offset_clause.
  repeat case_decide;
    rewrite ?placeholders_append, ?placeholders_fmt_d,
      ?placeholders_ParseOrder, ?Ht, ?Hw, ?Ho; reflexivity.
Qed.

(** X5: [Where] then [BuildQuery]: with a column and a value that is not
    nil, the query filters on that column, whatever filter the options had
    before, and the value is the only argument; the other clauses are those
    of the options. *)
Theorem BuildQuery_Where (opt : ListOptions) (col : string) (v : any) :
  col <> "" -> v <> VNil ->
  BuildQuery (Where opt col v) =
    (table_clause opt +:+ " WHERE " +:+ col +:+ " = ?"
       +:+ order_clause opt +:+ limit_clause opt +:+ offset_clause opt,
     [v]).
Proof.
  intros Hc Hv. rewrite BuildQuery_clauses.
  unfold filter_clause, filter_args, filter_set. cbn [Where WhereColumn WhereValue].
  case_decide as Hf; [|tauto].
  rewrite !append_assoc. reflexivity.
Qed.

End BuildQuery_extras.

Lemma BuildQuery_balanced_witness :
  placeholders
    (@BuildQuery latin_fragment
       {| Table := "users"; Offset := 20; Limit := 10; OrderByColumn := "name";
          Order := "desc"; WhereColumn := "id"; WhereValue := VInt 5 |}).1
  = 1%nat.
Proof.
  apply (@BuildQuery_balanced latin_fragment
           {| Table := "users"; Offset := 20; Limit := 10;
              OrderByColumn := "name"; Order := "desc";
              WhereColumn := "id"; WhereValue := VInt 5 |}); reflexivity.
Defined.

Lemma BuildQuery_Where_witness :
  @BuildQuery latin_fragment
    (Where {| Table := "users"; Offset := 0; Limit := 0; OrderByColumn := "";
              Order := ""; WhereColumn := "age"; WhereValue := VInt 3 |}
       "id" (VInt 5))
  = ("SELECT * FROM users WHERE id = ?", [VInt 5]).
Proof.
  apply (@BuildQuery_Where latin_fragment
           {| Table := "users"; Offset := 0; Limit := 0; OrderByColumn := "";
              Order := ""; WhereColumn := "age"; WhereValue := VInt 3 |}
           "id" (VInt 5)); discriminate.
Defined.

(* ================================================================= *)
(** ** The columns of a partial update *)

Lemma type_switch_rejects_iff (v : any) (kind : reflect.Kind) :
  type_switch_rejects v kind = true <->
  exists k, kind_of v = Some k /\ validated_kind k /\ k <> kind.
Proof.
  split.
  - assert (Hne : forall k, negb (reflect.Kind_eqb kind k) = true -> k <> kind).
    { intros k Hk ->. apply negb_true_iff in Hk.
      assert (reflect.Kind_eqb kind kind = true) by now apply Kind_eqb_eq.
      congruence. }
    unfold validated_kind.
    destruct v; simpl; try discriminate; intros Hr; eexists;
      (split; [reflexivity|]); (split; [|now apply Hne]); auto.
  - intros (k & Hk & Hv & Hne). now apply (type_switch_rejects_kind v kind k).
Qed.

Lemma shared_cons (key : string) (kind : reflect.Kind)
    (iter : list (string * reflect.Kind)) (attrs : gmap string any) :
  shared ((key, kind) :: iter) attrs =
    match attrs !! key with
    | Some v => (key, v) :: shared iter attrs
    | None => shared iter attrs
    end.
Proof. reflexivity. Qed.

Lemma elem_of_shared (iter : list (string * reflect.Kind))
    (attrs : gmap string any) (k : string) (v : any) :
  (k, v) ∈ shared iter attrs <->
  (exists kind, (k, kind) ∈ iter) /\ attrs !! k = Some v.
Proof.
  induction iter as [|[key kind] iter IH].
  - simpl. split; [intros Hin; inversion Hin|].
    intros [[kind Hin] _]. inversion Hin.
  - rewrite shared_cons. destruct (attrs !! key) as [v'|] eqn:E.
    + rewrite elem_of_cons, IH. split.
      * intros [[= -> ->]|[[kind' Hin] Hv]].
        -- split; [exists kind; apply list_elem_of_here | exact E].
        -- split; [exists kind'; now apply list_elem_of_further | exact Hv].
      * intros [[kind' Hin] Hv]. apply elem_of_cons in Hin as [[= -> ->]|Hin].
        -- left. congruence.
        -- right. split; [now exists kind' | exact Hv].
    + rewrite IH. split.
      * intros [[kind' Hin] Hv].
        split; [exists kind'; now apply list_elem_of_further | exact Hv].
      * intros [[kind' Hin] Hv]. apply elem_of_cons in Hin as [[= -> ->]|Hin].
        -- congruence.
        -- split; [now exists kind' | exact Hv].
Qed.

Lemma shared_keys_sublist (iter : list (string * reflect.Kind))
    (attrs : gmap string any) :
  sublist (shared iter attrs).*1 iter.*1.
Proof.
  induction iter as [|[key kind] iter IH]; [constructor|].
  rewrite shared_cons. destruct (attrs !! key).
  - rewrite !fmap_cons. now apply sublist_skip.
  - rewrite fmap_cons. now apply sublist_cons.
Qed.

(** The loop collects the shared entries, unless it rejects one. *)
Lemma PartialUpdate_loop_result (iter : list (string * reflect.Kind))
    (attrs : gmap string any) (keyLines : list string) (values : list any) :
  PartialUpdate_loop iter attrs keyLines values = inl (0, Some ErrUnprocessable) /\
    (exists key kind v, (key, kind) ∈ iter /\ attrs !! key = Some v /\
                        type_switch_rejects v kind = true)
  \/
  PartialUpdate_loop iter attrs keyLines values =
    inr (keyLines ++ ((fun kv => kv.1 +:+ " = ?") <$> shared iter attrs),
         values ++ (shared iter attrs).*2) /\
    (forall key kind v, (key, kind) ∈ iter -> attrs !! key = Some v ->
                        type_switch_rejects v kind = false).
Proof.
  revert keyLines values.
  induction iter as [|[key kind] iter IH]; intros keyLines values.
  - right. simpl. rewrite !app_nil_r. split; [reflexivity|].
    intros key kind v Hin. inversion Hin.
  - rewrite PartialUpdate_loop_cons, shared_cons.
    destruct (attrs !! key) as [v|] eqn:E.
    + destruct (type_switch_rejects v kind) eqn:R.
      * left. split; [reflexivity|]. exists key, kind, v.
        split; [apply list_elem_of_here | auto].
      * destruct (IH (keyLines ++ [key +:+ " = ?"]) (values ++ [v]))
          as [[-> (k' & kd' & v' & Hin & Hv & Hr)]|[-> Hok]].
        -- left. split; [reflexivity|]. exists k', kd', v'.
           split; [now apply list_elem_of_further | auto].
        -- right. split.
           ++ rewrite !fmap_cons, <- !app_assoc. reflexivity.
           ++ intros k' kd' v' Hin Hv.
              apply elem_of_cons in Hin as [[= -> ->]|Hin]; [congruence|].
              now apply (Hok k' kd' v').
    + destruct (IH keyLines values)
        as [[-> (k' & kd' & v' & Hin & Hv & Hr)]|[-> Hok]].
      * left. split; [reflexivity|]. exists k', kd', v'.
        split; [now apply list_elem_of_further | auto].
      * right. split; [reflexivity|].
        intros k' kd' v' Hin Hv.
        apply elem_of_cons in Hin as [[= -> ->]|Hin]; [congruence|].
        now apply (Hok k' kd' v').
Qed.

Lemma PartialUpdate_loop_ext (iter : list (string * reflect.Kind))
    (attrs1 attrs2 : gmap string any) (keyLines : list string)
    (values : list any) :
  (forall key kind, (key, kind) ∈ iter -> attrs1 !! key = attrs2 !! key) ->
  PartialUpdate_loop iter attrs1 keyLines values =
  PartialUpdate_loop iter attrs2 keyLines values.
Proof.
  revert keyLines values.
  induction iter as [|[key kind] iter IH]; intros keyLines values Hext;
    [reflexivity|].
  rewrite !PartialUpdate_loop_cons.
  rewrite <- (Hext key kind) by apply list_elem_of_here.
  assert (Hext' : forall k kd, (k, kd) ∈ iter -> attrs1 !! k = attrs2 !! k).
  { intros k kd Hin. apply (Hext k kd). now apply list_elem_of_further. }
  destruct (attrs1 !! key) as [v|]; [|now apply IH].
  destruct (type_switch_rejects v kind); [reflexivity | now apply IH].
Qed.

Lemma served_ne {S : Type} (w : world S) (h : S) (c : call) : served w h c <> w.
Proof.
  intros Heq. apply (f_equal calls) in Heq. simpl in Heq.
  apply (f_equal length) in Heq. rewrite length_app in Heq. simpl in Heq. lia.
Qed.

Lemma db_Exec_served {S D : Type} (r : Repository S D) (q : string)
    (args : list any) (w : world S) :
  (db_Exec r q args w).2 = served w (db_Exec r q args w).2.(handle) (CallExec q args).
Proof.
  unfold db_Exec. destruct (Exec (db r) q args (handle w)) as [[res err] h].
  reflexivity.
Qed.

(** What [PartialUpdate] does once the guards and the loop are passed. *)
Lemma PartialUpdate_unfold {S D : Type} (r : Repository S D) (id : Z)
    (schema : gmap string reflect.Kind) (iter : list (string * reflect.Kind))
    (attrs : gmap string any) (w : world S) :
  schema <> ∅ -> attrs <> ∅ ->
  PartialUpdate r id schema iter attrs w =
    match PartialUpdate_loop iter attrs [] [] with
    | inl (n, err) => (n, err, w)
    | inr (keyLines, values) =>
        if Nat.eqb (length values) 0 then (0, None, w) else
        let q := "UPDATE " +:+ TableName (rec r) +:+ " SET "
                 +:+ gostrings.Join keyLines ", " +:+ " WHERE "
                 +:+ PrimaryKey (rec r) +:+ " = ?;" in
        let '(res, err, w) := db_Exec r q (values ++ [VInt64 id]) w in
        match err with
        | Some e => (0, Some e, w)
        | None => (GetAffectedRows res, None, w)
        end
    end.
Proof.
  intros Hs Ha. unfold PartialUpdate.
  destruct (Nat.eqb (size schema) 0) eqn:E1.
  { apply size_zero_empty in E1. contradiction. }
  destruct (Nat.eqb (size attrs) 0) eqn:E2.
  { apply size_zero_empty in E2. contradiction. }
  reflexivity.
Qed.

(** The shared entries are the entries of the attribute map whose key the
    schema has, each once. *)
Lemma shared_columns (schema : gmap string reflect.Kind)
    (iter : list (string * reflect.Kind)) (attrs : gmap string any) :
  range_order schema iter ->
  (forall k v, (k, v) ∈ shared iter attrs <->
               is_Some (schema !! k) /\ attrs !! k = Some v) /\
  NoDup (shared iter attrs).*1.
Proof.
  intros Hiter. split.
  - intros k v. rewrite elem_of_shared. split.
    + intros [[kind Hin] Hv]. split; [|exact Hv]. exists kind.
      now apply (range_order_elem schema iter).
    + intros [[kind Hs] Hv]. split; [|exact Hv]. exists kind.
      now apply (range_order_elem schema iter).
  - apply (sublist_NoDup _ iter.*1); [|apply shared_keys_sublist].
    unfold range_order in Hiter. rewrite Hiter. apply NoDup_fst_map_to_list.
Qed.

(** X7: when no shared value is rejected and at least one key is shared,
    [PartialUpdate] executes one UPDATE on the handle, whose SET list has
    one "col = ?" term per column, in the order of the visit and joined by
    commas, and whose arguments are the values of the columns followed by
    the id; it returns the affected-row count of the result, or 0 with the
    error of the handle, and the call is logged.  The columns are exactly
    the entries of the attribute map whose key the schema has, each once:
    an attribute that the schema does not name is never written. *)
Theorem PartialUpdate_sends {S D : Type} (r : Repository S D) (id : Z)
    (schema : gmap string reflect.Kind) (iter : list (string * reflect.Kind))
    (attrs : gmap string any) (w : world S)
    (res : option Result) (err : option error) (h : S) :
  range_order schema iter ->
  (forall key kind v k,
      schema !! key = Some kind -> attrs !! key = Some v ->
      kind_of v = Some k -> validated_kind k -> k = kind) ->
  (exists key, is_Some (schema !! key) /\ is_Some (attrs !! key)) ->
  let cols := shared iter attrs in
  let q := PartialUpdate_query (rec r) cols in
  let args := cols.*2 ++ [VInt64 id] in
  Exec (db r) q args (handle w) = (res, err, h) ->
  PartialUpdate r id schema iter attrs w =
    (match err with
     | Some e => (0, Some e)
     | None => (GetAffectedRows res, None)
     end, served w h (CallExec q args)) /\
  (forall k v, (k, v) ∈ cols <->
               is_Some (schema !! k) /\ attrs !! k = Some v) /\
  NoDup cols.*1.
Proof.
  intros Hiter Hok (key & [kind Hs] & [v Ha]) cols q args Hexec.
  subst cols q args.
  split; [|now apply shared_columns].
  rewrite PartialUpdate_unfold;
    [| intros ->; now rewrite lookup_empty in Hs
     | intros ->; now rewrite lookup_empty in Ha].
  destruct (PartialUpdate_loop_result iter attrs [] [])
    as [[_ (k' & kd' & v' & Hin & Hv & Hr)]|[-> _]].
  - exfalso. apply type_switch_rejects_iff in Hr as (k & Hk & Hval & Hne).
    apply Hne. apply (Hok k' kd' v' k); auto.
    now apply (range_order_elem schema iter).
  - rewrite !app_nil_l.
    assert (Hin : (key, v) ∈ shared iter attrs).
    { apply elem_of_shared. split; [|exact Ha]. exists kind.
      now apply (range_order_elem schema iter). }
    replace (Nat.eqb (length (shared iter attrs).*2) 0) with false
      by (destruct (shared iter attrs); [inversion Hin | reflexivity]).
    unfold db_Exec. fold (PartialUpdate_query (rec r) (shared iter attrs)).
    rewrite Hexec. now destruct err.
Qed.

Lemma PartialUpdate_sends_witness :
  let attrs : gmap string any := {[ "name" := VString "Ann"; "age" := VInt 30 ]} in
  let cols := shared (map_to_list name_schema) attrs in
  PartialUpdate {| db := one_row; rec := users |} 7 name_schema
    (map_to_list name_schema) attrs fresh =
    (1, None,
     {| handle := 1%nat;
        calls := [CallExec "UPDATE users SET name = ? WHERE id = ?;"
                    [VString "Ann"; VInt64 7]] |}) /\
  (forall k v, (k, v) ∈ cols <->
               is_Some (name_schema !! k) /\ attrs !! k = Some v) /\
  NoDup cols.*1.
Proof.
  intros attrs cols.
  destruct (PartialUpdate_sends {| db := one_row; rec := users |} 7
              name_schema (map_to_list name_schema) attrs fresh
              (Some (affected 1)) None 1%nat)
    as (Hrun & Hcols & Hnodup).
  - apply range_order_self.
  - intros key kind v k Hs Ha Hk _.
    unfold name_schema in Hs. apply lookup_singleton_Some in Hs as [<- <-].
    assert (Hv : attrs !! "name" = Some (VString "Ann")) by reflexivity.
    rewrite Hv in Ha. injection Ha as <-. simpl in Hk. congruence.
  - exists "name". split; eexists; reflexivity.
  - reflexivity.
  - split; [|split; assumption].
    rewrite Hrun. vm_compute. reflexivity.
Defined.

(** X8: [PartialUpdate] answers [ErrUnprocessable] without a call exactly
    when some key of both maps has a string, int or bool value of another
    kind than the schema declares: the verdict does not depend on the order
    in which the schema is visited. *)
Theorem PartialUpdate_rejects_iff {S D : Type} (r : Repository S D) (id : Z)
    (schema : gmap string reflect.Kind) (iter : list (string * reflect.Kind))
    (attrs : gmap string any) (w : world S) :
  range_order schema iter ->
  (PartialUpdate r id schema iter attrs w = (0, Some ErrUnprocessable, w) <->
   exists key kind v k,
     schema !! key = Some kind /\ attrs !! key = Some v /\
     kind_of v = Some k /\ validated_kind k /\ k <> kind).
Proof.
  intros Hiter. split.
  - unfold PartialUpdate.
    destruct (Nat.eqb (size schema) 0 || Nat.eqb (size attrs) 0);
      [discriminate|].
    destruct (PartialUpdate_loop_result iter attrs [] [])
      as [[_ (key & kind & v & Hin & Hv & Hr)]|[-> _]].
    + intros _. apply type_switch_rejects_iff in Hr as (k & Hk & Hval & Hne).
      exists key, kind, v, k. repeat split; auto.
      now apply (range_order_elem schema iter).
    + destruct (Nat.eqb _ 0); [discriminate|].
      unfold db_Exec. destruct (Exec _ _ _ _) as [[res err] h].
      destruct err; intros [= _ Hw]; now apply (served_ne w h) in Hw.
  - intros (key & kind & v & k & Hs & Ha & Hk & Hval & Hne).
    rewrite PartialUpdate_unfold;
      [| intros ->; now rewrite lookup_empty in Hs
       | intros ->; now rewrite lookup_empty in Ha].
    rewrite (PartialUpdate_loop_rejects iter attrs key kind v);
      [reflexivity | | exact Ha |].
    + now apply (range_order_elem schema iter).
    + apply type_switch_rejects_iff. now exists k.
Qed.

Lemma PartialUpdate_rejects_iff_witness :
  PartialUpdate {| db := one_row; rec := users |} 1 name_schema
    (map_to_list name_schema) name_is_5 fresh
  = (0, Some ErrUnprocessable, fresh) <->
  exists key kind v k,
    name_schema !! key = Some kind /\ name_is_5 !! key = Some v /\
    kind_of v = Some k /\ validated_kind k /\ k <> kind.
Proof.
  apply (PartialUpdate_rejects_iff {| db := one_row; rec := users |} 1
           name_schema (map_to_list name_schema) name_is_5 fresh).
  apply range_order_self.
Defined.

(** X9: attributes that the schema does not name have no effect:
    [PartialUpdate] gives the same result, and sends the same statement,
    as on the attribute map restricted to the keys of the schema. *)
Theorem PartialUpdate_ignores_unknown {S D : Type} (r : Repository S D)
    (id : Z) (schema : gmap string reflect.Kind)
    (iter : list (string * reflect.Kind)) (attrs : gmap string any)
    (w : world S) :
  range_order schema iter ->
  PartialUpdate r id schema iter attrs w =
  PartialUpdate r id schema iter
    (filter (fun kv => is_Some (schema !! kv.1)) attrs) w.
Proof.
  intros Hiter.
  set (known := filter (fun kv => is_Some (schema !! kv.1)) attrs).
  assert (Hext : forall key kind, (key, kind) ∈ iter ->
                                  attrs !! key = known !! key).
  { intros key kind Hin. apply (range_order_elem schema iter) in Hin; [|done].
    subst known. destruct (attrs !! key) as [v|] eqn:E.
    - symmetry. apply map_lookup_filter_Some. split; [done|]. now exists kind.
    - symmetry. apply map_lookup_filter_None. left. exact E. }
  unfold PartialUpdate.
  rewrite (PartialUpdate_loop_ext iter attrs known [] [] Hext).
  destruct (Nat.eqb (size schema) 0); [reflexivity|]. simpl.
  destruct (Nat.eqb (size attrs) 0) eqn:E1;
    destruct (Nat.eqb (size known) 0) eqn:E2; try reflexivity.
  - apply size_zero_empty in E1. subst attrs. subst known.
    rewrite map_filter_empty in E2. discriminate.
  - apply size_zero_empty in E2. rewrite E2.
    rewrite PartialUpdate_loop_skips; [reflexivity|].
    intros key kind _. apply lookup_empty.
Qed.

Lemma PartialUpdate_ignores_unknown_witness :
  PartialUpdate {| db := one_row; rec := users |} 7 name_schema
    (map_to_list name_schema) {[ "name" := VString "Ann"; "age" := VInt 30 ]}
    fresh
  = PartialUpdate {| db := one_row; rec := users |} 7 name_schema
      (map_to_list name_schema)
      (filter (fun kv => is_Some (name_schema !! kv.1))
         {[ "name" := VString "Ann"; "age" := VInt 30 ]})
      fresh.
Proof.
  apply (PartialUpdate_ignores_unknown {| db := one_row; rec := users |} 7
           name_schema (map_to_list name_schema)
           {[ "name" := VString "Ann"; "age" := VInt 30 ]} fresh).
  apply range_order_self.
Defined.

(* ================================================================= *)
(** ** The calls of the methods *)

Lemma queries_only_refl {S : Type} (w : world S) : queries_only w w.
Proof. exists []. rewrite app_nil_r. repeat split; [simpl; lia | constructor]. Qed.

Lemma db_Select_queries {S D : Type} (r : Repository S D) (t : dest_type)
    (dest : pointee D t) (q : string) (args : list any) (w : world S) :
  queries_only w (db_Select r t dest q args w).2.
Proof.
  unfold db_Select. destruct (Select _ _ _ _ _ _) as [[d err] h].
  exists [CallSelect q args]. repeat split; [simpl; lia|].
  constructor; [reflexivity | constructor].
Qed.

Lemma db_Get_queries {S D : Type} (r : Repository S D) (t : dest_type)
    (dest : pointee D t) (q : string) (args : list any) (w : world S) :
  queries_only w (db_Get r t dest q args w).2.
Proof.
  unfold db_Get. destruct (Get _ _ _ _ _ _) as [[d err] h].
  exists [CallGet q args]. repeat split; [simpl; lia|].
  constructor; [reflexivity | constructor].
Qed.

Lemma db_Exec_executes {S D : Type} (r : Repository S D) (q : string)
    (args : list any) (id : Z) (w : world S) :
  executes_only id w (db_Exec r q (args ++ [VInt64 id]) w).2.
Proof.
  unfold db_Exec. destruct (Exec _ _ _ _) as [[res err] h].
  exists [CallExec q (args ++ [VInt64 id])]. repeat split; [simpl; lia|].
  constructor; [|constructor]. split; [reflexivity|]. apply last_snoc.
Qed.

Lemma executes_only_refl {S : Type} (id : Z) (w : world S) : executes_only id w w.
Proof. exists []. rewrite app_nil_r. repeat split; [simpl; lia | constructor]. Qed.

(** X10: the five reading methods extend the log by at most one call and
    never call [Exec]; what the log held before is kept. *)
Theorem reads_only_query {S D : Type} `{CaseTables} (r : Repository S D)
    (dest : D) (id : Z) (attrs : gmap string any)
    (iter : list (string * any)) (opts : ListOptions) (w : world S) :
  queries_only w (Count r w).2 /\
  queries_only w (GetByID r dest id w).2 /\
  queries_only w (GetByAttrs r dest attrs iter w).2 /\
  queries_only w (GetAll r dest w).2 /\
  queries_only w (List r dest opts w).2.
Proof.
  split; [|split; [|split; [|split]]].
  - unfold Count.
    pose proof (db_Select_queries r PtrInt64 0
                  ("SELECT COUNT(DISTINCT " +:+ PrimaryKey (rec r) +:+ ") FROM "
                   +:+ TableName (rec r)) [] w) as Hq.
    destruct (db_Select r PtrInt64 0 _ [] w) as [[total err] w']. exact Hq.
  - unfold GetByID. apply (db_Get_queries r PtrCaller).
  - unfold GetByAttrs.
    destruct (Nat.eqb (size attrs) 0); [apply queries_only_refl|].
    destruct (GetByAttrs_loop iter [] []) as [keyLines values].
    destruct (Nat.eqb (length values) 0); [apply queries_only_refl|].
    match goal with
    | |- context [db_Get r PtrCaller dest ?q values w] =>
        pose proof (db_Get_queries r PtrCaller dest q values w) as Hq;
        destruct (db_Get r PtrCaller dest q values w) as [[d err] w']
    end.
    now destruct err.
  - unfold GetAll. apply (db_Get_queries r PtrCaller).
  - unfold List.
    match goal with
    | |- context [BuildQuery ?o] => destruct (BuildQuery o) as [q args]
    end.
    apply (db_Select_queries r PtrCaller).
Qed.

(** X11: [DeleteByID] and [PartialUpdate] extend the log by at most one
    call, which is an [Exec] whose last argument is the id; neither ever
    calls [Select] or [Get], and [DeleteByID] always executes its
    statement. *)
Theorem writes_only_exec {S D : Type} (r : Repository S D) (id : Z)
    (schema : gmap string reflect.Kind) (iter : list (string * reflect.Kind))
    (attrs : gmap string any) (w : world S) :
  calls (DeleteByID r id w).2 =
    calls w ++ [CallExec (DeleteByID_query (rec r)) [VInt64 id]] /\
  executes_only id w (PartialUpdate r id schema iter attrs w).2.
Proof.
  split.
  - unfold DeleteByID, db_Exec. fold (DeleteByID_query (rec r)).
    destruct (Exec _ _ _ _) as [[res err] h]. now destruct err.
  - unfold PartialUpdate.
    destruct (_ || _); [apply executes_only_refl|].
    destruct (PartialUpdate_loop iter attrs [] []) as [[n err]|[keyLines values]];
      [apply executes_only_refl|].
    destruct (Nat.eqb (length values) 0); [apply executes_only_refl|].
    match goal with
    | |- context [db_Exec r ?q (values ++ [VInt64 id]) w] =>
        pose proof (db_Exec_executes r q values id w) as Hq;
        destruct (db_Exec r q (values ++ [VInt64 id]) w) as [[res err] w']
    end.
    now destruct err.
Qed.

(** X6: [Count] never returns [ErrNoRows], whatever the handle answers, and
    an error that it does return is the error of the handle. *)
Theorem Count_never_no_rows {S D : Type} (r : Repository S D) (w : world S) :
  (Count r w).1.2 <> Some ErrNoRows /\
  (forall e, (Count r w).1.2 = Some e ->
     (Select (db r) PtrInt64 0 (Count_query (rec r)) [] (handle w)).1.2 = Some e).
Proof.
  unfold Count, db_Select. fold (Count_query (rec r)).
  destruct (Select _ _ _ _ _ _) as [[total err] h]. simpl.
  case_decide as He; split; congruence.
Qed.

(** X12: [GetAffectedRows] returns the count of the result as it is,
    whether or not [RowsAffected] also reports an error, and 0 for a nil
    result. *)
Theorem GetAffectedRows_reported (result : Result) (n : Z)
    (e : option error) :
  RowsAffected result = (n, e) -> is_int64 n ->
  GetAffectedRows (Some result) = n /\ GetAffectedRows None = 0.
Proof.
  intros Hr Hn. split; [|reflexivity].
  unfold GetAffectedRows. rewrite Hr. unfold to_int, intSize.
  unfold is_int64 in Hn. rewrite Z.mod_small by lia. lia.
Qed.

Lemma GetAffectedRows_reported_witness :
  GetAffectedRows
    (Some {| LastInsertId := (0, None);
             RowsAffected := (3, Some (ErrOther "driver")) |}) = 3 /\
  GetAffectedRows None = 0.
Proof.
  apply (GetAffectedRows_reported
           {| LastInsertId := (0, None);
              RowsAffected := (3, Some (ErrOther "driver")) |}
           3 (Some (ErrOther "driver"))).
  - reflexivity.
  - unfold is_int64. lia.
Defined.

(* ================================================================= *)
(** ** [GetByAttrs]: one query for a non-empty map *)

(** X1: for a non-empty attribute map [GetByAttrs] sends exactly one [Get]
    to the handle: a SELECT on the record's table whose WHERE clause has
    one "col = ?" term per entry, joined by a comma and a space, with the
    values of the entries as arguments in the order of their terms; every
    entry of the map occurs once, the destination and the error of the
    handle are returned as they are, and the call is logged. *)
Theorem GetByAttrs_one_query {S D : Type} (r : Repository S D) (dest : D)
    (attrs : gmap string any) (iter : list (string * any)) (w : world S)
    (d : D) (err : option error) (h : S) :
  range_order attrs iter -> attrs <> ∅ ->
  Get (db r) PtrCaller dest (GetByAttrs_query (rec r) iter) (iter.*2) (handle w)
    = (d, err, h) ->
  GetByAttrs r dest attrs iter w =
    (d, err, served w h (CallGet (GetByAttrs_query (rec r) iter) (iter.*2))) /\
  NoDup iter.*1 /\
  (forall k v, (k, v) ∈ iter <-> attrs !! k = Some v).
Proof.
  intros Hiter Hne Hget. split; [|split].
  - rewrite (GetByAttrs_sends r dest attrs iter w Hiter Hne).
    unfold db_Get. fold (GetByAttrs_query (rec r) iter). now rewrite Hget.
  - unfold range_order in Hiter. rewrite Hiter. apply NoDup_fst_map_to_list.
  - intros k v. now apply range_order_elem.
Qed.

Lemma GetByAttrs_one_query_witness :
  GetByAttrs {| db := one_row; rec := users |} tt name_is_5
    (map_to_list name_is_5) fresh =
    (tt, None,
     {| handle := 1%nat;
        calls := [CallGet "SELECT * FROM users WHERE name = ?;" [VInt 5]] |}) /\
  NoDup (map_to_list name_is_5).*1 /\
  (forall k v, (k, v) ∈ map_to_list name_is_5 <-> name_is_5 !! k = Some v).
Proof.
  destruct (GetByAttrs_one_query {| db := one_row; rec := users |} tt
              name_is_5 (map_to_list name_is_5) fresh tt None 1%nat)
    as (Hrun & Hnodup & Hin).
  - apply range_order_self.
  - unfold name_is_5. apply insert_non_empty.
  - reflexivity.
  - split; [|split; assumption].
    rewrite Hrun. vm_compute. reflexivity.
Defined.

(* ================================================================= *)
(** ** Placeholders and arguments of the statements sent *)

Lemma Forall_balanced_snoc (l : list call) (c : call) :
  Forall balanced l -> balanced c -> Forall balanced (l ++ [c]).
Proof. intros Hl Hc. apply Forall_app. split; [exact Hl | now constructor]. Qed.

(** X17: when the table name and the keys of the map hold no [?], the
    query that [GetByAttrs] sends has as many placeholders as arguments:
    a balanced log stays balanced. *)
Theorem GetByAttrs_balanced {S D : Type} (r : Repository S D) (dest : D)
    (attrs : gmap string any) (iter : list (string * any)) (w : world S) :
  range_order attrs iter ->
  placeholders (TableName (rec r)) = O ->
  (forall k, is_Some (attrs !! k) -> placeholders k = O) ->
  Forall balanced (calls w) ->
  Forall balanced (calls (GetByAttrs r dest attrs iter w).2).
Proof.
  intros Hiter Ht Hk Hw.
  destruct (decide (attrs = ∅)) as [->|Hne]; [exact Hw|].
  rewrite (GetByAttrs_sends r dest attrs iter w Hiter Hne).
  unfold db_Get. destruct (Get _ _ _ _ _ _) as [[d err] h]. simpl.
  apply Forall_balanced_snoc; [exact Hw|].
  unfold balanced. simpl.
  rewrite !placeholders_append, Ht, placeholders_terms, length_fmap;
    [simpl; lia|].
  apply Forall_forall. intros [k v] Hin.
  apply Hk. exists v. now apply (range_order_elem attrs iter k v Hiter).
Qed.

Lemma GetByAttrs_balanced_witness :
  Forall balanced
    (calls (GetByAttrs {| db := one_row; rec := users |} tt two_attrs
              (map_to_list two_attrs) fresh).2).
Proof.
  apply (GetByAttrs_balanced {| db := one_row; rec := users |} tt two_attrs
           (map_to_list two_attrs) fresh).
  - apply range_order_self.
  - reflexivity.
  - intros k [v Hk]. unfold two_attrs in Hk.
    apply lookup_insert_Some in Hk as [[<- _]|[_ Hk]]; [reflexivity|].
    apply lookup_singleton_Some in Hk as [<- _]. reflexivity.
  - constructor.
Defined.

(** X18: when the table name, the primary key and the keys of the schema
    hold no [?], the statement that [PartialUpdate] executes has as many
    placeholders as arguments: a balanced log stays balanced. *)
Theorem PartialUpdate_balanced {S D : Type} (r : Repository S D) (id : Z)
    (schema : gmap string reflect.Kind) (iter : list (string * reflect.Kind))
    (attrs : gmap string any) (w : world S) :
  range_order schema iter ->
  placeholders (TableName (rec r)) = O ->
  placeholders (PrimaryKey (rec r)) = O ->
  (forall k, is_Some (schema !! k) -> placeholders k = O) ->
  Forall balanced (calls w) ->
  Forall balanced (calls (PartialUpdate r id schema iter attrs w).2).
Proof.
  intros Hiter Ht Hp Hk Hw. unfold PartialUpdate.
  destruct (_ || _); [exact Hw|].
  destruct (PartialUpdate_loop_result iter attrs [] [])
    as [[-> _]|[-> _]]; [exact Hw|].
  rewrite !app_nil_l.
  destruct (Nat.eqb _ 0); [exact Hw|].
  unfold db_Exec. destruct (Exec _ _ _ _) as [[res err] h].
  assert (Hb : Forall balanced
                 (calls w ++
                  [CallExec
                     ("UPDATE " +:+ TableName (rec r) +:+ " SET "
                      +:+ gostrings.Join
                            ((fun kv => kv.1 +:+ " = ?") <$> shared iter attrs) ", "
                      +:+ " WHERE " +:+ PrimaryKey (rec r) +:+ " = ?;")
                     ((shared iter attrs).*2 ++ [VInt64 id])])).
  { apply Forall_balanced_snoc; [exact Hw|].
    unfold balanced. simpl.
    rewrite !placeholders_append, Ht, Hp, placeholders_terms,
      length_app, length_fmap; [simpl; lia|].
    apply Forall_forall. intros [k v] Hin. apply Hk.
    apply elem_of_shared in Hin as [[kind Hin] _].
    exists kind. now apply (range_order_elem schema iter). }
  now destruct err.
Qed.

Lemma PartialUpdate_balanced_witness :
  Forall balanced
    (calls (PartialUpdate {| db := one_row; rec := users |} 7 name_schema
              (map_to_list name_schema) {[ "name" := VString "Ann" ]}
              fresh).2).
Proof.
  apply (PartialUpdate_balanced {| db := one_row; rec := users |} 7
           name_schema (map_to_list name_schema)
           {[ "name" := VString "Ann" ]} fresh).
  - apply range_order_self.
  - reflexivity.
  - reflexivity.
  - intros k [kind Hk]. unfold name_schema in Hk.
    apply lookup_singleton_Some in Hk as [<- _]. reflexivity.
  - constructor.
Defined.

(* ================================================================= *)
(** ** [List] with explicit and with parsed options *)

Section List_extras.

Context {S D : Type} `{CaseTables}.


End List_extras.





Lemma ParseOrder_ascii_witness :
  @ParseOrder latin_fragment " Desc" = "DESC" <->
  exists c1 c2 c3 c4 rest,
    trim_ascii (bytes " Desc") = c1 :: c2 :: c3 :: c4 :: rest /\
    letter 68 c1 /\ letter 69 c2 /\ letter 83 c3 /\ letter 67 c4.
Proof.
  apply (@ParseOrder_ascii latin_fragment " Desc").
  unfold ascii_only. change (bytes " Desc") with [32; 68; 101; 115; 99].
  repeat constructor.
Defined.

(* ================================================================= *)
(** ** Examples *)

Example DecodeRune_two_bytes :
  utf8.DecodeRuneInString [0xC3; 0xA9; 100] = (0xE9, 2).
Proof. reflexivity. Qed.

Example DecodeRune_overlong :
  utf8.DecodeRuneInString [0xC0; 0x80] = (utf8.RuneError, 1).
Proof. reflexivity. Qed.

Example DecodeRune_surrogate :
  utf8.DecodeRuneInString [0xED; 0xA0; 0x80] = (utf8.RuneError, 1).
Proof. reflexivity. Qed.

Example DecodeRune_truncated :
  utf8.DecodeRuneInString [0xE3; 0x80] = (utf8.RuneError, 1).
Proof. reflexivity. Qed.

Example DecodeLastRune_four_bytes :
  utf8.DecodeLastRuneInString [100; 0xF0; 0x9F; 0x98; 0x80] = (0x1F600, 4).
Proof. vm_compute. reflexivity. Qed.

Example DecodeLastRune_stray_continuation :
  utf8.DecodeLastRuneInString [100; 0x80] = (utf8.RuneError, 1).
Proof. vm_compute. reflexivity. Qed.

Example EncodeRune_round_trip :
  utf8.EncodeRune 0x3000 = [0xE3; 0x80; 0x80] /\
  utf8.EncodeRune 0x1F600 = [0xF0; 0x9F; 0x98; 0x80] /\
  utf8.EncodeRune 0xD800 = [0xEF; 0xBF; 0xBD].
Proof. repeat split; vm_compute; reflexivity. Qed.

(** No-break space, em space and ideographic space are trimmed like the
    ASCII ones; an invalid byte is kept. *)
Example TrimSpace_unicode :
  gostrings.TrimSpace
    (of_bytes [32; 0xC2; 0xA0; 100; 0xE2; 0x80; 0x83; 32; 0xE3; 0x80; 0x80])
  = "d".
Proof. vm_compute. reflexivity. Qed.

Example TrimSpace_invalid_byte :
  gostrings.TrimSpace (of_bytes [9; 100; 0x80; 32]) = of_bytes [100; 0x80].
Proof. vm_compute. reflexivity. Qed.

Example Join_three : gostrings.Join ["a"; "b"; "c"] ", " = "a, b, c".
Proof. reflexivity. Qed.

Example fmt_d_uint64_max : fmt_d 18446744073709551615 = "18446744073709551615".
Proof. vm_compute. reflexivity. Qed.

(** With Go's table the long s is an S to [ToUpper]. *)
Example ParseOrder_long_s :
  @ParseOrder latin_fragment (of_bytes [100; 101; 0xC5; 0xBF; 99]) = "DESC".
Proof. vm_compute. reflexivity. Qed.

Section Examples.

Context `{CaseTables}.

Example ParseOrder_padded :
  ParseOrder (of_bytes [32; 9; 100; 101; 115; 99; 13; 10]) = "DESC".
Proof. vm_compute. reflexivity. Qed.

Example ParseOrder_des : ParseOrder "des" = "ASC".
Proof. vm_compute. reflexivity. Qed.

Example ParseOrder_inner : ParseOrder "order desc" = "ASC".
Proof. vm_compute. reflexivity. Qed.

Example BuildQuery_table_only :
  BuildQuery {| Table := "users"; Offset := 0; Limit := 0;
                OrderByColumn := ""; Order := "desc";
                WhereColumn := ""; WhereValue := VNil |}
  = ("SELECT * FROM users", []).
Proof. vm_compute. reflexivity. Qed.

Example BuildQuery_offset_without_limit :
  BuildQuery {| Table := "users"; Offset := 5; Limit := 0;
                OrderByColumn := ""; Order := "";
                WhereColumn := "id"; WhereValue := VNil |}
  = ("SELECT * FROM users OFFSET 5", []).
Proof. vm_compute. reflexivity. Qed.

(** [List] with empty options: the record's table, and its sort column
    when it has one. *)
Example List_defaults :
  let opts := {| Table := ""; Offset := 0; Limit := 0; OrderByColumn := "";
                 Order := ""; WhereColumn := ""; WhereValue := VNil |} in
  calls (List {| db := one_row; rec := users |} tt opts fresh).2
    = [CallSelect "SELECT * FROM users ORDER BY name ASC" []] /\
  calls (List {| db := one_row; rec := logs |} tt opts fresh).2
    = [CallSelect "SELECT * FROM logs" []].
Proof. split; vm_compute; reflexivity. Qed.

End Examples.

Example Count_one_row :
  Count {| db := one_row; rec := users |} fresh =
    (0, None,
     {| handle := 1%nat;
        calls := [CallSelect "SELECT COUNT(DISTINCT id) FROM users" []] |}).
Proof. reflexivity. Qed.

Example GetByID_statement :
  calls (GetByID {| db := empty_table; rec := users |} tt 7 fresh).2
    = [CallGet "SELECT * FROM users WHERE id = ? LIMIT 1" [VInt64 7]].
Proof. reflexivity. Qed.

(** A valid partial update: the SET list is joined by commas and the id is
    the last argument. *)
Example PartialUpdate_statement :
  PartialUpdate {| db := one_row; rec := users |} 7 name_schema
    (map_to_list name_schema) {[ "name" := VString "Ann"; "age" := VInt 30 ]}
    fresh
  = (1, None,
     {| handle := 1%nat;
        calls := [CallExec "UPDATE users SET name = ? WHERE id = ?;"
                    [VString "Ann"; VInt64 7]] |}).
Proof. vm_compute. reflexivity. Qed.

(** A value that is neither string, int nor bool passes unchecked. *)
Example PartialUpdate_unchecked :
  PartialUpdate {| db := one_row; rec := users |} 7 name_schema
    (map_to_list name_schema) {[ "name" := VInt64 5 ]} fresh
  = (1, None,
     {| handle := 1%nat;
        calls := [CallExec "UPDATE users SET name = ? WHERE id = ?;"
                    [VInt64 5; VInt64 7]] |}).
Proof. vm_compute. reflexivity. Qed.

(** With one attribute [GetByAttrs] needs no separator. *)
Example GetByAttrs_one_attr :
  calls (GetByAttrs {| db := one_row; rec := users |} tt name_is_5
           (map_to_list name_is_5) fresh).2
    = [CallGet "SELECT * FROM users WHERE name = ?;" [VInt 5]].
Proof. vm_compute. reflexivity. Qed.
